(** * Modules and top-level bindings (src/module.c)

    A shallow embedding of the binding resolver, the import/using engine
    and the assignment gate of [module.c], and the properties of the
    specification that are stated about them.

    Modelling conventions.
    - Bindings and modules are heap objects.  A [jl_binding_t*] is an index
      into the binding heap, a [jl_module_t*] an index into the module heap;
      [NULL] is [None].  Reading through a pointer that is not allocated is
      undefined behaviour in C and is the outcome [Stuck] here.
    - A module's [bindings] table is a finite map from symbols to binding
      pointers; [HT_NOTFOUND] is the absence of the key.
    - [jl_errorf] is a non-local exit: the outcome [Raise], which keeps the
      state reached so far.  Text written to [JL_STDERR] is a list of events.
    - The code runs single threaded: [JL_LOCK]/[JL_UNLOCK], the atomics and
      the GC annotations have no counterpart.  [assert] is compiled out, as
      in a release build; what the assertions say is proved, not assumed by
      the definitions.
    - The resolver is recursive through the [using] lists; the embedding
      recurses on a fuel argument and [OutOfFuel] marks its exhaustion. *)

From Stdlib Require Import ZArith Ascii.
From stdpp Require Import gmap strings list fin_maps.

Open Scope Z_scope.
Open Scope nat_scope.

(** ** Data model *)

Abbreviation jl_sym_t := string (only parsing).
(** [jl_binding_t*] and [jl_module_t*]. *)
Abbreviation bptr := nat (only parsing).
Abbreviation mptr := nat (only parsing).

(** What [module.c] uses of host-language values, declared in [julia.h].
    [jl_value_t*] is compared by identity ([==] in C), which is the
    decidable equality of the carrier; [jl_egal] is structural equality. *)
Class JlValues := {
  jl_value_t : Type;
  jl_value_eq_dec :: EqDecision jl_value_t;
  jl_any_type : jl_value_t;
  jl_nothing : jl_value_t;
  jl_typeof : jl_value_t -> jl_value_t;
  jl_is_type : jl_value_t -> bool;
  jl_is_module : jl_value_t -> bool;
  jl_is_string : jl_value_t -> bool;
  jl_egal : jl_value_t -> jl_value_t -> bool;
  jl_isa : jl_value_t -> jl_value_t -> bool;
  (* [jl_gf_mtable(v)]: the method table's [module] and [name], or NULL *)
  jl_gf_mtable : jl_value_t -> option (mptr * jl_sym_t);
  (* a module as a value: the cast [(jl_value_t* )m] *)
  jl_module_value : mptr -> jl_value_t
}.

(** [jl_options.depwarn] *)
Definition JL_OPTIONS_DEPWARN_OFF : Z := 0.
Definition JL_OPTIONS_DEPWARN_ON : Z := 1.
Definition JL_OPTIONS_DEPWARN_ERROR : Z := 2.

Definition dep_message_prefix : string := "_dep_message_".

(** Errors raised with [jl_errorf] (and [jl_undefined_var_error]). *)
Inductive jl_error :=
  (* "cannot assign a value to imported variable %s.%s" *)
| CannotAssignImported (m var : jl_sym_t)
  (* "error in method definition: function %s.%s must be explicitly imported to be extended" *)
| MustExplicitlyImport (m var : jl_sym_t)
  (* "invalid redefinition of constant %s" and "... constant %s.%s" *)
| ConstantRedefinition (m : option jl_sym_t) (var : jl_sym_t)
  (* "cannot assign an incompatible value to the global %s.%s." *)
| TypeMismatch (m var : jl_sym_t)
  (* "cannot declare %s constant; it already has a value" *)
| ConstantRedeclaration (m var : jl_sym_t)
  (* "use of deprecated variable: %s.%s" *)
| DeprecatedBindingUse (m var : jl_sym_t)
| UndefinedVarError (var : jl_sym_t).

Section Model.
Context {V : JlValues}.

Record jl_binding_t := mk_binding {
  value : option jl_value_t;
  globalref : mptr * jl_sym_t;
  owner : option bptr;
  ty : option jl_value_t;
  constp : bool;
  exportp : bool;
  imported : bool;
  deprecated : Z
}.

Record jl_module_t := mk_module {
  name : jl_sym_t;
  parent : option mptr;
  bindings : gmap string bptr;
  usings : list mptr
}.

(** What is written to [JL_STDERR]. *)
Inductive event :=
  (* "WARNING: both %s and %s export \"%s\"; uses of it in module %s must be qualified\n" *)
| WARNING_must_be_qualified (owner_name imp_name var m_name : jl_sym_t)
  (* "WARNING: could not import %s.%s into %s\n" *)
| WARNING_could_not_import (from_name s to_name : jl_sym_t)
  (* "WARNING: importing deprecated binding %s.%s into %s%s%s.\n" *)
| WARNING_importing_deprecated (from_name s to_name : jl_sym_t) (as_name : option jl_sym_t)
  (* "WARNING: ignoring conflicting import of %s.%s into %s\n" *)
| WARNING_ignoring_conflicting_import (from_name s to_name : jl_sym_t)
  (* "WARNING: import of %s.%s into %s conflicts with an existing identifier; ignored.\n" *)
| WARNING_import_conflicts (from_name s to_name : jl_sym_t)
  (* "WARNING: using %s.%s in module %s conflicts with an existing identifier.\n" *)
| WARNING_using_conflicts (from_name var to_name : jl_sym_t)
  (* "WARNING: redefinition of constant %s.%s. This may fail, ...\n" *)
| WARNING_redefinition_of_constant (m_name var : jl_sym_t)
  (* "WARNING: " *)
| WARNING_prefix
  (* "%s.%s is deprecated" *)
| is_deprecated (m_name s : jl_sym_t)
  (* jl_uv_puts of a string message, jl_static_show of another value *)
| dep_puts (msg : jl_value_t)
| dep_static_show (msg : jl_value_t)
  (* ", use " v " instead." *)
| use_value_instead (v : jl_value_t)
  (* ", use " [module "."] name " instead." *)
| use_method_instead (mt_module : option mptr) (mt_name : jl_sym_t)
| newline
  (* " in module %s\n" *)
| in_module (m_name : jl_sym_t)
  (* "  likely near %s:%d\n" *)
| likely_near (lineno : Z).

Record jl_state := mk_state {
  modules : list jl_module_t;
  heap : list jl_binding_t;
  stderr : list event;
  (* process-wide handles and options *)
  jl_main_module : option mptr;
  jl_base_module : option mptr;
  jl_core_module : option mptr;
  depwarn : Z;
  jl_lineno : Z
}.

Inductive outcome (A : Type) :=
| Ok (a : A) (s : jl_state)
| Raise (e : jl_error) (s : jl_state)
| Stuck
| OutOfFuel.
Global Arguments Ok {A} a s.
Global Arguments Raise {A} e s.
Global Arguments Stuck {A}.
Global Arguments OutOfFuel {A}.

Definition Jl (A : Type) : Type := jl_state -> outcome A.

Definition ret {A} (a : A) : Jl A := fun s => Ok a s.

Definition bind {A B} (c : Jl A) (k : A -> Jl B) : Jl B :=
  fun s =>
    match c s with
    | Ok a s' => k a s'
    | Raise e s' => Raise e s'
    | Stuck => Stuck
    | OutOfFuel => OutOfFuel
    end.

End Model.

Notation "'let*' x ':=' c 'in' k" := (bind c (fun x => k))
  (at level 10, x pattern, c at level 100, k at level 200).
Notation "c ';;;' k" := (bind c (fun _ => k))
  (at level 100, k at level 200, right associativity).

Section Operations.
Context {V : JlValues}.

(** ** Field updates and heap primitives *)

Definition set_value (v : option jl_value_t) (c : jl_binding_t) : jl_binding_t :=
  mk_binding v (globalref c) (owner c) (ty c) (constp c) (exportp c) (imported c) (deprecated c).
Definition set_owner (o : option bptr) (c : jl_binding_t) : jl_binding_t :=
  mk_binding (value c) (globalref c) o (ty c) (constp c) (exportp c) (imported c) (deprecated c).
Definition set_ty (t : option jl_value_t) (c : jl_binding_t) : jl_binding_t :=
  mk_binding (value c) (globalref c) (owner c) t (constp c) (exportp c) (imported c) (deprecated c).
Definition set_constp (x : bool) (c : jl_binding_t) : jl_binding_t :=
  mk_binding (value c) (globalref c) (owner c) (ty c) x (exportp c) (imported c) (deprecated c).
Definition set_exportp (x : bool) (c : jl_binding_t) : jl_binding_t :=
  mk_binding (value c) (globalref c) (owner c) (ty c) (constp c) x (imported c) (deprecated c).
Definition set_imported (x : bool) (c : jl_binding_t) : jl_binding_t :=
  mk_binding (value c) (globalref c) (owner c) (ty c) (constp c) (exportp c) x (deprecated c).
Definition set_deprecated (x : Z) (c : jl_binding_t) : jl_binding_t :=
  mk_binding (value c) (globalref c) (owner c) (ty c) (constp c) (exportp c) (imported c) x.

Definition set_bindings (t : gmap string bptr) (mo : jl_module_t) : jl_module_t :=
  mk_module (name mo) (parent mo) t (usings mo).
Definition set_usings (us : list mptr) (mo : jl_module_t) : jl_module_t :=
  mk_module (name mo) (parent mo) (bindings mo) us.

Definition set_modules (ms : list jl_module_t) (s : jl_state) : jl_state :=
  mk_state ms (heap s) (stderr s) (jl_main_module s) (jl_base_module s)
           (jl_core_module s) (depwarn s) (jl_lineno s).
Definition set_heap (h : list jl_binding_t) (s : jl_state) : jl_state :=
  mk_state (modules s) h (stderr s) (jl_main_module s) (jl_base_module s)
           (jl_core_module s) (depwarn s) (jl_lineno s).
Definition set_stderr (o : list event) (s : jl_state) : jl_state :=
  mk_state (modules s) (heap s) o (jl_main_module s) (jl_base_module s)
           (jl_core_module s) (depwarn s) (jl_lineno s).

Definition stuck {A} : Jl A := fun _ => Stuck.
Definition out_of_fuel {A} : Jl A := fun _ => OutOfFuel.
Definition jl_errorf {A} (e : jl_error) : Jl A := fun s => Raise e s.
Definition jl_printf (ev : event) : Jl unit :=
  fun s => Ok tt (set_stderr (stderr s ++ [ev]) s).
Definition global {A} (f : jl_state -> A) : Jl A := fun s => Ok (f s) s.

(** [*m] and [*b] for reading, [b->field = x] and [m->field = x]. *)
Definition deref_module (m : mptr) : Jl jl_module_t :=
  fun s => match modules s !! m with Some mo => Ok mo s | None => Stuck end.
Definition deref (b : bptr) : Jl jl_binding_t :=
  fun s => match heap s !! b with Some c => Ok c s | None => Stuck end.
Definition assign (b : bptr) (f : jl_binding_t -> jl_binding_t) : Jl unit :=
  fun s => match heap s !! b with
           | Some c => Ok tt (set_heap (<[b := f c]> (heap s)) s)
           | None => Stuck
           end.
Definition assign_module (m : mptr) (f : jl_module_t -> jl_module_t) : Jl unit :=
  fun s => match modules s !! m with
           | Some mo => Ok tt (set_modules (<[m := f mo]> (modules s)) s)
           | None => Stuck
           end.

(** [jl_symbol_name(m->name)], and the same through a pointer that may be NULL *)
Definition module_name (m : mptr) : Jl jl_sym_t :=
  let* mo := deref_module m in ret (name mo).
Definition module_name_of (m : option mptr) : Jl jl_sym_t :=
  match m with Some m => module_name m | None => stuck end.

Definition nonzero (z : Z) : bool := negb (z =? 0)%Z.

(** ** Bindings *)

Definition new_binding (md : mptr) (nm : jl_sym_t) : Jl bptr :=
  fun s => Ok (length (heap s))
              (set_heap (heap s ++ [mk_binding None (md, nm) None None false false false 0%Z]) s).

(** get binding for assignment *)
Definition jl_get_binding_wr (m : mptr) (var : jl_sym_t) (alloc : bool) : Jl (option bptr) :=
  let* mo := deref_module m in
  match bindings mo !! var with
  | Some b =>
      let* c := deref b in
      (if decide (owner c = Some b) then ret tt
       else match owner c with
            | None => assign b (set_owner (Some b))
            | Some _ =>
                if alloc then jl_errorf (CannotAssignImported (name mo) var)
                else ret tt
            end) ;;;
      ret (Some b)
  | None =>
      if alloc then
        let* b := new_binding m var in
        assign b (set_owner (Some b)) ;;;
        assign_module m (fun mo => set_bindings (<[var := b]> (bindings mo)) mo) ;;;
        ret (Some b)
      else ret None
  end.

(** [_jl_get_module_binding] and [jl_get_module_binding]: NULL for HT_NOTFOUND *)
Definition jl_get_module_binding (m : mptr) (var : jl_sym_t) : Jl (option bptr) :=
  let* mo := deref_module m in ret (bindings mo !! var).

(** get binding for adding a method *)
Definition jl_get_binding_for_method_def (m : mptr) (var : jl_sym_t) : Jl bptr :=
  let* mo := deref_module m in
  match bindings mo !! var with
  | Some b =>
      let* c := deref b in
      match owner c with
      | None => assign b (set_owner (Some b)) ;;; ret b
      | Some b2 =>
          if decide (b2 = b) then ret b
          else
            let* must_import :=
              (if imported c then ret false
               else
                 let* c2 := deref b2 in
                 if constp c2 then
                   match value c2 with
                   | Some v => ret (negb (jl_is_type v))
                   | None => stuck (* jl_is_type(NULL) *)
                   end
                 else ret true) in
            if (must_import : bool) then jl_errorf (MustExplicitlyImport (name mo) var)
            else ret b2
      end
  | None =>
      let* b := new_binding m var in
      assign b (set_owner (Some b)) ;;;
      assign_module m (fun mo => set_bindings (<[var := b]> (bindings mo)) mo) ;;;
      ret b
  end.

Definition eq_bindings (a b : bptr) : Jl bool :=
  if decide (a = b) then ret true
  else
    let* ca := deref a in
    let* cb := deref b in
    if decide (owner ca = owner cb) then ret true
    else if constp ca && constp cb && bool_decide (value ca <> None)
            && bool_decide (value cb = value ca)
         then ret true
         else ret false.

(** ** Deprecation messages *)

(** [jl_binding_dep_message]; [jl_get_binding] is the resolver defined
    below, which reaches this function through [module_import_]. *)
Definition jl_binding_dep_message (jl_get_binding : mptr -> jl_sym_t -> Jl (option bptr))
    (m : mptr) (nm : jl_sym_t) (b : bptr) : Jl unit :=
  let dep_binding_name := dep_message_prefix +:+ nm in
  let* dep_message_binding := jl_get_binding m dep_binding_name in
  let* dep_message :=
    (match dep_message_binding with
     | Some d => let* cd := deref d in ret (value cd)
     | None => ret None
     end) in
  match dep_message with
  | Some msg =>
      if jl_is_string msg then jl_printf (dep_puts msg)
      else jl_printf (dep_static_show msg)
  | None =>
      let* c := deref b in
      match value c with
      | Some v =>
          if jl_is_type v || jl_is_module v then jl_printf (use_value_instead v)
          else
            match jl_gf_mtable v with
            | Some (mt_module, mt_name) =>
                let* core := global jl_core_module in
                jl_printf (use_method_instead
                             (if decide (Some mt_module = core) then None else Some mt_module)
                             mt_name)
            | None => ret tt
            end
      | None => ret tt
      end
  end ;;;
  jl_printf newline.

Definition jl_binding_deprecation_warning
    (jl_get_binding : mptr -> jl_sym_t -> Jl (option bptr))
    (m : mptr) (s : jl_sym_t) (b : bptr) : Jl unit :=
  let* c := deref b in
  let* dw := global depwarn in
  if bool_decide (deprecated c = 1%Z) && nonzero dw then
    let not_error := negb (dw =? JL_OPTIONS_DEPWARN_ERROR)%Z in
    (if not_error then jl_printf WARNING_prefix else ret tt) ;;;
    let* mn := module_name m in
    jl_printf (is_deprecated mn s) ;;;
    jl_binding_dep_message jl_get_binding m s b ;;;
    (if not_error then
       let* ln := global jl_lineno in
       if (ln =? 0)%Z then
         let* mn := module_name m in jl_printf (in_module mn)
       else jl_printf (likely_near ln)
     else ret tt) ;;;
    (if not_error then ret tt
     else let* mn := module_name m in jl_errorf (DeprecatedBindingUse mn s))
  else ret tt.

(** ** Import *)

Definition module_import_ (jl_get_binding : mptr -> jl_sym_t -> Jl (option bptr))
    (to : mptr) (from : option mptr) (b : option bptr)
    (asname s : jl_sym_t) (explici : bool) : Jl unit :=
  match b with
  | None =>
      let* fn := module_name_of from in
      let* tn := module_name to in
      jl_printf (WARNING_could_not_import fn s tn)
  | Some b =>
      let* cb := deref b in
      let* skip :=
        (if nonzero (deprecated cb) then
           if decide (value cb = Some jl_nothing) then
             (* silently skip importing deprecated values assigned to nothing *)
             ret true
           else
             let* main := global jl_main_module in
             let* base := global jl_base_module in
             let* dw := global depwarn in
             if bool_decide (Some to <> main) && bool_decide (Some to <> base)
                && negb (dw =? JL_OPTIONS_DEPWARN_OFF)%Z
             then
               let* fn := module_name_of from in
               let* tn := module_name to in
               jl_printf (WARNING_importing_deprecated fn s tn
                            (if decide (asname = s) then None else Some asname)) ;;;
               match from with
               | Some from => jl_binding_dep_message jl_get_binding from s b
               | None => stuck
               end ;;;
               ret false
             else ret false
         else ret false) in
      if (skip : bool) then ret tt
      else
        let* mo := deref_module to in
        match bindings mo !! asname with
        | Some bto =>
            if decide (bto = b) then
              (* importing a binding on top of itself. harmless. *)
              ret tt
            else
              let* e := eq_bindings bto b in
              if (e : bool) then
                (* already imported *)
                assign bto (set_imported explici)
              else
                let* cbto := deref bto in
                if bool_decide (owner cbto <> Some b) && bool_decide (owner cbto <> None) then
                  (* already imported from somewhere else *)
                  let* fn := module_name_of from in
                  let* tn := module_name to in
                  jl_printf (WARNING_ignoring_conflicting_import fn s tn)
                else if constp cbto || bool_decide (value cbto <> None) then
                  (* conflict with name owned by destination module *)
                  let* fn := module_name_of from in
                  let* tn := module_name to in
                  jl_printf (WARNING_import_conflicts fn s tn)
                else
                  let* cb := deref b in
                  assign bto (set_owner (owner cb)) ;;;
                  assign bto (set_imported explici)
        | None =>
            let* nb := new_binding to asname in
            assign nb (set_owner (Some b)) ;;;
            assign nb (set_imported explici) ;;;
            let* cb := deref b in
            assign nb (set_deprecated (deprecated cb)) ;;;
            assign_module to (fun mo => set_bindings (<[asname := nb]> (bindings mo)) mo)
        end
  end.

(** ** The resolver *)

(** [modstack_t]: the frames of the resolutions in progress, innermost first *)
Definition modstack_t : Type := list (mptr * jl_sym_t).

Definition on_stack (m : mptr) (var : jl_sym_t) (st : modstack_t) : bool :=
  existsb (fun f => bool_decide (f = (m, var))) st.

(** How one turn of the loop of [using_resolve_binding] ends: it goes on
    with the candidate held in [b] and [owner], or the function returns
    NULL from inside the loop. *)
Inductive scan :=
| Continue (b : option bptr) (owner_m : option mptr)
| ReturnNULL.

(** The body of the loop of [using_resolve_binding] at index [i] *)
Definition using_body (resolve : mptr -> jl_sym_t -> modstack_t -> Jl (option bptr))
    (m : mptr) (var : jl_sym_t) (st : modstack_t) (warn : bool)
    (i : nat) (b : option bptr) (owner_m : option mptr) : Jl scan :=
  let* mo := deref_module m in
  match usings mo !! i with
  | None => stuck
  | Some imp =>
      let* tempb := jl_get_module_binding imp var in
      match tempb with
      | None => ret (Continue b owner_m)
      | Some tb =>
          let* ctb := deref tb in
          if exportp ctb then
            (* find the owner for tempb *)
            let* tempb := resolve imp var st in
            match tempb with
            | None =>
                (* couldn't resolve; try next using (see issue #6105) *)
                ret (Continue b owner_m)
            | Some tempb =>
                let* ambiguous :=
                  (match b with
                   | None => ret false
                   | Some b0 =>
                       let* ct := deref tempb in
                       if nonzero (deprecated ct) then ret false
                       else
                         let* cb0 := deref b0 in
                         if nonzero (deprecated cb0) then ret false
                         else let* e := eq_bindings tempb b0 in ret (negb e)
                   end) in
                if (ambiguous : bool) then
                  (if warn then
                     (* mark this binding resolved, to avoid repeating the warning *)
                     jl_get_binding_wr m var true ;;;
                     let* on := module_name_of owner_m in
                     let* imn := module_name imp in
                     let* mn := module_name m in
                     jl_printf (WARNING_must_be_qualified on imn var mn)
                   else ret tt) ;;;
                  ret ReturnNULL
                else
                  let* take :=
                    (match owner_m with
                     | None => ret true
                     | Some _ => let* ct := deref tempb in ret (negb (nonzero (deprecated ct)))
                     end) in
                  if (take : bool) then ret (Continue (Some tempb) (Some imp))
                  else ret (Continue b owner_m)
            end
          else ret (Continue b owner_m)
      end
  end.

Fixpoint using_loop (resolve : mptr -> jl_sym_t -> modstack_t -> Jl (option bptr))
    (m : mptr) (var : jl_sym_t) (st : modstack_t) (warn : bool)
    (idx : list nat) (b : option bptr) (owner_m : option mptr) : Jl scan :=
  match idx with
  | [] => ret (Continue b owner_m)
  | i :: idx' =>
      let* r := using_body resolve m var st warn i b owner_m in
      match r with
      | Continue b' owner' => using_loop resolve m var st warn idx' b' owner'
      | ReturnNULL => ret ReturnNULL
      end
  end.

(** The indices [len-1, ..., 0] of [for (i = len - 1; i >= 0; --i)] *)
Definition downto (len : nat) : list nat := rev (seq 0 len).

(** find a binding from a module's [usings] list; [from] is the in-out
    argument [*from], written only when the loop runs to its end *)
Definition using_resolve_binding
    (resolve : mptr -> jl_sym_t -> modstack_t -> Jl (option bptr))
    (m : mptr) (var : jl_sym_t) (from : option mptr) (st : modstack_t) (warn : bool)
    : Jl (option bptr * option mptr) :=
  let* mo := deref_module m in
  let* r := using_loop resolve m var st warn (downto (length (usings mo))) None None in
  match r with
  | Continue b owner_m => ret (b, owner_m)
  | ReturnNULL => ret (None, from)
  end.

(** get binding for reading. might return NULL for unbound. *)
Fixpoint jl_resolve_owner (fuel : nat) (b : option bptr) (m : mptr) (var : jl_sym_t)
    (st : modstack_t) : Jl (option bptr) :=
  match fuel with
  | O => out_of_fuel
  | S fuel' =>
      let* b :=
        (match b with
         | None =>
             let* b := jl_get_module_binding m var in
             match b with
             | Some b => let* c := deref b in ret (owner c)
             | None => ret None
             end
         | Some b => let* c := deref b in ret (owner c)
         end) in
      match b with
      | None =>
          if on_stack m var st then
            (* import cycle without finding actual location *)
            ret None
          else
            let* r := using_resolve_binding (jl_resolve_owner fuel' None)
                        m var None ((m, var) :: st) true in
            match fst r with
            | Some b =>
                (* do a full import to prevent the result of this lookup
                   from changing *)
                module_import_ (fun m' v' => jl_resolve_owner fuel' None m' v' [])
                               m (snd r) (Some b) var var false ;;;
                ret (Some b)
            | None => ret None
            end
      | Some b => ret (Some b)
      end
  end.

Definition jl_get_binding (fuel : nat) (m : mptr) (var : jl_sym_t) : Jl (option bptr) :=
  jl_resolve_owner fuel None m var [].

Definition jl_get_binding_if_bound (m : mptr) (var : jl_sym_t) : Jl (option bptr) :=
  let* b := jl_get_module_binding m var in
  match b with
  | Some b => let* c := deref b in ret (owner c)
  | None => ret None
  end.

Definition jl_get_binding_or_error (fuel : nat) (m : mptr) (var : jl_sym_t) : Jl bptr :=
  let* b := jl_get_binding fuel m var in
  match b with
  | None => jl_errorf (UndefinedVarError var)
  | Some b =>
      let* c := deref b in
      (if nonzero (deprecated c)
       then jl_binding_deprecation_warning (jl_get_binding fuel) m var b
       else ret tt) ;;;
      ret b
  end.

(** get the current likely owner of binding when accessing m.var, without
    resolving the binding *)
Definition jl_binding_owner (fuel : nat) (m : mptr) (var : jl_sym_t) : Jl (option bptr) :=
  let* b := jl_get_module_binding m var in
  let* unresolved :=
    (match b with
     | None => ret true
     | Some b => let* c := deref b in ret (bool_decide (owner c = None))
     end) in
  if (unresolved : bool) then
    let* r := using_resolve_binding (jl_resolve_owner fuel None) m var (Some m) [] false in
    ret (fst r)
  else
    match b with
    | Some b => let* c := deref b in ret (owner c)
    | None => ret None
    end.

Definition jl_module_globalref (m : mptr) (var : jl_sym_t) : Jl (mptr * jl_sym_t) :=
  let* b := jl_get_module_binding m var in
  let* b :=
    (match b with
     | Some b => ret b
     | None =>
         let* b := new_binding m var in
         assign_module m (fun mo => set_bindings (<[var := b]> (bindings mo)) mo) ;;;
         ret b
     end) in
  let* c := deref b in ret (globalref c).

(** does module m explicitly import s? *)
Definition jl_is_imported (m : mptr) (s : jl_sym_t) : Jl bool :=
  let* b := jl_get_module_binding m s in
  match b with
  | Some b => let* c := deref b in ret (imported c)
  | None => ret false
  end.

Definition jl_module_import (fuel : nat) (to from : mptr) (s : jl_sym_t) : Jl unit :=
  let* b := jl_get_binding fuel from s in
  module_import_ (jl_get_binding fuel) to (Some from) b s s true.

Definition jl_module_import_as (fuel : nat) (to from : mptr) (s asname : jl_sym_t) : Jl unit :=
  let* b := jl_get_binding fuel from s in
  module_import_ (jl_get_binding fuel) to (Some from) b asname s true.

Definition jl_module_use (fuel : nat) (to from : mptr) (s : jl_sym_t) : Jl unit :=
  let* b := jl_get_binding fuel from s in
  module_import_ (jl_get_binding fuel) to (Some from) b s s false.

Definition jl_module_use_as (fuel : nat) (to from : mptr) (s asname : jl_sym_t) : Jl unit :=
  let* b := jl_get_binding fuel from s in
  module_import_ (jl_get_binding fuel) to (Some from) b asname s false.

(** ** Using and export *)

(** One slot of [from->bindings] in the loop of [jl_module_using]: warn if
    something visible via this "using" conflicts with an existing identifier *)
Definition using_conflict_check (fuel : nat) (to from : mptr)
    (slot : jl_sym_t * bptr) : Jl unit :=
  let '(var, b) := slot in
  let* cb := deref b in
  if exportp cb && (bool_decide (owner cb = Some b) || imported cb) then
    let* mto := deref_module to in
    match bindings mto !! var with
    | Some tob =>
        let* ctob := deref tob in
        if bool_decide (owner ctob <> None) && bool_decide (var <> name mto) then
          let* a := jl_get_binding fuel to var in
          let* e := (match a with Some a => eq_bindings a b | None => stuck end) in
          if (e : bool) then ret tt
          else
            let* fn := module_name from in
            let* tn := module_name to in
            jl_printf (WARNING_using_conflicts fn var tn)
        else ret tt
    | None => ret tt
    end
  else ret tt.

Fixpoint for_each {A} (f : A -> Jl unit) (l : list A) : Jl unit :=
  match l with
  | [] => ret tt
  | x :: l' => f x ;;; for_each f l'
  end.

(** The slots of the table are visited in the order of [map_to_list]; the
    order of the C hash table only decides the order of the warnings. *)
Definition jl_module_using (fuel : nat) (to from : mptr) : Jl unit :=
  if decide (to = from) then ret tt
  else
    let* mto := deref_module to in
    if bool_decide (from ∈ usings mto) then ret tt
    else
      let* mfrom := deref_module from in
      for_each (using_conflict_check fuel to from) (map_to_list (bindings mfrom)) ;;;
      assign_module to (fun mo => set_usings (usings mo ++ [from]) mo).

Definition jl_module_export (from : mptr) (s : jl_sym_t) : Jl unit :=
  let* b := jl_get_module_binding from s in
  let* b :=
    (match b with
     | Some b => ret b
     | None =>
         (* don't yet know who the owner will be *)
         let* b := new_binding from s in
         assign_module from (fun mo => set_bindings (<[s := b]> (bindings mo)) mo) ;;;
         ret b
     end) in
  assign b (set_exportp true).

(** ** Queries *)

Definition jl_boundp (fuel : nat) (m : mptr) (var : jl_sym_t) : Jl bool :=
  let* b := jl_get_binding fuel m var in
  match b with
  | Some b => let* c := deref b in ret (bool_decide (value c <> None))
  | None => ret false
  end.

Definition jl_defines_or_exports_p (m : mptr) (var : jl_sym_t) : Jl bool :=
  let* b := jl_get_module_binding m var in
  match b with
  | Some b => let* c := deref b in ret (exportp c || bool_decide (owner c = Some b))
  | None => ret false
  end.

Definition jl_module_exports_p (m : mptr) (var : jl_sym_t) : Jl bool :=
  let* b := jl_get_module_binding m var in
  match b with
  | Some b => let* c := deref b in ret (exportp c)
  | None => ret false
  end.

Definition jl_binding_resolved_p (m : mptr) (var : jl_sym_t) : Jl bool :=
  let* b := jl_get_module_binding m var in
  match b with
  | Some b => let* c := deref b in ret (bool_decide (owner c <> None))
  | None => ret false
  end.

Definition jl_is_const (fuel : nat) (m : mptr) (var : jl_sym_t) : Jl bool :=
  let* b := jl_get_binding fuel m var in
  match b with
  | Some b => let* c := deref b in ret (constp c)
  | None => ret false
  end.

Definition jl_get_global (fuel : nat) (m : mptr) (var : jl_sym_t) : Jl (option jl_value_t) :=
  let* b := jl_get_binding fuel m var in
  match b with
  | None => ret None
  | Some b =>
      let* c := deref b in
      (if nonzero (deprecated c)
       then jl_binding_deprecation_warning (jl_get_binding fuel) m var b
       else ret tt) ;;;
      let* c := deref b in ret (value c)
  end.

(** ** The assignment gate *)

(** [jl_atomic_cmpswap(&b->value, &old, val)] with [old = NULL] *)
Definition cmpswap_value (b : bptr) (val : jl_value_t) : Jl (option jl_value_t) :=
  let* c := deref b in
  match value c with
  | None => assign b (set_value (Some val)) ;;; ret None
  | Some old => ret (Some old)
  end.

(** [jl_atomic_cmpswap_relaxed(&b->ty, &old_ty, jl_any_type)] with [old_ty = NULL] *)
Definition cmpswap_ty (b : bptr) : Jl (option jl_value_t) :=
  let* c := deref b in
  match ty c with
  | None => assign b (set_ty (Some jl_any_type)) ;;; ret None
  | Some old_ty => ret (Some old_ty)
  end.

Definition jl_checked_assignment (b : bptr) (md : mptr) (var : jl_sym_t)
    (rhs : jl_value_t) : Jl unit :=
  let* old_ty := cmpswap_ty b in
  (match old_ty with
   | None => ret tt
   | Some old_ty =>
       if bool_decide (old_ty <> jl_any_type) && bool_decide (jl_typeof rhs <> old_ty) then
         if jl_isa rhs old_ty then ret tt
         else let* mn := module_name md in jl_errorf (TypeMismatch mn var)
       else ret tt
   end) ;;;
  let* c := deref b in
  let* stored :=
    (if constp c then
       let* old := cmpswap_value b rhs in
       match old with
       | None => ret true
       | Some old =>
           if jl_egal rhs old then ret true
           else
             (if bool_decide (jl_typeof rhs <> jl_typeof old)
                 || jl_is_type rhs || jl_is_module rhs
              then let* mn := module_name md in
                   jl_errorf (ConstantRedefinition (Some mn) var)
              else ret tt) ;;;
             let* mn := module_name md in
             jl_printf (WARNING_redefinition_of_constant mn var) ;;;
             ret false
       end
     else ret false) in
  if (stored : bool) then ret tt
  else assign b (set_value (Some rhs)).

Definition jl_set_global (m : mptr) (var : jl_sym_t) (val : jl_value_t) : Jl unit :=
  let* bp := jl_get_binding_wr m var true in
  match bp with
  | Some bp => jl_checked_assignment bp m var val
  | None => stuck
  end.

Definition jl_set_const (m : mptr) (var : jl_sym_t) (val : jl_value_t) : Jl unit :=
  let* bp := jl_get_binding_wr m var true in
  match bp with
  | None => stuck
  | Some bp =>
      let* c := deref bp in
      let* set :=
        (match value c with
         | None =>
             cmpswap_ty bp ;;;
             let* c := deref bp in
             let constp0 := constp c in
             assign bp (set_constp true) ;;;
             if constp0 then ret false
             else
               let* old := cmpswap_value bp val in
               match old with
               | None => ret true
               | Some _ => ret false
               end
         | Some _ => ret false
         end) in
      if (set : bool) then ret tt
      else jl_errorf (ConstantRedefinition None var)
  end.

Definition jl_declare_constant (b : bptr) (md : mptr) (var : jl_sym_t) : Jl unit :=
  let* c := deref b in
  if bool_decide (owner c <> Some b)
     || (bool_decide (value c <> None) && negb (constp c))
  then let* mn := module_name md in jl_errorf (ConstantRedeclaration mn var)
  else assign b (set_constp true).

(** ** Deprecation *)

(** set the deprecated flag for a binding:
    0=not deprecated, 1=renamed, 2=moved to another package *)
Definition jl_deprecate_binding (fuel : nat) (m : mptr) (var : jl_sym_t) (flag : Z) : Jl unit :=
  let* b := jl_get_binding fuel m var in
  match b with
  | Some b => assign b (set_deprecated flag)
  | None => ret tt
  end.

Definition jl_is_binding_deprecated (fuel : nat) (m : mptr) (var : jl_sym_t) : Jl bool :=
  let* r := jl_binding_resolved_p m var in
  if (r : bool) then
    let* b := jl_get_binding fuel m var in
    match b with
    | Some b => let* c := deref b in ret (nonzero (deprecated c))
    | None => ret false
    end
  else ret false.

(** Remove implicitly imported identifiers *)
Definition jl_clear_implicit_imports (m : mptr) : Jl unit :=
  fun s =>
    match modules s !! m with
    | None => Stuck
    | Some mo =>
        if bool_decide (map_Forall (fun _ b => is_Some (heap s !! b)) (bindings mo)) then
          let keep (kb : string * nat) :=
            match heap s !! kb.2 with
            | Some c => bool_decide (owner c = Some kb.2) || imported c
            | None => true
            end in
          Ok tt (set_modules
                   (<[m := set_bindings (filter (fun kb => keep kb = true) (bindings mo)) mo]>
                      (modules s)) s)
        else Stuck
    end.

(** ** Module construction *)

(** [jl_new_module_]: the new module, its [using] of the core module, its
    own name bound to itself and exported.  The identity and option fields
    of the module record ([build_id], [uuid], [counter], [hash],
    [optlevel], ...) play no part in the bindings and are left out. *)
Definition jl_new_module_ (fuel : nat) (nm : jl_sym_t) (parent_m : option mptr)
    (default_names : bool) : Jl mptr :=
  fun s =>
    let m := length (modules s) in
    (let* core := global jl_core_module in
     (match core with
      | Some core => if default_names then jl_module_using fuel m core else ret tt
      | None => ret tt
      end) ;;;
     (* export own name, so "using Foo" makes "Foo" itself visible *)
     (if default_names then jl_set_const m nm (jl_module_value m) else ret tt) ;;;
     jl_module_export m nm ;;;
     ret m)
      (set_modules (modules s ++ [mk_module nm parent_m ∅ []]) s).

Definition jl_new_module (fuel : nat) (nm : jl_sym_t) (parent_m : option mptr) : Jl mptr :=
  jl_new_module_ fuel nm parent_m true.

(** ** The entry points as one type *)

Inductive api_call :=
| call_new_module_ (nm : jl_sym_t) (parent_m : option mptr) (default_names : bool)
| call_get_binding_wr (m : mptr) (var : jl_sym_t) (alloc : bool)
| call_get_binding_for_method_def (m : mptr) (var : jl_sym_t)
| call_get_binding (m : mptr) (var : jl_sym_t)
| call_get_binding_or_error (m : mptr) (var : jl_sym_t)
| call_binding_owner (m : mptr) (var : jl_sym_t)
| call_module_globalref (m : mptr) (var : jl_sym_t)
| call_module_import (to from : mptr) (s : jl_sym_t)
| call_module_import_as (to from : mptr) (s asname : jl_sym_t)
| call_module_use (to from : mptr) (s : jl_sym_t)
| call_module_use_as (to from : mptr) (s asname : jl_sym_t)
| call_module_using (to from : mptr)
| call_module_export (from : mptr) (s : jl_sym_t)
| call_boundp (m : mptr) (var : jl_sym_t)
| call_is_const (m : mptr) (var : jl_sym_t)
| call_get_global (m : mptr) (var : jl_sym_t)
| call_set_global (m : mptr) (var : jl_sym_t) (val : jl_value_t)
| call_set_const (m : mptr) (var : jl_sym_t) (val : jl_value_t)
| call_checked_assignment (b : bptr) (md : mptr) (var : jl_sym_t) (rhs : jl_value_t)
| call_declare_constant (b : bptr) (md : mptr) (var : jl_sym_t)
| call_deprecate_binding (m : mptr) (var : jl_sym_t) (flag : Z)
| call_is_binding_deprecated (m : mptr) (var : jl_sym_t)
| call_clear_implicit_imports (m : mptr).

Definition run_api (fuel : nat) (c : api_call) : Jl unit :=
  match c with
  | call_new_module_ nm parent_m default_names =>
      jl_new_module_ fuel nm parent_m default_names ;;; ret tt
  | call_get_binding_wr m var alloc => jl_get_binding_wr m var alloc ;;; ret tt
  | call_get_binding_for_method_def m var => jl_get_binding_for_method_def m var ;;; ret tt
  | call_get_binding m var => jl_get_binding fuel m var ;;; ret tt
  | call_get_binding_or_error m var => jl_get_binding_or_error fuel m var ;;; ret tt
  | call_binding_owner m var => jl_binding_owner fuel m var ;;; ret tt
  | call_module_globalref m var => jl_module_globalref m var ;;; ret tt
  | call_module_import to from s => jl_module_import fuel to from s
  | call_module_import_as to from s asname => jl_module_import_as fuel to from s asname
  | call_module_use to from s => jl_module_use fuel to from s
  | call_module_use_as to from s asname => jl_module_use_as fuel to from s asname
  | call_module_using to from => jl_module_using fuel to from
  | call_module_export from s => jl_module_export from s
  | call_boundp m var => jl_boundp fuel m var ;;; ret tt
  | call_is_const m var => jl_is_const fuel m var ;;; ret tt
  | call_get_global m var => jl_get_global fuel m var ;;; ret tt
  | call_set_global m var val => jl_set_global m var val
  | call_set_const m var val => jl_set_const m var val
  | call_checked_assignment b md var rhs => jl_checked_assignment b md var rhs
  | call_declare_constant b md var => jl_declare_constant b md var
  | call_deprecate_binding m var flag => jl_deprecate_binding fuel m var flag
  | call_is_binding_deprecated m var => jl_is_binding_deprecated fuel m var ;;; ret tt
  | call_clear_implicit_imports m => jl_clear_implicit_imports m
  end.

End Operations.

(** * The rest of [module.c]: listings, global references, sub-modules and
      module options *)

Section Listings.
Context {V : JlValues}.

(** ** Accessors *)

Definition jl_module_name (m : mptr) : Jl jl_sym_t :=
  let* mo := deref_module m in ret (name mo).

Definition jl_module_parent (m : mptr) : Jl (option mptr) :=
  let* mo := deref_module m in ret (parent mo).

Definition jl_get_binding_wr_or_error (m : mptr) (var : jl_sym_t) : Jl (option bptr) :=
  jl_get_binding_wr m var true.

(** return module of binding: [b->globalref->mod] *)
Definition jl_get_module_of_binding (fuel : nat) (m : mptr) (var : jl_sym_t)
    : Jl (option mptr) :=
  let* b := jl_get_binding fuel m var in
  match b with
  | None => ret None
  | Some b => let* c := deref b in ret (Some (globalref c).1)
  end.

(** get type of binding m.var, without resolving the binding *)
Definition jl_get_binding_type (m : mptr) (var : jl_sym_t) : Jl jl_value_t :=
  let* b := jl_get_module_binding m var in
  match b with
  | None => ret jl_nothing
  | Some b =>
      let* c := deref b in
      match owner c with
      | None => ret jl_nothing
      | Some o =>
          let* co := deref o in
          ret (match ty co with Some t => t | None => jl_nothing end)
      end
  end.

(** ** Global references *)

(** A [jl_globalref_t]: the fields [mod], [name] and [binding] that
    [jl_new_globalref] fills in.  The [globalref] field of a binding holds
    the first two; its [binding] is the binding itself. *)
Record jl_globalref_t := mk_globalref {
  gr_mod : mptr;
  gr_name : jl_sym_t;
  gr_binding : option bptr
}.

(** The object that [new_binding] stores in [b->globalref] *)
Definition jl_new_globalref (md : mptr) (nm : jl_sym_t) (b : bptr) : jl_globalref_t :=
  mk_globalref md nm (Some b).

Definition jl_get_globalref_value (fuel : nat) (gr : jl_globalref_t)
    : Jl (option jl_value_t) :=
  let* b := jl_resolve_owner fuel (gr_binding gr) (gr_mod gr) (gr_name gr) [] in
  (* ignores b->deprecated *)
  match b with
  | None => ret None
  | Some b => let* c := deref b in ret (value c)
  end.

Definition jl_globalref_is_const (fuel : nat) (gr : jl_globalref_t) : Jl bool :=
  let* b := jl_resolve_owner fuel (gr_binding gr) (gr_mod gr) (gr_name gr) [] in
  match b with
  | Some b => let* c := deref b in ret (constp c)
  | None => ret false
  end.

Definition jl_globalref_boundp (fuel : nat) (gr : jl_globalref_t) : Jl bool :=
  let* b := jl_resolve_owner fuel (gr_binding gr) (gr_mod gr) (gr_name gr) [] in
  match b with
  | Some b => let* c := deref b in ret (bool_decide (value c <> None))
  | None => ret false
  end.

(** ** Listings *)

(** The loop of [jl_module_usings]: one element is added to the array
    for each index, from the last one down *)
Fixpoint usings_loop (mo : jl_module_t) (idx : list nat) (a : list mptr) : Jl (list mptr) :=
  match idx with
  | [] => ret a
  | i :: idx' =>
      match usings mo !! i with
      | Some imp => usings_loop mo idx' (a ++ [imp])
      | None => stuck
      end
  end.

Definition jl_module_usings (m : mptr) : Jl (list mptr) :=
  let* mo := deref_module m in
  usings_loop mo (downto (length (usings mo))) [].

(** [jl_symbol_name(asname)[0] == '#'] *)
Definition hidden_name (asname : jl_sym_t) : bool :=
  match asname with
  | String a _ => bool_decide (a = "#"%char)
  | EmptyString => false
  end.

(** One slot of the table in the loop of [jl_module_names] *)
Definition names_slot (m : mptr) (all imported_p : bool) (a : list jl_sym_t)
    (slot : jl_sym_t * bptr) : Jl (list jl_sym_t) :=
  let '(asname, b) := slot in
  let* c := deref b in
  let hidden := hidden_name asname in
  let* main := global jl_main_module in
  if (exportp c
      || (imported_p && imported c)
      || (bool_decide (owner c = Some b) && negb (imported c)
          && (all || bool_decide (Some m = main))))
     && (all || (negb (nonzero (deprecated c)) && negb hidden))
  then ret (a ++ [asname])
  else ret a.

Fixpoint names_loop (m : mptr) (all imported_p : bool) (slots : list (jl_sym_t * bptr))
    (a : list jl_sym_t) : Jl (list jl_sym_t) :=
  match slots with
  | [] => ret a
  | slot :: slots' =>
      let* a' := names_slot m all imported_p a slot in
      names_loop m all imported_p slots' a'
  end.

(** The slots are visited in the order of [map_to_list], as in
    [jl_module_using]; the order of the C hash table decides the order of
    the names in the array, not which names are in it. *)
Definition jl_module_names (m : mptr) (all imported_p : bool) : Jl (list jl_sym_t) :=
  let* mo := deref_module m in
  names_loop m all imported_p (map_to_list (bindings mo)) [].

(** ** Sub-modules *)

(** [jl_is_submodule]; the loop runs on fuel, since nothing in the function
    bounds the length of a chain of parents. *)
Fixpoint jl_is_submodule (fuel : nat) (child parent_m : option mptr) : Jl bool :=
  match fuel with
  | O => out_of_fuel
  | S fuel' =>
      if decide (parent_m = child) then ret true
      else
        match child with
        | None => ret false
        | Some ch =>
            let* mo := deref_module ch in
            if decide (parent mo = Some ch) then ret false
            else jl_is_submodule fuel' (parent mo) parent_m
        end
  end.

End Listings.

(** ** Module options

    The fields of [jl_module_t] that take no part in the bindings:
    [istopmod], [counter] and the five compiler settings.  They are kept in
    a table of their own, indexed by the module pointer like [modules];
    [m->parent] and [jl_base_module] are read from the state. *)

Record jl_module_opts := mk_opts {
  istopmod : bool;
  counter : Z;
  nospecialize : Z;
  optlevel : Z;
  compile : Z;
  infer : Z;
  max_methods : Z
}.

Record jl_options_state := mk_options_state {
  module_opts : list jl_module_opts;
  jl_top_module : option mptr
}.

(** The option fields of the module that [jl_new_module_] makes *)
Definition new_module_opts : jl_module_opts :=
  mk_opts false 1 0 (-1) (-1) (-1) (-1).

Definition set_istopmod (x : bool) (o : jl_module_opts) : jl_module_opts :=
  mk_opts x (counter o) (nospecialize o) (optlevel o) (compile o) (infer o) (max_methods o).
Definition set_counter (x : Z) (o : jl_module_opts) : jl_module_opts :=
  mk_opts (istopmod o) x (nospecialize o) (optlevel o) (compile o) (infer o) (max_methods o).
Definition set_nospecialize (x : Z) (o : jl_module_opts) : jl_module_opts :=
  mk_opts (istopmod o) (counter o) x (optlevel o) (compile o) (infer o) (max_methods o).
Definition set_optlevel (x : Z) (o : jl_module_opts) : jl_module_opts :=
  mk_opts (istopmod o) (counter o) (nospecialize o) x (compile o) (infer o) (max_methods o).
Definition set_compile (x : Z) (o : jl_module_opts) : jl_module_opts :=
  mk_opts (istopmod o) (counter o) (nospecialize o) (optlevel o) x (infer o) (max_methods o).
Definition set_infer (x : Z) (o : jl_module_opts) : jl_module_opts :=
  mk_opts (istopmod o) (counter o) (nospecialize o) (optlevel o) (compile o) x (max_methods o).
Definition set_max_methods (x : Z) (o : jl_module_opts) : jl_module_opts :=
  mk_opts (istopmod o) (counter o) (nospecialize o) (optlevel o) (compile o) (infer o) x.

(** [self->field = x]; [None] when [self] is not a module *)
Definition assign_opts (self : mptr) (f : jl_module_opts -> jl_module_opts)
    (os : jl_options_state) : option jl_options_state :=
  match module_opts os !! self with
  | Some o => Some (mk_options_state (<[self := f o]> (module_opts os)) (jl_top_module os))
  | None => None
  end.

Definition jl_set_module_nospecialize (self : mptr) (on : Z) (os : jl_options_state)
    : option jl_options_state :=
  assign_opts self (set_nospecialize (if nonzero on then (-1) else 0)%Z) os.

Definition jl_set_module_optlevel (self : mptr) (lvl : Z) (os : jl_options_state)
    : option jl_options_state :=
  assign_opts self (set_optlevel lvl) os.

Definition jl_set_module_compile (self : mptr) (value : Z) (os : jl_options_state)
    : option jl_options_state :=
  assign_opts self (set_compile value) os.

Definition jl_set_module_infer (self : mptr) (value : Z) (os : jl_options_state)
    : option jl_options_state :=
  match assign_opts self (set_infer value) os with
  | Some os' =>
      (* no reason to specialize if inference is off *)
      if nonzero value then Some os' else jl_set_module_nospecialize self 1 os'
  | None => None
  end.

Definition jl_set_module_max_methods (self : mptr) (value : Z) (os : jl_options_state)
    : option jl_options_state :=
  assign_opts self (set_max_methods value) os.

Definition jl_set_istopmod (self : mptr) (isprimary : bool) (os : jl_options_state)
    : option jl_options_state :=
  match assign_opts self (set_istopmod true) os with
  | Some os' =>
      if isprimary then Some (mk_options_state (module_opts os') (Some self))
      else Some os'
  | None => None
  end.

Definition jl_istopmod (md : mptr) (os : jl_options_state) : option bool :=
  match module_opts os !! md with
  | Some o => Some (istopmod o)
  | None => None
  end.

(** [jl_atomic_fetch_add(&m->counter, 1)] on the [uint32_t] counter: the
    value before, and the table after *)
Definition jl_module_next_counter (m : mptr) (os : jl_options_state)
    : option (Z * jl_options_state) :=
  match module_opts os !! m with
  | Some o =>
      Some (counter o,
            mk_options_state
              (<[m := set_counter ((counter o + 1) mod 2 ^ 32)%Z o]> (module_opts os))
              (jl_top_module os))
  | None => None
  end.

Section Settings.
Context {V : JlValues}.

(** The loop that the four getters share, for the setting [field]:
    [while (value == -1 && m->parent != m && m != jl_base_module)
       { m = m->parent; value = m->field; }].
    It runs on fuel: nothing in it bounds the length of a chain of parents. *)
Fixpoint inherited (field : jl_module_opts -> Z) (os : jl_options_state)
    (fuel : nat) (m : mptr) (value : Z) : Jl Z :=
  match fuel with
  | O => out_of_fuel
  | S fuel' =>
      if bool_decide (value = (-1)%Z) then
        let* mo := deref_module m in
        if bool_decide (parent mo <> Some m) then
          let* base := global jl_base_module in
          if bool_decide (Some m <> base) then
            match parent mo with
            | Some p =>
                match module_opts os !! p with
                | Some o => inherited field os fuel' p (field o)
                | None => stuck
                end
            | None => stuck
            end
          else ret value
        else ret value
      else ret value
  end.

Definition get_setting (field : jl_module_opts -> Z) (os : jl_options_state)
    (fuel : nat) (m : mptr) : Jl Z :=
  match module_opts os !! m with
  | Some o => inherited field os fuel m (field o)
  | None => stuck
  end.

Definition jl_get_module_optlevel (os : jl_options_state) (fuel : nat) (m : mptr) : Jl Z :=
  get_setting optlevel os fuel m.

Definition jl_get_module_compile (os : jl_options_state) (fuel : nat) (m : mptr) : Jl Z :=
  get_setting compile os fuel m.

Definition jl_get_module_infer (os : jl_options_state) (fuel : nat) (m : mptr) : Jl Z :=
  get_setting infer os fuel m.

Definition jl_get_module_max_methods (os : jl_options_state) (fuel : nat) (m : mptr) : Jl Z :=
  get_setting max_methods os fuel m.

End Settings.
(** ** A small universe of values

    [julia.h] is not part of this file's source; the properties below are
    stated for every instance of [JlValues].  This instance, with integers,
    strings, types, modules and generic functions, is the one the
    definitions are run on. *)

Inductive toy_type := TAny | TInt | TString | TNothing | TDataType | TModule | TFunction.

Inductive toy_value :=
| VInt (n : Z)
| VStr (s : string)
| VNothing
| VType (t : toy_type)
| VModule (m : nat)
| VFunction (m : nat) (nm : string).

Definition toy_typeof (v : toy_value) : toy_value :=
  match v with
  | VInt _ => VType TInt
  | VStr _ => VType TString
  | VNothing => VType TNothing
  | VType _ => VType TDataType
  | VModule _ => VType TModule
  | VFunction _ _ => VType TFunction
  end.

Definition toy_is_type (v : toy_value) : bool :=
  match v with VType _ => true | _ => false end.
Definition toy_is_module (v : toy_value) : bool :=
  match v with VModule _ => true | _ => false end.
Definition toy_is_string (v : toy_value) : bool :=
  match v with VStr _ => true | _ => false end.

Global Instance toy_type_eq_dec : EqDecision toy_type.
Proof. solve_decision. Defined.
Global Instance toy_value_eq_dec : EqDecision toy_value.
Proof. solve_decision. Defined.

Definition toy_egal (a b : toy_value) : bool := bool_decide (a = b).
Definition toy_isa (v t : toy_value) : bool :=
  bool_decide (t = VType TAny) || bool_decide (toy_typeof v = t).
Definition toy_gf_mtable (v : toy_value) : option (nat * string) :=
  match v with VFunction m nm => Some (m, nm) | _ => None end.

Global Instance toy_values : JlValues := {|
  jl_value_t := toy_value;
  jl_any_type := VType TAny;
  jl_nothing := VNothing;
  jl_typeof := toy_typeof;
  jl_is_type := toy_is_type;
  jl_is_module := toy_is_module;
  jl_is_string := toy_is_string;
  jl_egal := toy_egal;
  jl_isa := toy_isa;
  jl_gf_mtable := toy_gf_mtable;
  jl_module_value := VModule
|}.

(** A state with the given modules and bindings, nothing printed yet, no
    distinguished modules and deprecation warnings on. *)
Definition toy_state (ms : list jl_module_t) (h : list jl_binding_t) : jl_state :=
  mk_state ms h [] None None None JL_OPTIONS_DEPWARN_ON 0%Z.

(** A canonical binding at address [b], an alias of [o], a placeholder. *)
Definition toy_own (m : nat) (nm : string) (b : nat) (v : option toy_value)
    (is_const is_exported : bool) : jl_binding_t :=
  mk_binding v (m, nm) (Some b) None is_const is_exported false 0%Z.
Definition toy_alias (m : nat) (nm : string) (o : nat) (is_imported : bool) : jl_binding_t :=
  mk_binding None (m, nm) (Some o) None false false is_imported 0%Z.
Definition toy_placeholder (m : nat) (nm : string) (is_exported : bool) : jl_binding_t :=
  mk_binding None (m, nm) None None false is_exported false 0%Z.

Definition toy_module (nm : string) (t : list (string * nat)) (us : list nat) : jl_module_t :=
  mk_module nm None (list_to_map t) us.


(** The state a run ends in ([s] when there is none). *)
Definition state_after {A} (r : outcome A) (s : jl_state) : jl_state :=
  match r with
  | Ok _ s' => s'
  | Raise _ s' => s'
  | _ => s
  end.

(** ** Scenarios *)

(** [U] is using [F1] and [F2], which both own and export an [x]. *)
Definition two_exports : jl_state :=
  toy_state
    [ toy_module "U" [] [1; 2];
      toy_module "F1" [("x", 0)] [];
      toy_module "F2" [("x", 1)] [] ]
    [ toy_own 1 "x" 0 (Some (VInt 1)) false true;
      toy_own 2 "x" 1 (Some (VInt 2)) false true ].

(** [U] is using [F], which owns and exports [x]; nothing is resolved yet. *)
Definition one_export : jl_state :=
  toy_state
    [ toy_module "U" [] [1];
      toy_module "F" [("x", 0)] [] ]
    [ toy_own 1 "x" 0 (Some (VInt 1)) false true ].

(** [M] has an alias of [F.f] (binding 0) under [f], an imported alias of
    it under [g], an alias of the constant type [F.T] (binding 1) under
    [T], and a reserved name [p]. *)
Definition with_aliases : jl_state :=
  toy_state
    [ toy_module "M" [("f", 2); ("g", 3); ("T", 4); ("p", 5)] [1];
      toy_module "F" [("f", 0); ("T", 1)] [] ]
    [ toy_own 1 "f" 0 (Some (VFunction 1 "f")) false true;
      toy_own 1 "T" 1 (Some (VType TInt)) true true;
      toy_alias 0 "f" 0 false;
      toy_alias 0 "g" 0 true;
      toy_alias 0 "T" 1 false;
      toy_placeholder 0 "p" false ].

(** [M] has the constant [c] (binding 0) with value 1, and the constant
    [t] (binding 1) declared of type [Int] and not yet assigned. *)
Definition with_constants : jl_state :=
  toy_state
    [ toy_module "M" [("c", 0); ("t", 1)] [] ]
    [ mk_binding (Some (VInt 1)) (0, "c") (Some 0) (Some (VType TAny)) true false false 0%Z;
      mk_binding None (0, "t") (Some 1) (Some (VType TInt)) true false false 0%Z ].

(** An empty module [M]. *)
Definition empty_module : jl_state := toy_state [ toy_module "M" [] [] ] [].

(** [A] is using [B], [B] is using [A], and both export a [v] that neither
    defines. *)
Definition mutual_using : jl_state :=
  toy_state
    [ toy_module "A" [("v", 0)] [1];
      toy_module "B" [("v", 1)] [0] ]
    [ toy_placeholder 0 "v" true; toy_placeholder 1 "v" true ].

(** ** More scenarios *)

(** The value of a run ([d] when there is none). *)
Definition value_after {A} (d : A) (r : outcome A) : A :=
  match r with
  | Ok a _ => a
  | _ => d
  end.

Definition toy_child (nm : string) (p : nat) (t : list (string * nat)) (us : list nat)
    : jl_module_t :=
  mk_module nm (Some p) (list_to_map t) us.

(** [Root] is its own parent; [Mid] is a child of [Root], and [Leaf] a
    child of [Mid]. *)
Definition family : jl_state :=
  toy_state
    [ toy_child "Root" 0 [] []; toy_child "Mid" 0 [] []; toy_child "Leaf" 1 [] [] ]
    [].

(** Their options: only [Root] has an optimization level. *)
Definition family_opts : jl_options_state :=
  mk_options_state [ set_optlevel 2 new_module_opts; new_module_opts; new_module_opts ] None.

(** [U], and [F], which owns and exports [x]; [U] is not using [F]. *)
Definition before_using : jl_state :=
  toy_state
    [ toy_module "U" [] [];
      toy_module "F" [("x", 0)] [] ]
    [ toy_own 1 "x" 0 (Some (VInt 1)) false true ].

(** [M] owns the variable [v], which is 1. *)
Definition with_variable : jl_state :=
  toy_state
    [ toy_module "M" [("v", 0)] [] ]
    [ toy_own 0 "v" 0 (Some (VInt 1)) false false ].


(** [U] owns [x], which is 3 (binding 1); [F] owns and exports another
    [x], which is 1 (binding 0). *)
Definition conflicting : jl_state :=
  toy_state
    [ toy_module "U" [("x", 1)] [];
      toy_module "F" [("x", 0)] [] ]
    [ toy_own 1 "x" 0 (Some (VInt 1)) false true;
      toy_own 0 "x" 1 (Some (VInt 3)) false false ].

(** The core module alone, known as such. *)
Definition with_core : jl_state :=
  mk_state [ toy_module "Core" [] [] ] [] [] None None (Some 0) JL_OPTIONS_DEPWARN_ON 0%Z.

(** The process before anything is made. *)
Definition at_start : jl_state :=
  mk_state [] [] [] None None None JL_OPTIONS_DEPWARN_ON 0%Z.
(** * Definitions used in the statements *)

Section Statements.
Context {V : JlValues}.

(** The state after [new_binding] and [b->owner = b] for the fresh cell *)
Definition fresh_cell (m : mptr) (var : jl_sym_t) (b : bptr) : jl_binding_t :=
  mk_binding None (m, var) (Some b) None false false false 0%Z.

Definition with_new_cell (m : mptr) (mo : jl_module_t) (var : jl_sym_t) (s : jl_state)
    : jl_state :=
  let b := length (heap s) in
  mk_state (<[m := set_bindings (<[var := b]> (bindings mo)) mo]> (modules s))
           (heap s ++ [fresh_cell m var b]) (stderr s)
           (jl_main_module s) (jl_base_module s) (jl_core_module s)
           (depwarn s) (jl_lineno s).

(** [b->field = x] as a change of the state *)
Definition put (b : bptr) (c : jl_binding_t) (s : jl_state) : jl_state :=
  set_heap (<[b := c]> (heap s)) s.

Definition print (ev : event) (s : jl_state) : jl_state :=
  set_stderr (stderr s ++ [ev]) s.

(** The first step of [jl_checked_assignment]: an unset declared type
    becomes [jl_any_type]. *)
Definition promoted (c : jl_binding_t) : jl_binding_t :=
  match ty c with
  | None => set_ty (Some jl_any_type) c
  | Some _ => c
  end.

(** The test that follows it: the declared type is unset,
    [jl_any_type], the type of [rhs], or [rhs] is an instance of it. *)
Definition declared_type_admits (c : jl_binding_t) (rhs : jl_value_t) : bool :=
  match ty c with
  | None => true
  | Some old_ty =>
      negb (bool_decide (old_ty <> jl_any_type) && bool_decide (jl_typeof rhs <> old_ty))
      || jl_isa rhs old_ty
  end.

(** The constant that [jl_set_const] makes of a fresh cell *)
Definition const_cell (m : mptr) (var : jl_sym_t) (b : bptr) (x : jl_value_t) : jl_binding_t :=
  mk_binding (Some x) (m, var) (Some b) (Some jl_any_type) true false false 0%Z.

(** ** Well-formed states *)

(** Every slot of every table holds an allocated binding. *)
Definition valid_tables (s : jl_state) : Prop :=
  Forall (fun mo => map_Forall (fun _ b => is_Some (heap s !! b)) (bindings mo))
         (modules s).

(** Every owner is an allocated binding. *)
Definition valid_owners (s : jl_state) : Prop :=
  Forall (fun c => match owner c with
                   | Some o => is_Some (heap s !! o)
                   | None => True
                   end) (heap s).

(** [b] owns itself: [b->owner == b]. *)
Definition canonical (s : jl_state) (b : bptr) : Prop :=
  match heap s !! b with
  | Some c => owner c = Some b
  | None => False
  end.

(** Owner chains are one hop: the owner of a binding owns itself. *)
Definition owners_canonical (s : jl_state) : Prop :=
  Forall (fun c => match owner c with
                   | Some o => canonical s o
                   | None => True
                   end) (heap s).

Global Instance valid_tables_dec s : Decision (valid_tables s).
Proof. unfold valid_tables. apply _. Defined.
Global Instance valid_owners_dec s : Decision (valid_owners s).
Proof.
  unfold valid_owners. apply Forall_dec. intros c. destruct (owner c); apply _.
Defined.
Global Instance canonical_dec s b : Decision (canonical s b).
Proof. unfold canonical. destruct (heap s !! b); apply _. Defined.
Global Instance owners_canonical_dec s : Decision (owners_canonical s).
Proof.
  unfold owners_canonical. apply Forall_dec. intros c. destruct (owner c); apply _.
Defined.

(** The name has no definition in the module: no cell, or a cell whose
    owner is not set (it was exported or reserved only). *)
Definition unresolved (s : jl_state) (mo : jl_module_t) (var : jl_sym_t) : Prop :=
  match bindings mo !! var with
  | None => True
  | Some b => match heap s !! b with
              | Some c => owner c = None
              | None => False
              end
  end.

Global Instance unresolved_dec s mo var : Decision (unresolved s mo var).
Proof.
  unfold unresolved. destruct (bindings mo !! var) as [b|]; [|apply _].
  destruct (heap s !! b); apply _.
Defined.

(** What the resolver leaves alone while it looks [var0] up in [m0]: the
    modules stay where they are, with their names and [usings] lists, and
    the slot for [var0] in the table of [m0] is not written. *)
Definition frame (m0 : mptr) (var0 : jl_sym_t) (s s' : jl_state) : Prop :=
  forall m mo, modules s !! m = Some mo ->
    exists mo', modules s' !! m = Some mo' /\ name mo' = name mo /\
                usings mo' = usings mo /\
                (m = m0 -> bindings mo' !! var0 = bindings mo !! var0).

(** The calls of the resolver that may be made while [(m0, var0)] is being
    looked up: for the same name with that frame on the stack, or for a
    longer name (a [_dep_message_] name). *)
Definition nested (m0 : mptr) (var0 : jl_sym_t) (var : jl_sym_t) (st : modstack_t) : Prop :=
  (String.length var0 < String.length var) \/ (var = var0 /\ on_stack m0 var0 st = true).

(** The search through the [usings] of [m], run for [jl_get_binding] with
    the given fuel from the state [s], finds two candidates: it comes to
    some index [i] holding the candidate [b], the module [imp] at that
    index has an exported cell for [var] whose owner resolves to [tempb] (in
    the state [s2]), neither of the two is deprecated, and [eq_bindings]
    says they differ. *)
Definition finds_two_candidates (fuel : nat) (m : mptr) (var : jl_sym_t) (s : jl_state)
    (b : bptr) (imp : mptr) (tempb : bptr) (s2 : jl_state) : Prop :=
  exists mo pre i post owner_m s1 mi tb ctb ct cb,
    modules s !! m = Some mo /\
    downto (length (usings mo)) = pre ++ i :: post /\
    using_loop (jl_resolve_owner fuel None) m var [(m, var)] true pre None None s
      = Ok (Continue (Some b) owner_m) s1 /\
    usings mo !! i = Some imp /\
    modules s1 !! imp = Some mi /\ bindings mi !! var = Some tb /\
    heap s1 !! tb = Some ctb /\ exportp ctb = true /\
    jl_resolve_owner fuel None imp var [(m, var)] s1 = Ok (Some tempb) s2 /\
    heap s2 !! tempb = Some ct /\ deprecated ct = 0%Z /\
    heap s2 !! b = Some cb /\ deprecated cb = 0%Z /\
    eq_bindings tempb b s2 = Ok false s2.

(** The candidate held by the loop comes with the module it was found in. *)
Definition held (s : jl_state) (ob : option nat) (owner_m : option nat) : Prop :=
  match ob with
  | None => True
  | Some _ => exists om, owner_m = Some om /\ is_Some (modules s !! om)
  end.

(** From [s] to [s']: a binding that owns itself still does, and if the
    owner chains of [s] are one hop, so are those of [s']. *)
Definition extends (s s' : jl_state) : Prop :=
  forall p, canonical s p -> canonical s' p.

Definition grows (s s' : jl_state) : Prop :=
  owners_canonical s -> owners_canonical s' /\ extends s s'.

(** [s], reached from [s0], has one-hop owner chains and the bindings that
    owned themselves in [s0] still do. *)
Definition inv (s0 s : jl_state) : Prop :=
  owners_canonical s /\ extends s0 s.

(** The binding held in an optional pointer owns itself. *)
Definition canonical_opt (s : jl_state) (ob : option nat) : Prop :=
  match ob with
  | Some p => canonical s p
  | None => True
  end.

(** What [eq_bindings] computes from the two records *)
Definition eqb_cells (a b : bptr) (ca cb : jl_binding_t) : bool :=
  bool_decide (a = b) || bool_decide (owner ca = owner cb)
  || (constp ca && constp cb && bool_decide (value ca <> None)
      && bool_decide (value cb = value ca)).

(** The candidate that the module at index [i] of [usings] has for [var]
    when its cell is exported and already resolved: the module and the
    owner of the cell. *)
Definition candidate_at (s : jl_state) (mo : jl_module_t) (var : jl_sym_t) (i : nat)
    : option (mptr * bptr) :=
  match usings mo !! i with
  | None => None
  | Some imp =>
      match modules s !! imp with
      | None => None
      | Some mi =>
          match bindings mi !! var with
          | None => None
          | Some tb =>
              match heap s !! tb with
              | None => None
              | Some ctb =>
                  if exportp ctb then
                    match owner ctb with
                    | Some o => Some (imp, o)
                    | None => None
                    end
                  else None
              end
          end
      end
  end.

(** Nothing is left to resolve behind the [usings] of a module: they are
    allocated modules, and the cells they export for [var] have an owner,
    which owns itself. *)
Definition resolved_exports (s : jl_state) (mo : jl_module_t) (var : jl_sym_t) : Prop :=
  forall i imp, usings mo !! i = Some imp ->
    exists mi, modules s !! imp = Some mi /\
      forall tb, bindings mi !! var = Some tb ->
        exists ctb, heap s !! tb = Some ctb /\
          (exportp ctb = true -> exists o, owner ctb = Some o /\ canonical s o).

(** A binding that owns itself and is not deprecated *)
Definition live (s : jl_state) (b : bptr) : Prop :=
  exists c, heap s !! b = Some c /\ owner c = Some b /\ deprecated c = 0%Z.

(** [eq_bindings] holds of the two bindings *)
Definition same (s : jl_state) (a b : bptr) : Prop :=
  exists ca cb, heap s !! a = Some ca /\ heap s !! b = Some cb /\
                eqb_cells a b ca cb = true.

(** What a scan of the indices [idx] of [usings], started with [ob] held,
    can come to.  Either it meets, after the indices [pre], a candidate
    that [eq_bindings] tells apart from the one held, both owning
    themselves and neither deprecated... *)
Definition scan_conflict (fuel : nat) (s : jl_state) (m : mptr) (mo : jl_module_t)
    (var : jl_sym_t) (idx : list nat) (ob owner_m : option bptr) : Prop :=
  exists pre i post b om imp tempb,
    idx = pre ++ i :: post /\
    using_loop (jl_resolve_owner (S fuel) None) m var [(m, var)] true pre ob owner_m s
      = Ok (Continue (Some b) om) s /\
    candidate_at s mo var i = Some (imp, tempb) /\
    live s tempb /\ live s b /\ eq_bindings tempb b s = Ok false s.

(** ... or all the candidates of [idx] that are not deprecated are the
    same binding, and the same as the one held if that is not deprecated. *)
Definition scan_agree (s : jl_state) (mo : jl_module_t) (var : jl_sym_t)
    (idx : list nat) (ob : option bptr) : Prop :=
  (forall k imp t b0, k ∈ idx -> candidate_at s mo var k = Some (imp, t) -> live s t ->
                      ob = Some b0 -> live s b0 -> same s t b0) /\
  (forall k k' imp imp' t t', k ∈ idx -> k' ∈ idx ->
     candidate_at s mo var k = Some (imp, t) ->
     candidate_at s mo var k' = Some (imp', t') ->
     live s t -> live s t' -> same s t t').

(** The two variables of the scan: a binding is held together with the
    module it came from, and it owns itself. *)
Definition scan_holds (s : jl_state) (ob : option bptr) (owner_m : option mptr) : Prop :=
  match ob with
  | None => owner_m = None
  | Some b0 => owner_m <> None /\ canonical s b0
  end.

(** The run ends in the state [s'], by returning or by raising. *)
Definition ends {A} (r : outcome A) (s' : jl_state) : Prop :=
  match r with
  | Ok _ s1 => s1 = s'
  | Raise _ s1 => s1 = s'
  | Stuck => False
  | OutOfFuel => False
  end.

(** The states of the process: no module and no binding to begin with,
    whatever the options; then the entry points of this file, called with
    whatever arguments and fuel, and the start-up code setting the
    process-wide handles. *)
Inductive reachable : jl_state -> Prop :=
| reachable_init dw ln :
    reachable (mk_state [] [] [] None None None dw ln)
| reachable_call s fuel c s' :
    reachable s -> ends (run_api fuel c s) s' -> reachable s'
| reachable_handles s main base core :
    reachable s ->
    reachable (mk_state (modules s) (heap s) (stderr s) main base core
                        (depwarn s) (jl_lineno s)).

(** [s'] is [s] with more text on [JL_STDERR]. *)
Definition printed (evs : list event) (s : jl_state) : jl_state :=
  set_stderr (stderr s ++ evs) s.

(** ** Settings inherited along the parents *)

(** [m] has no setting of its own for [field] and the getter goes on to
    its parent [p]: the setting is -1, [p] is not [m] itself, and [m] is
    not the base module. *)
Definition unset_link (field : jl_module_opts -> Z) (os : jl_options_state)
    (s : jl_state) (m p : mptr) : Prop :=
  exists mo o, modules s !! m = Some mo /\ module_opts os !! m = Some o /\
               field o = (-1)%Z /\ parent mo = Some p /\ p <> m /\
               Some m <> jl_base_module s.

(** The modules [path] lead from [m] to [last], each one the parent of
    the one before, all of them but [last] without a setting. *)
Fixpoint unset_chain (field : jl_module_opts -> Z) (os : jl_options_state)
    (s : jl_state) (m : mptr) (path : list mptr) (last : mptr) : Prop :=
  match path with
  | [] => m = last
  | p :: path' => unset_link field os s m p /\ unset_chain field os s p path' last
  end.

(** The getter stops at [m] with the value [v]: [v] is the setting of
    [m], and it is not -1, or [m] is its own parent, or [m] is the base
    module. *)
Definition setting_stops (field : jl_module_opts -> Z) (os : jl_options_state)
    (s : jl_state) (m : mptr) (v : Z) : Prop :=
  exists o, module_opts os !! m = Some o /\ field o = v /\
            (v <> (-1)%Z \/
             exists mo, modules s !! m = Some mo /\
                        (parent mo = Some m \/ Some m = jl_base_module s)).

(** ** Listings *)

(** The test of [jl_module_names] on the cell [c] at [b], under the name
    [asname] in the table of [m] *)
Definition listed (s : jl_state) (m : mptr) (all imported_p : bool)
    (asname : jl_sym_t) (b : bptr) (c : jl_binding_t) : bool :=
  (exportp c
   || (imported_p && imported c)
   || (bool_decide (owner c = Some b) && negb (imported c)
       && (all || bool_decide (Some m = jl_main_module s))))
  && (all || (negb (nonzero (deprecated c)) && negb (hidden_name asname))).

(** The same test on a slot of the table, false where the slot holds no
    allocated binding *)
Definition slot_listed (s : jl_state) (m : mptr) (all imported_p : bool)
    (slot : jl_sym_t * bptr) : bool :=
  match heap s !! slot.2 with
  | Some c => listed s m all imported_p slot.1 slot.2 c
  | None => false
  end.

(** ** Export *)

(** The cell that [jl_module_export] makes for a name that has none: no
    owner yet, exported *)
Definition exported_placeholder (m : mptr) (nm : jl_sym_t) : jl_binding_t :=
  mk_binding None (m, nm) None None false true false 0%Z.

Definition with_placeholder (m : mptr) (mo : jl_module_t) (nm : jl_sym_t) (s : jl_state)
    : jl_state :=
  mk_state (<[m := set_bindings (<[nm := length (heap s)]> (bindings mo)) mo]> (modules s))
           (heap s ++ [exported_placeholder m nm]) (stderr s)
           (jl_main_module s) (jl_base_module s) (jl_core_module s)
           (depwarn s) (jl_lineno s).

(** ** Import *)

(** The cell that [module_import_] makes in [to] for a name that [to]
    has no cell for: an alias of [b], flagged as the import says, with the
    deprecation flag of [b] *)
Definition alias_cell (to : mptr) (asname : jl_sym_t) (b : bptr) (explici : bool)
    (d : Z) : jl_binding_t :=
  mk_binding None (to, asname) (Some b) None false false explici d.

Definition with_alias (to : mptr) (mto : jl_module_t) (asname : jl_sym_t) (b : bptr)
    (explici : bool) (d : Z) (s : jl_state) : jl_state :=
  mk_state (<[to := set_bindings (<[asname := length (heap s)]> (bindings mto)) mto]>
              (modules s))
           (heap s ++ [alias_cell to asname b explici d]) (stderr s)
           (jl_main_module s) (jl_base_module s) (jl_core_module s)
           (depwarn s) (jl_lineno s).

(** ** Deprecation warnings *)



(** ** New modules *)

(** The binding of the name of a new module: a constant, exported, whose
    value is the module *)
Definition module_name_cell (m : mptr) (nm : jl_sym_t) (b : bptr) : jl_binding_t :=
  mk_binding (Some (jl_module_value m)) (m, nm) (Some b) (Some jl_any_type)
             true true false 0%Z.

(** ** What stays *)

(** From the cell [c] to the cell [c'] of the same binding later on: the
    global reference is the same; a binding that is exported, or constant,
    or has a value, still is and has; a declared type that is set is the
    same. *)
Definition cell_le (c c' : jl_binding_t) : Prop :=
  globalref c' = globalref c /\
  (exportp c = true -> exportp c' = true) /\
  (constp c = true -> constp c' = true) /\
  (is_Some (value c) -> is_Some (value c')) /\
  (is_Some (ty c) -> ty c' = ty c).

(** The same for a module: the name and the parent are the same, and the
    modules it is using are still used, in the same places. *)
Definition module_le (mo mo' : jl_module_t) : Prop :=
  name mo' = name mo /\ parent mo' = parent mo /\ usings mo `prefix_of` usings mo'.

(** From the state [s] to the state [s'] later on: every binding and
    every module is still there, at the same address; what was printed is
    still the beginning of what is printed; the handles and the options are
    the same. *)
Definition preserved (s s' : jl_state) : Prop :=
  (forall b c, heap s !! b = Some c -> exists c', heap s' !! b = Some c' /\ cell_le c c') /\
  (forall m mo, modules s !! m = Some mo ->
                exists mo', modules s' !! m = Some mo' /\ module_le mo mo') /\
  stderr s `prefix_of` stderr s' /\
  jl_main_module s' = jl_main_module s /\ jl_base_module s' = jl_base_module s /\
  jl_core_module s' = jl_core_module s /\
  depwarn s' = depwarn s /\ jl_lineno s' = jl_lineno s.

(** The computation [c] goes, however it ends, from a state to a state
    later on. *)
Definition keeps {A} (c : Jl A) : Prop :=
  forall s, match c s with
            | Ok _ s' => preserved s s'
            | Raise _ s' => preserved s s'
            | Stuck => True
            | OutOfFuel => True
            end.

(** ** Pointers *)

(** Every module that a module is using is a module. *)
Definition valid_usings (s : jl_state) : Prop :=
  Forall (fun mo => Forall (fun imp => is_Some (modules s !! imp)) (usings mo))
         (modules s).

(** The global reference of every binding names a module: [b->globalref->mod]. *)
Definition valid_globalrefs (s : jl_state) : Prop :=
  Forall (fun c => is_Some (modules s !! (globalref c).1)) (heap s).

(** No table, list of used modules or global reference of [s] holds a
    pointer to something that is not allocated; nor do the lists [L] of
    bindings and [M] of modules, the pointers that the code at hand has
    read through or made. *)
Definition known (L : list bptr) (M : list mptr) (s : jl_state) : Prop :=
  valid_tables s /\ valid_usings s /\ valid_globalrefs s /\
  Forall (fun b => is_Some (heap s !! b)) L /\
  Forall (fun m => is_Some (modules s !! m)) M.

(** The computation [c] goes, however it ends, from such a state to such
    a state. *)
Definition sound {A} (L : list bptr) (M : list mptr) (c : Jl A) : Prop :=
  forall s, known L M s ->
            match c s with
            | Ok _ s' => known L M s'
            | Raise _ s' => known L M s'
            | Stuck => True
            | OutOfFuel => True
            end.

End Statements.
(** * Properties *)

Section Properties.
Context {V : JlValues}.

Implicit Types (s : jl_state) (m : mptr) (var : jl_sym_t) (b : bptr)
  (c : jl_binding_t) (mo : jl_module_t).

(** ** Running the primitives *)

Lemma bind_Ok {A B} (c : Jl A) (k : A -> Jl B) s a s1 :
  c s = Ok a s1 -> bind c k s = k a s1.
Proof. unfold bind. by intros ->. Qed.

Lemma bind_Ok_inv {A B} (c : Jl A) (k : A -> Jl B) s r s' :
  bind c k s = Ok r s' -> exists a s1, c s = Ok a s1 /\ k a s1 = Ok r s'.
Proof. unfold bind. destruct (c s) as [a s1| | |]; try done. eauto. Qed.

Lemma deref_module_Ok s m mo : modules s !! m = Some mo -> deref_module m s = Ok mo s.
Proof. unfold deref_module. by intros ->. Qed.

Lemma deref_Ok s b c : heap s !! b = Some c -> deref b s = Ok c s.
Proof. unfold deref. by intros ->. Qed.

Lemma assign_Ok s b c f :
  heap s !! b = Some c -> assign b f s = Ok tt (set_heap (<[b := f c]> (heap s)) s).
Proof. unfold assign. by intros ->. Qed.

Lemma assign_module_Ok s m mo f :
  modules s !! m = Some mo ->
  assign_module m f s = Ok tt (set_modules (<[m := f mo]> (modules s)) s).
Proof. unfold assign_module. by intros ->. Qed.

Lemma jl_get_binding_wr_absent s m mo var alloc :
  modules s !! m = Some mo -> bindings mo !! var = None ->
  jl_get_binding_wr m var alloc s =
    if alloc then Ok (Some (length (heap s))) (with_new_cell m mo var s) else Ok None s.
Proof.
  intros Hm Hv. unfold jl_get_binding_wr.
  rewrite (bind_Ok _ _ _ _ _ (deref_module_Ok _ _ _ Hm)), Hv.
  destruct alloc; [|done].
  unfold bind, new_binding, assign, assign_module, ret; simpl.
  rewrite lookup_app_r, Nat.sub_diag by lia. simpl.
  rewrite Hm. unfold with_new_cell, set_modules, set_heap; simpl.
  do 2 f_equal.
  rewrite insert_app_r_alt, Nat.sub_diag by lia. done.
Qed.

Lemma jl_get_binding_wr_present s m mo var alloc b c :
  modules s !! m = Some mo -> bindings mo !! var = Some b -> heap s !! b = Some c ->
  jl_get_binding_wr m var alloc s =
    match owner c with
    | None => Ok (Some b) (set_heap (<[b := set_owner (Some b) c]> (heap s)) s)
    | Some o =>
        if decide (o = b) then Ok (Some b) s
        else if alloc then Raise (CannotAssignImported (name mo) var) s
             else Ok (Some b) s
    end.
Proof.
  intros Hm Hv Hb. unfold jl_get_binding_wr.
  rewrite (bind_Ok _ _ _ _ _ (deref_module_Ok _ _ _ Hm)), Hv.
  rewrite (bind_Ok _ _ _ _ _ (deref_Ok _ _ _ Hb)).
  destruct (owner c) as [o|] eqn:Ho.
  - destruct (decide (Some o = Some b)) as [[= ->]|Hne].
    + by rewrite decide_True.
    + rewrite decide_False by congruence. by destruct alloc.
  - rewrite decide_False by done.
    unfold bind. by rewrite (assign_Ok _ _ _ _ Hb).
Qed.

(** C3. [jl_get_binding_wr(m, var, 1)] in a module [m]: it raises, with
    CannotAssignImported and without changing anything, exactly when the
    local cell for [var] exists and its owner is another binding; a cell
    whose owner is unset gets [owner = self] and is returned; when there is
    no cell, a new cell that owns itself is allocated, entered into the
    table of [m] and returned. *)
Theorem jl_get_binding_wr_alloc s m mo var :
  modules s !! m = Some mo ->
  (forall e s',
     jl_get_binding_wr m var true s = Raise e s' <->
     e = CannotAssignImported (name mo) var /\ s' = s /\
     exists b c o, bindings mo !! var = Some b /\ heap s !! b = Some c /\
                   owner c = Some o /\ o <> b) /\
  (forall b c,
     bindings mo !! var = Some b -> heap s !! b = Some c -> owner c = None ->
     jl_get_binding_wr m var true s =
       Ok (Some b) (set_heap (<[b := set_owner (Some b) c]> (heap s)) s)) /\
  (bindings mo !! var = None ->
   let b := length (heap s) in
   heap s !! b = None /\
   jl_get_binding_wr m var true s = Ok (Some b) (with_new_cell m mo var s) /\
   heap (with_new_cell m mo var s) !! b = Some (fresh_cell m var b) /\
   owner (fresh_cell m var b) = Some b /\
   (exists mo', modules (with_new_cell m mo var s) !! m = Some mo' /\
                bindings mo' !! var = Some b)).
Proof.
  intros Hm. split; [|split].
  - intros e s'. destruct (bindings mo !! var) as [b|] eqn:Hv.
    + destruct (heap s !! b) as [c|] eqn:Hb.
      * rewrite (jl_get_binding_wr_present _ _ _ _ _ _ _ Hm Hv Hb).
        destruct (owner c) as [o|] eqn:Ho.
        -- destruct (decide (o = b)) as [->|Hne].
           ++ split; [done|]. intros (_ & _ & b' & c' & o' & ? & ? & ? & ?).
              simplify_eq.
           ++ split.
              ** intros [= <- <-]. repeat split. exists b, c, o. done.
              ** intros (-> & -> & _). done.
        -- split; [done|]. intros (_ & _ & b' & c' & o' & ? & ? & ? & ?).
           simplify_eq.
      * split.
        -- unfold jl_get_binding_wr.
           rewrite (bind_Ok _ _ _ _ _ (deref_module_Ok _ _ _ Hm)), Hv.
           unfold bind, deref. by rewrite Hb.
        -- intros (_ & _ & b' & c' & o' & ? & ? & ? & ?). simplify_eq.
    + rewrite (jl_get_binding_wr_absent _ _ _ _ _ Hm Hv).
      split; [done|]. intros (_ & _ & b' & c' & o' & ? & ? & ? & ?). simplify_eq.
  - intros b c Hv Hb Ho.
    rewrite (jl_get_binding_wr_present _ _ _ _ _ _ _ Hm Hv Hb). by rewrite Ho.
  - intros Hv b. repeat split.
    + apply lookup_ge_None_2. lia.
    + by rewrite (jl_get_binding_wr_absent _ _ _ _ _ Hm Hv).
    + unfold with_new_cell; simpl. rewrite lookup_app_r by lia.
      by rewrite Nat.sub_diag.
    + unfold with_new_cell; simpl. eexists. split.
      * apply list_lookup_insert_eq. by eapply lookup_lt_Some.
      * simpl. apply lookup_insert_eq.
Qed.


Lemma bind_assoc {A B C} (c0 : Jl A) (k1 : A -> Jl B) (k2 : B -> Jl C) s :
  bind (bind c0 k1) k2 s = bind c0 (fun a => bind (k1 a) k2) s.
Proof. unfold bind. by destruct (c0 s). Qed.

Lemma bind_ret {A B} (a : A) (k : A -> Jl B) s : bind (ret a) k s = k a s.
Proof. done. Qed.

Lemma heap_put s b c : heap (put b c s) = <[b := c]> (heap s).
Proof. done. Qed.
Lemma modules_put s b c : modules (put b c s) = modules s.
Proof. done. Qed.
Lemma stderr_put s b c : stderr (put b c s) = stderr s.
Proof. done. Qed.
Lemma heap_print s ev : heap (print ev s) = heap s.
Proof. done. Qed.
Lemma modules_print s ev : modules (print ev s) = modules s.
Proof. done. Qed.

Lemma lookup_put_eq s b c c0 : heap s !! b = Some c0 -> heap (put b c s) !! b = Some c.
Proof. intros H. simpl. apply list_lookup_insert_eq. by eapply lookup_lt_Some. Qed.

Lemma lookup_put_ne s b b' c : b <> b' -> heap (put b c s) !! b' = heap s !! b'.
Proof. intros H. simpl. by apply list_lookup_insert_ne. Qed.

Lemma put_put s b c1 c2 : put b c2 (put b c1 s) = put b c2 s.
Proof. unfold put, set_heap; simpl. by rewrite list_insert_insert_eq. Qed.

Lemma put_id s b c : heap s !! b = Some c -> put b c s = s.
Proof. intros H. unfold put, set_heap. rewrite list_insert_id by done. by destruct s. Qed.

Lemma assign_put s b c f : heap s !! b = Some c -> assign b f s = Ok tt (put b (f c) s).
Proof. apply assign_Ok. Qed.

Lemma jl_printf_print s ev : jl_printf ev s = Ok tt (print ev s).
Proof. done. Qed.

Lemma module_name_Ok s m mo : modules s !! m = Some mo -> module_name m s = Ok (name mo) s.
Proof. intros H. unfold module_name. by rewrite (bind_Ok _ _ _ _ _ (deref_module_Ok _ _ _ H)). Qed.

Lemma cmpswap_ty_run s b c :
  heap s !! b = Some c -> cmpswap_ty b s = Ok (ty c) (put b (promoted c) s).
Proof.
  intros Hb. unfold cmpswap_ty, promoted.
  rewrite (bind_Ok _ _ _ _ _ (deref_Ok _ _ _ Hb)).
  destruct (ty c) eqn:Ht.
  - unfold ret. by rewrite put_id.
  - by rewrite (bind_Ok _ _ _ _ _ (assign_put _ _ _ _ Hb)).
Qed.

Lemma cmpswap_value_run s b c val :
  heap s !! b = Some c ->
  cmpswap_value b val s =
    Ok (value c) (match value c with None => put b (set_value (Some val) c) s | Some _ => s end).
Proof.
  intros Hb. unfold cmpswap_value.
  rewrite (bind_Ok _ _ _ _ _ (deref_Ok _ _ _ Hb)).
  destruct (value c) eqn:Ht; [done|].
  by rewrite (bind_Ok _ _ _ _ _ (assign_put _ _ _ _ Hb)).
Qed.

(** C4, as amended.  For a constant binding [b] and a value [rhs] that the
    declared type of [b] admits (it is unset, [jl_any_type], the type of
    [rhs], or [rhs] is an instance of it), [jl_checked_assignment] stores
    [rhs] when [b] has no value; leaves the value alone and prints nothing
    when [rhs] is [jl_egal] to it; raises ConstantRedefinition when the
    types of the two differ or [rhs] is a type or a module; and otherwise
    prints the redefinition warning and stores [rhs].  When the declared
    type does not admit [rhs] the call raises TypeMismatch before the
    constant is looked at. *)
Theorem jl_checked_assignment_constant s b c md mdo var rhs :
  heap s !! b = Some c -> constp c = true -> modules s !! md = Some mdo ->
  jl_checked_assignment b md var rhs s =
    if declared_type_admits c rhs then
      match value c with
      | None => Ok tt (put b (set_value (Some rhs) (promoted c)) s)
      | Some old =>
          if jl_egal rhs old then Ok tt (put b (promoted c) s)
          else if bool_decide (jl_typeof rhs <> jl_typeof old)
                  || jl_is_type rhs || jl_is_module rhs
               then Raise (ConstantRedefinition (Some (name mdo)) var) (put b (promoted c) s)
               else Ok tt (put b (set_value (Some rhs) (promoted c))
                             (print (WARNING_redefinition_of_constant (name mdo) var) s))
      end
    else Raise (TypeMismatch (name mdo) var) s.
Proof.
  intros Hb Hc Hm.
  assert (Hid : declared_type_admits c rhs = false -> put b (promoted c) s = s).
  { unfold declared_type_admits, promoted. destruct (ty c); [|done].
    intros _. by apply put_id. }
  unfold jl_checked_assignment.
  rewrite (bind_Ok _ _ _ _ _ (cmpswap_ty_run _ _ _ Hb)).
  assert (Hb1 : heap (put b (promoted c) s) !! b = Some (promoted c))
    by by eapply lookup_put_eq.
  assert (Hm1 : modules (put b (promoted c) s) !! md = Some mdo) by done.
  assert (Hc1 : constp (promoted c) = true).
  { unfold promoted. by destruct (ty c). }
  assert (Hv1 : value (promoted c) = value c).
  { unfold promoted. by destruct (ty c). }
  set (s1 := put b (promoted c) s) in *.
  assert (Hgate : forall k : unit -> Jl unit,
    bind (match ty c with
          | None => ret tt
          | Some old_ty =>
              if bool_decide (old_ty <> jl_any_type) && bool_decide (jl_typeof rhs <> old_ty)
              then if jl_isa rhs old_ty then ret tt
                   else bind (module_name md) (fun mn => jl_errorf (TypeMismatch mn var))
              else ret tt
          end) k s1 =
    if declared_type_admits c rhs then k tt s1 else Raise (TypeMismatch (name mdo) var) s1).
  { intros k. unfold declared_type_admits. destruct (ty c) as [t|]; [|done].
    destruct (bool_decide (t <> jl_any_type) && bool_decide (jl_typeof rhs <> t)); simpl; [|done].
    destruct (jl_isa rhs t); [done|].
    unfold bind at 1. unfold bind. by rewrite (module_name_Ok _ _ _ Hm1). }
  rewrite Hgate. destruct (declared_type_admits c rhs); [|by rewrite Hid].
  clear Hid.
  rewrite (bind_Ok _ _ _ _ _ (deref_Ok _ _ _ Hb1)), Hc1.
  rewrite bind_assoc, (bind_Ok _ _ _ _ _ (cmpswap_value_run _ _ _ rhs Hb1)).
  rewrite Hv1. destruct (value c) as [old|] eqn:Hval.
  - destruct (jl_egal rhs old); [done|].
    destruct (bool_decide (jl_typeof rhs <> jl_typeof old) || jl_is_type rhs || jl_is_module rhs).
    + rewrite !bind_assoc, (bind_Ok _ _ _ _ _ (module_name_Ok _ _ _ Hm1)). done.
    + rewrite !bind_assoc, bind_ret, !bind_assoc, (bind_Ok _ _ _ _ _ (module_name_Ok _ _ _ Hm1)).
      rewrite !bind_assoc, (bind_Ok _ _ _ _ _ (jl_printf_print _ _)), !bind_ret.
      rewrite (assign_put _ _ (promoted c)) by done.
      unfold s1, put, print, set_heap, set_stderr; simpl.
      by rewrite list_insert_insert_eq.
  - rewrite bind_ret. unfold ret, s1. by rewrite put_put.
Qed.

Lemma jl_get_module_binding_Ok s m mo var :
  modules s !! m = Some mo -> jl_get_module_binding m var s = Ok (bindings mo !! var) s.
Proof.
  intros Hm. unfold jl_get_module_binding.
  by rewrite (bind_Ok _ _ _ _ _ (deref_module_Ok _ _ _ Hm)).
Qed.

(** A cell whose owner is set resolves to that owner at once. *)
Lemma jl_resolve_owner_resolved fuel s m mo var st b c o :
  modules s !! m = Some mo -> bindings mo !! var = Some b ->
  heap s !! b = Some c -> owner c = Some o ->
  jl_resolve_owner (S fuel) None m var st s = Ok (Some o) s.
Proof.
  intros Hm Hv Hb Ho. simpl.
  rewrite ?bind_assoc, (bind_Ok _ _ _ _ _ (jl_get_module_binding_Ok _ _ _ var Hm)), Hv.
  rewrite ?bind_assoc, (bind_Ok _ _ _ _ _ (deref_Ok _ _ _ Hb)), bind_ret, Ho.
  done.
Qed.

Lemma with_new_cell_module s m mo var :
  modules s !! m = Some mo ->
  modules (with_new_cell m mo var s) !! m =
    Some (set_bindings (<[var := length (heap s)]> (bindings mo)) mo).
Proof. intros Hm. simpl. apply list_lookup_insert_eq. by eapply lookup_lt_Some. Qed.

Lemma with_new_cell_heap s m mo var :
  heap (with_new_cell m mo var s) !! length (heap s) =
    Some (fresh_cell m var (length (heap s))).
Proof. simpl. rewrite lookup_app_r by lia. by rewrite Nat.sub_diag. Qed.

(** C5, as amended.  In a module with no cell for [var],
    [jl_set_const(m, var, x)] allocates the cell, makes it a constant with
    value [x] and prints nothing; [jl_get_global] then returns [x]; and any
    further [jl_set_const] of that name, whatever the value (the same one
    again, another value, a type), raises the redefinition error and leaves
    the state as it is. *)
Theorem jl_set_const_then_again s m mo var x :
  modules s !! m = Some mo -> bindings mo !! var = None ->
  let b := length (heap s) in
  let s1 := put b (const_cell m var b x) (with_new_cell m mo var s) in
  jl_set_const m var x s = Ok tt s1 /\
  stderr s1 = stderr s /\
  (forall fuel, jl_get_global (S fuel) m var s1 = Ok (Some x) s1) /\
  (forall x', jl_set_const m var x' s1 = Raise (ConstantRedefinition None var) s1).
Proof.
  intros Hm Hv b s1.
  pose proof (with_new_cell_module s m mo var Hm) as Hm0.
  pose proof (with_new_cell_heap s m mo var) as Hb0.
  set (s0 := with_new_cell m mo var s) in *. fold b in Hb0, Hm0.
  assert (Hm1 : modules s1 !! m = Some (set_bindings (<[var := b]> (bindings mo)) mo)) by done.
  assert (Hb1 : heap s1 !! b = Some (const_cell m var b x)) by by eapply lookup_put_eq.
  assert (Hv1 : bindings (set_bindings (<[var := b]> (bindings mo)) mo) !! var = Some b)
    by apply lookup_insert_eq.
  split; [|split; [done|split]].
  - unfold jl_set_const.
    rewrite (bind_Ok _ _ _ _ _ (jl_get_binding_wr_absent _ _ _ _ true Hm Hv)).
    fold s0 b.
    rewrite (bind_Ok _ _ _ _ _ (deref_Ok _ _ _ Hb0)). cbn [value fresh_cell].
    rewrite ?bind_assoc, (bind_Ok _ _ _ _ _ (cmpswap_ty_run _ _ _ Hb0)).
    assert (Hb0' : heap (put b (promoted (fresh_cell m var b)) s0) !! b
                   = Some (promoted (fresh_cell m var b))) by by eapply lookup_put_eq.
    rewrite ?bind_assoc, (bind_Ok _ _ _ _ _ (deref_Ok _ _ _ Hb0')).
    rewrite ?bind_assoc, (bind_Ok _ _ _ _ _ (assign_put _ _ _ _ Hb0')).
    rewrite put_put. cbn [constp fresh_cell promoted set_ty ty].
    assert (Hb0'' : heap (put b (set_constp true (promoted (fresh_cell m var b))) s0) !! b
                   = Some (set_constp true (promoted (fresh_cell m var b)))) by by eapply lookup_put_eq.
    rewrite ?bind_assoc, (bind_Ok _ _ _ _ _ (cmpswap_value_run _ _ _ x Hb0'')).
    cbn [value set_constp set_ty promoted fresh_cell ty]. rewrite bind_ret, put_put. done.
  - intros fuel. unfold jl_get_global, jl_get_binding.
    rewrite (bind_Ok _ _ _ _ _ (jl_resolve_owner_resolved fuel _ _ _ _ [] _ _ b Hm1 Hv1 Hb1 eq_refl)).
    rewrite (bind_Ok _ _ _ _ _ (deref_Ok _ _ _ Hb1)). simpl.
    by rewrite !bind_ret, (bind_Ok _ _ _ _ _ (deref_Ok _ _ _ Hb1)).
  - intros x'. unfold jl_set_const.
    pose proof (jl_get_binding_wr_present _ _ _ _ true _ _ Hm1 Hv1 Hb1) as Hwr.
    cbn [owner const_cell] in Hwr. rewrite decide_True in Hwr by done.
    rewrite (bind_Ok _ _ _ _ _ Hwr).
    by rewrite (bind_Ok _ _ _ _ _ (deref_Ok _ _ _ Hb1)).
Qed.

Lemma deref_Ok_inv s b c s' : deref b s = Ok c s' -> s' = s /\ heap s !! b = Some c.
Proof. unfold deref. destruct (heap s !! b); [|done]. by intros [= -> ->]. Qed.

Lemma deref_module_Ok_inv s m mo s' :
  deref_module m s = Ok mo s' -> s' = s /\ modules s !! m = Some mo.
Proof. unfold deref_module. destruct (modules s !! m); [|done]. by intros [= -> ->]. Qed.

Lemma module_name_Ok_inv s m n s' :
  module_name m s = Ok n s' -> s' = s /\ exists mo, modules s !! m = Some mo /\ n = name mo.
Proof.
  unfold module_name. intros (mo & s1 & [-> Hm]%deref_module_Ok_inv & [= <- <-])%bind_Ok_inv.
  eauto.
Qed.

Lemma eq_bindings_Ok_inv s a b r s' : eq_bindings a b s = Ok r s' -> s' = s.
Proof.
  unfold eq_bindings. destruct (decide (a = b)); [by intros [= _ ->]|].
  intros (ca & s1 & [-> _]%deref_Ok_inv & (cb & s2 & [-> _]%deref_Ok_inv & H)%bind_Ok_inv)%bind_Ok_inv.
  destruct (decide _); [by injection H|].
  destruct (_ && _); by injection H.
Qed.

Lemma printed_nil s : printed [] s = s.
Proof. unfold printed, set_stderr. rewrite app_nil_r. by destruct s. Qed.

Lemma printed_app evs1 evs2 s : printed evs2 (printed evs1 s) = printed (evs1 ++ evs2) s.
Proof. unfold printed, set_stderr; simpl. by rewrite app_assoc. Qed.


Lemma jl_get_binding_resolved_inv fuel s m mo var b c a s' :
  modules s !! m = Some mo -> bindings mo !! var = Some b ->
  heap s !! b = Some c -> owner c <> None ->
  jl_get_binding fuel m var s = Ok a s' -> s' = s /\ a = owner c /\ fuel <> 0.
Proof.
  intros Hm Hv Hb Ho. destruct (owner c) as [o|] eqn:Eo; [|done].
  destruct fuel; [done|]. unfold jl_get_binding.
  rewrite (jl_resolve_owner_resolved _ _ _ _ _ _ _ _ _ Hm Hv Hb Eo).
  by intros [= <- <-].
Qed.

Lemma using_conflict_check_Ok_inv fuel to from slot s s' :
  using_conflict_check fuel to from slot s = Ok tt s' ->
  exists evs, s' = printed evs s.
Proof.
  destruct slot as [var b]. unfold using_conflict_check.
  intros (cb & s1 & [-> Hb]%deref_Ok_inv & H)%bind_Ok_inv.
  destruct (exportp cb && _); [|injection H as <-; exists []; by rewrite printed_nil].
  apply bind_Ok_inv in H as (mto & s1 & [-> Hm]%deref_module_Ok_inv & H).
  destruct (bindings mto !! var) as [tob|] eqn:Hv;
    [|injection H as <-; exists []; by rewrite printed_nil].
  apply bind_Ok_inv in H as (ctob & s1 & [-> Htob]%deref_Ok_inv & H).
  destruct (bool_decide (owner ctob <> None)) eqn:Ho; simpl in H;
    [|injection H as <-; exists []; by rewrite printed_nil].
  apply bool_decide_eq_true in Ho.
  destruct (bool_decide (var <> name mto)); simpl in H;
    [|injection H as <-; exists []; by rewrite printed_nil].
  apply bind_Ok_inv in H as (a & s1 & Hget & H).
  apply (jl_get_binding_resolved_inv _ _ _ _ _ _ _ _ _ Hm Hv Htob Ho) in Hget as (-> & -> & _).
  apply bind_Ok_inv in H as (e & s1 & He & H).
  destruct (owner ctob) as [o|]; [|done].
  apply eq_bindings_Ok_inv in He as ->.
  destruct e; [injection H as <-; exists []; by rewrite printed_nil|].
  apply bind_Ok_inv in H as (fn & s1 & [-> _]%module_name_Ok_inv & H).
  apply bind_Ok_inv in H as (tn & s1 & [-> _]%module_name_Ok_inv & H).
  injection H as <-. by eexists [_].
Qed.

Lemma for_each_printed {A} (f : A -> Jl unit) (l : list A) s s' :
  (forall x s0 s0', f x s0 = Ok tt s0' -> exists evs, s0' = printed evs s0) ->
  for_each f l s = Ok tt s' -> exists evs, s' = printed evs s.
Proof.
  intros Hf. revert s. induction l as [|x l IH]; intros s; simpl.
  - intros [= <-]. exists []. by rewrite printed_nil.
  - intros ([] & s1 & (evs1 & ->)%Hf & (evs2 & ->)%IH)%bind_Ok_inv.
    exists (evs1 ++ evs2). by rewrite printed_app.
Qed.


Lemma valid_tables_lookup s m mo var b :
  valid_tables s -> modules s !! m = Some mo -> bindings mo !! var = Some b ->
  is_Some (heap s !! b).
Proof.
  intros Hvt Hm Hv. unfold valid_tables in Hvt.
  rewrite Forall_lookup in Hvt. by eapply (Hvt _ _ Hm).
Qed.

Lemma valid_owners_lookup s b c o :
  valid_owners s -> heap s !! b = Some c -> owner c = Some o -> is_Some (heap s !! o).
Proof.
  intros Hvo Hb Ho. unfold valid_owners in Hvo.
  rewrite Forall_lookup in Hvo. specialize (Hvo _ _ Hb). by rewrite Ho in Hvo.
Qed.

Lemma eq_bindings_Ok s a b ca cb :
  heap s !! a = Some ca -> heap s !! b = Some cb -> exists r, eq_bindings a b s = Ok r s.
Proof.
  intros Ha Hb. unfold eq_bindings. destruct (decide (a = b)); [by eexists|].
  rewrite (bind_Ok _ _ _ _ _ (deref_Ok _ _ _ Ha)), (bind_Ok _ _ _ _ _ (deref_Ok _ _ _ Hb)).
  destruct (decide _); [by eexists|]. destruct (_ && _); by eexists.
Qed.

Lemma using_conflict_check_returns fuel to from mto mfrom var b s evs0 :
  valid_tables s -> valid_owners s ->
  modules s !! to = Some mto -> modules s !! from = Some mfrom ->
  is_Some (heap s !! b) ->
  exists evs, using_conflict_check (S fuel) to from (var, b) (printed evs0 s)
              = Ok tt (printed evs (printed evs0 s)).
Proof.
  intros Hvt Hvo Hto Hfrom [cb Hb].
  set (s0 := printed evs0 s).
  assert (Hh : heap s0 = heap s) by done.
  assert (Hms : modules s0 = modules s) by done.
  unfold using_conflict_check.
  rewrite (bind_Ok _ _ _ cb s0) by (apply deref_Ok; by rewrite Hh).
  destruct (exportp cb && _); [|exists []; by rewrite printed_nil].
  rewrite (bind_Ok _ _ _ mto s0) by (apply deref_module_Ok; by rewrite Hms).
  destruct (bindings mto !! var) as [tob|] eqn:Hv; [|exists []; by rewrite printed_nil].
  destruct (valid_tables_lookup _ _ _ _ _ Hvt Hto Hv) as [ctob Htob].
  rewrite (bind_Ok _ _ _ ctob s0) by (apply deref_Ok; by rewrite Hh).
  destruct (bool_decide (owner ctob <> None)) eqn:Ho; simpl;
    [|exists []; by rewrite printed_nil].
  apply bool_decide_eq_true in Ho.
  destruct (bool_decide (var <> name mto)); simpl; [|exists []; by rewrite printed_nil].
  destruct (owner ctob) as [o|] eqn:Eo; [|done].
  unfold jl_get_binding.
  rewrite (bind_Ok _ _ _ (Some o) s0).
  2:{ eapply jl_resolve_owner_resolved; rewrite ?Hh, ?Hms; done. }
  destruct (valid_owners_lookup _ _ _ _ Hvo Htob Eo) as [co Hco].
  destruct (eq_bindings_Ok s0 o b co cb) as [e He]; [by rewrite Hh..|].
  rewrite (bind_Ok _ _ _ _ _ He).
  destruct e; [exists []; by rewrite printed_nil|].
  rewrite (bind_Ok _ _ _ (name mfrom) s0) by (apply module_name_Ok; by rewrite Hms).
  rewrite (bind_Ok _ _ _ (name mto) s0) by (apply module_name_Ok; by rewrite Hms).
  by eexists [_].
Qed.

Lemma for_each_using_conflict_check_returns fuel to from mto mfrom (l : list (string * nat)) s :
  valid_tables s -> valid_owners s ->
  modules s !! to = Some mto -> modules s !! from = Some mfrom ->
  Forall (fun slot => is_Some (heap s !! slot.2)) l ->
  forall evs0, exists evs,
    for_each (using_conflict_check (S fuel) to from) l (printed evs0 s)
    = Ok tt (printed evs s).
Proof.
  intros Hvt Hvo Hto Hfrom. induction l as [|[var b] l IH]; intros Hl evs0; simpl.
  - by eexists.
  - inversion Hl as [|? ? Hb Hl']; subst.
    destruct (using_conflict_check_returns fuel to from mto mfrom var b s evs0)
      as [evs1 H1]; try done.
    rewrite (bind_Ok _ _ _ _ _ H1), printed_app.
    apply IH. done.
Qed.

(** C7. [jl_module_using(to, to)] returns at once: nothing changes and
    nothing is printed.  A call [jl_module_using(to, from)] that has
    returned leaves [from] in [to->usings], added at the end if it was not
    there and nothing else moved, so that a list without duplicates stays
    without duplicates; and a second call changes nothing at all and prints
    nothing.  The call does return when the modules exist and the tables
    and owners hold allocated bindings. *)
Theorem jl_module_using_idempotent fuel s to from :
  jl_module_using fuel to to s = Ok tt s /\
  (forall s1, jl_module_using fuel to from s = Ok tt s1 ->
     jl_module_using fuel to from s1 = Ok tt s1 /\
     (to <> from ->
      exists mto mto1,
        modules s !! to = Some mto /\ modules s1 !! to = Some mto1 /\
        from ∈ usings mto1 /\
        usings mto1 = (if bool_decide (from ∈ usings mto) then usings mto
                       else usings mto ++ [from]) /\
        (NoDup (usings mto) -> NoDup (usings mto1)))) /\
  (valid_tables s -> valid_owners s ->
   is_Some (modules s !! to) -> is_Some (modules s !! from) ->
   exists s1, jl_module_using (S fuel) to from s = Ok tt s1).
Proof.
  split; [|split].
  - unfold jl_module_using. by rewrite decide_True.
  - intros s1. unfold jl_module_using.
    destruct (decide (to = from)) as [->|Hne]; [by intros [= <-]|].
    intros (mto & s0 & [-> Hto]%deref_module_Ok_inv & H)%bind_Ok_inv.
    destruct (bool_decide (from ∈ usings mto)) eqn:Hin.
    + injection H as <-. rewrite (bind_Ok _ _ _ _ _ (deref_module_Ok _ _ _ Hto)), Hin.
      split; [done|]. intros _. exists mto, mto. apply bool_decide_eq_true in Hin.
      by rewrite bool_decide_eq_true_2.
    + apply bind_Ok_inv in H as (mfrom & s0 & [-> Hfrom]%deref_module_Ok_inv & H).
      apply bind_Ok_inv in H as ([] & s0 & Hloop & H).
      apply for_each_printed in Hloop as [evs ->];
        [|intros; by eapply using_conflict_check_Ok_inv].
      unfold assign_module in H. change (modules (printed evs s)) with (modules s) in H.
      rewrite Hto in H. injection H as <-.
      assert (Hto1 : modules (set_modules (<[to:=set_usings (usings mto ++ [from]) mto]> (modules s))
                      (printed evs s)) !! to = Some (set_usings (usings mto ++ [from]) mto)).
      { simpl. apply list_lookup_insert_eq. by eapply lookup_lt_Some. }
      split.
      * rewrite (bind_Ok _ _ _ _ _ (deref_module_Ok _ _ _ Hto1)).
        rewrite bool_decide_eq_true_2; [done|]. simpl. set_solver.
      * intros _. eexists _, _. split; [done|]. split; [exact Hto1|].
        apply bool_decide_eq_false in Hin.
        split; [simpl; set_solver|]. split; [by rewrite bool_decide_eq_false_2|].
        simpl. intros Hnd. apply NoDup_app. split; [done|]. split; [|apply NoDup_singleton].
        intros x Hx Hx'. apply list_elem_of_singleton in Hx'. subst x. by apply Hin.
  - intros Hvt Hvo [mto Hto] [mfrom Hfrom]. unfold jl_module_using.
    destruct (decide (to = from)); [by eexists|].
    rewrite (bind_Ok _ _ _ _ _ (deref_module_Ok _ _ _ Hto)).
    destruct (bool_decide _); [by eexists|].
    rewrite (bind_Ok _ _ _ _ _ (deref_module_Ok _ _ _ Hfrom)).
    destruct (for_each_using_conflict_check_returns fuel to from mto mfrom
                (map_to_list (bindings mfrom)) s Hvt Hvo Hto Hfrom) with (evs0 := @nil event)
      as [evs Hloop].
    { apply Forall_forall. intros [var b] Hin%elem_of_map_to_list.
      by eapply valid_tables_lookup. }
    rewrite printed_nil in Hloop. rewrite (bind_Ok _ _ _ _ _ Hloop).
    unfold assign_module. change (modules (printed evs s)) with (modules s).
    rewrite Hto. by eexists.
Qed.




(** ** Reading a run backwards *)

Lemma ret_Ok_inv {A} (a r : A) s s' : ret a s = Ok r s' -> r = a /\ s' = s.
Proof. by intros [= <- <-]. Qed.

Lemma global_Ok_inv {A} (f : jl_state -> A) r s s' : global f s = Ok r s' -> r = f s /\ s' = s.
Proof. by intros [= <- <-]. Qed.

Lemma assign_Ok_inv s b f r s' :
  assign b f s = Ok r s' -> exists c, heap s !! b = Some c /\ s' = put b (f c) s.
Proof. unfold assign. destruct (heap s !! b) as [c|]; [|done]. intros [= _ <-]. eauto. Qed.

Lemma assign_module_Ok_inv s m f r s' :
  assign_module m f s = Ok r s' ->
  exists mo, modules s !! m = Some mo /\ s' = set_modules (<[m := f mo]> (modules s)) s.
Proof.
  unfold assign_module. destruct (modules s !! m) as [mo|]; [|done]. intros [= _ <-]. eauto.
Qed.

Lemma new_binding_Ok_inv s m var b s' :
  new_binding m var s = Ok b s' ->
  b = length (heap s) /\
  s' = set_heap (heap s ++ [mk_binding None (m, var) None None false false false 0%Z]) s.
Proof. by intros [= <- <-]. Qed.

Lemma jl_printf_Ok_inv s ev r s' : jl_printf ev s = Ok r s' -> s' = print ev s.
Proof. by intros [= _ <-]. Qed.

Lemma jl_get_module_binding_Ok_inv s m var r s' :
  jl_get_module_binding m var s = Ok r s' ->
  s' = s /\ exists mo, modules s !! m = Some mo /\ r = bindings mo !! var.
Proof.
  unfold jl_get_module_binding.
  intros (mo & s1 & [-> Hm]%deref_module_Ok_inv & [-> ->]%ret_Ok_inv)%bind_Ok_inv. eauto.
Qed.

Lemma module_name_of_Ok_inv s (m : option nat) n s' :
  module_name_of m s = Ok n s' ->
  s' = s /\ exists m0 mo, m = Some m0 /\ modules s !! m0 = Some mo /\ n = name mo.
Proof.
  destruct m as [m0|]; [|done]. simpl.
  intros [-> (mo & ? & ?)]%module_name_Ok_inv. eauto 6.
Qed.

(** One step backwards through a run that returned *)
Ltac jl_inv1 :=
  match goal with
  | H : bind _ _ _ = Ok _ _ |- _ =>
      let a := fresh "a" in let s := fresh "s" in let H1 := fresh "Hrun" in
      apply bind_Ok_inv in H as (a & s & H1 & H)
  | H : ret _ _ = Ok _ _ |- _ => apply ret_Ok_inv in H as [? ?]; simplify_eq
  | H : global _ _ = Ok _ _ |- _ => apply global_Ok_inv in H as [? ?]; subst
  | H : stuck _ = Ok _ _ |- _ => discriminate H
  | H : out_of_fuel _ = Ok _ _ |- _ => discriminate H
  | H : jl_errorf _ _ = Ok _ _ |- _ => discriminate H
  | H : deref _ _ = Ok _ _ |- _ => apply deref_Ok_inv in H as [? H]; subst
  | H : deref_module _ _ = Ok _ _ |- _ => apply deref_module_Ok_inv in H as [? H]; subst
  | H : module_name _ _ = Ok _ _ |- _ =>
      let mo := fresh "mo" in
      apply module_name_Ok_inv in H as [? (mo & H & ?)]; subst
  | H : module_name_of _ _ = Ok _ _ |- _ =>
      let m0 := fresh "m" in let mo := fresh "mo" in
      apply module_name_of_Ok_inv in H as [? (m0 & mo & ? & H & ?)]; subst
  | H : jl_get_module_binding _ _ _ = Ok _ _ |- _ =>
      let mo := fresh "mo" in
      apply jl_get_module_binding_Ok_inv in H as [? (mo & H & ?)]; subst
  | H : eq_bindings _ _ _ = Ok _ _ |- _ => apply eq_bindings_Ok_inv in H; subst
  | H : jl_printf _ _ = Ok _ _ |- _ => apply jl_printf_Ok_inv in H; subst
  | H : assign _ _ _ = Ok _ _ |- _ =>
      let c := fresh "c" in apply assign_Ok_inv in H as (c & H & ?); subst
  | H : assign_module _ _ _ = Ok _ _ |- _ =>
      let mo := fresh "mo" in apply assign_module_Ok_inv in H as (mo & H & ?); subst
  | H : new_binding _ _ _ = Ok _ _ |- _ => apply new_binding_Ok_inv in H as [? ?]; subst
  end.

Ltac jl_inv := repeat jl_inv1.

(** The same, taking the branches of the code apart as they come *)
Ltac jl_case1 :=
  match goal with
  | H : (if ?x then _ else _) _ = Ok _ _ |- _ => destruct x eqn:?
  | H : (match ?x with _ => _ end) _ = Ok _ _ |- _ => destruct x eqn:?
  end.

Ltac jl_inv_all := repeat (jl_inv1 || jl_case1).

(** ** The frame of a lookup *)

Lemma frame_refl m0 var0 s : frame m0 var0 s s.
Proof. intros m mo Hm. eauto. Qed.

Lemma frame_trans m0 var0 s1 s2 s3 :
  frame m0 var0 s1 s2 -> frame m0 var0 s2 s3 -> frame m0 var0 s1 s3.
Proof.
  intros H12 H23 m mo Hm.
  destruct (H12 _ _ Hm) as (mo2 & Hm2 & Hn2 & Hu2 & Hb2).
  destruct (H23 _ _ Hm2) as (mo3 & Hm3 & Hn3 & Hu3 & Hb3).
  exists mo3. repeat split; try congruence.
  intros ->. rewrite Hb3, Hb2; done.
Qed.

Lemma frame_modules m0 var0 s s' : modules s' = modules s -> frame m0 var0 s s'.
Proof. intros Heq m mo Hm. rewrite Heq. eauto. Qed.

Lemma frame_insert m0 var0 s m mo var b :
  modules s !! m = Some mo -> (m, var) <> (m0, var0) ->
  frame m0 var0 s (set_modules (<[m := set_bindings (<[var := b]> (bindings mo)) mo]>
                                  (modules s)) s).
Proof.
  intros Hm Hne m' mo' Hm'. simpl.
  destruct (decide (m' = m)) as [->|Hmm].
  - rewrite list_lookup_insert_eq by by eapply lookup_lt_Some.
    eexists. split; [done|]. simplify_eq. repeat split.
    intros ->. simpl. apply lookup_insert_ne. congruence.
  - rewrite list_lookup_insert_ne by done. eauto.
Qed.

Lemma jl_get_binding_wr_frame m0 var0 m var alloc s r s' :
  (m, var) <> (m0, var0) ->
  jl_get_binding_wr m var alloc s = Ok r s' -> frame m0 var0 s s'.
Proof.
  intros Hne H. unfold jl_get_binding_wr in H. jl_inv_all;
    try (by apply frame_modules); try apply frame_refl.
  eapply frame_trans; [|by apply frame_insert]. by apply frame_modules.
Qed.


Lemma string_length_app (s1 s2 : string) :
  String.length (s1 +:+ s2) = String.length s1 + String.length s2.
Proof. induction s1 as [|a s1 IH]; simpl; [done|]. by rewrite IH. Qed.

Lemma dep_message_name_longer (nm : string) :
  String.length nm < String.length (dep_message_prefix +:+ nm).
Proof. rewrite string_length_app. simpl. lia. Qed.

Section Frame.
Variables (m0 : mptr) (var0 : jl_sym_t).

Lemma frame_after_print ev s s' : frame m0 var0 (print ev s) s' -> frame m0 var0 s s'.
Proof. apply frame_trans. by apply frame_modules. Qed.

Ltac frame_done :=
  repeat match goal with
         | H : frame _ _ (print _ _) _ |- _ => apply frame_after_print in H
         end;
  repeat first
    [ apply frame_refl
    | eassumption
    | by apply frame_modules
    | eapply frame_trans; [|apply frame_insert; [eassumption|done]]
    | eapply frame_trans; [eassumption|] ].

Lemma jl_binding_dep_message_frame get m nm b s r s' :
  (forall m' s1 a s2, get m' (dep_message_prefix +:+ nm) s1 = Ok a s2 -> frame m0 var0 s1 s2) ->
  jl_binding_dep_message get m nm b s = Ok r s' -> frame m0 var0 s s'.
Proof.
  intros Hget H. unfold jl_binding_dep_message in H.
  jl_inv_all;
    repeat match goal with H : get _ _ _ = Ok _ _ |- _ => apply Hget in H end;
    frame_done.
Qed.

Lemma module_import__frame get to from (ob : option nat) asname nm explici s r s' :
  (forall m' s1 a s2, get m' (dep_message_prefix +:+ nm) s1 = Ok a s2 -> frame m0 var0 s1 s2) ->
  (to, asname) <> (m0, var0) ->
  module_import_ get to from ob asname nm explici s = Ok r s' -> frame m0 var0 s s'.
Proof.
  intros Hget Hne H. unfold module_import_ in H.
  jl_inv_all;
    repeat match goal with
           | H : jl_binding_dep_message _ _ _ _ _ = Ok _ _ |- _ =>
               apply jl_binding_dep_message_frame in H; [|done]
           end;
    frame_done.
Qed.

Lemma using_body_frame resolve m var st warn i (ob : option nat) owner_m s r s' :
  (forall imp s1 a s2, resolve imp var st s1 = Ok a s2 -> frame m0 var0 s1 s2) ->
  r <> ReturnNULL \/ (m, var) <> (m0, var0) ->
  using_body resolve m var st warn i ob owner_m s = Ok r s' -> frame m0 var0 s s'.
Proof.
  intros Hres Hr H. unfold using_body in H.
  jl_inv_all;
    repeat match goal with
           | H : resolve _ _ _ _ = Ok _ _ |- _ => apply Hres in H
           | H : jl_get_binding_wr _ _ _ _ = Ok _ _ |- _ =>
               apply jl_get_binding_wr_frame with (m0 := m0) (var0 := var0) in H;
               [|by destruct Hr]
           end;
    frame_done.
Qed.

Lemma using_loop_frame resolve m var st warn idx (ob : option nat) owner_m s r s' :
  (forall imp s1 a s2, resolve imp var st s1 = Ok a s2 -> frame m0 var0 s1 s2) ->
  r <> ReturnNULL \/ (m, var) <> (m0, var0) ->
  using_loop resolve m var st warn idx ob owner_m s = Ok r s' -> frame m0 var0 s s'.
Proof.
  intros Hres Hr. revert ob owner_m s.
  induction idx as [|i idx IH]; intros ob owner_m s H; simpl in H.
  - jl_inv. frame_done.
  - jl_inv1. destruct a as [b' o'|].
    + apply using_body_frame in Hrun; [|done|by left].
      apply IH in H. frame_done.
    + jl_inv. by apply using_body_frame in Hrun.
Qed.

Lemma using_resolve_binding_frame resolve m var from st warn s r s' :
  (forall imp s1 a s2, resolve imp var st s1 = Ok a s2 -> frame m0 var0 s1 s2) ->
  (m, var) <> (m0, var0) ->
  using_resolve_binding resolve m var from st warn s = Ok r s' -> frame m0 var0 s s'.
Proof.
  intros Hres Hne H. unfold using_resolve_binding in H.
  jl_inv1. jl_inv1. jl_inv1.
  apply using_loop_frame in Hrun0; [|done|by right].
  destruct a0; jl_inv; frame_done.
Qed.

Lemma on_stack_cons m var f st :
  on_stack m var (f :: st) = bool_decide (f = (m, var)) || on_stack m var st.
Proof. done. Qed.

Lemma jl_resolve_owner_S fuel (ob : option nat) m var st :
  jl_resolve_owner (S fuel) ob m var st =
    let* o :=
      (match ob with
       | None =>
           let* cell := jl_get_module_binding m var in
           match cell with
           | Some b => let* c := deref b in ret (owner c)
           | None => ret None
           end
       | Some b => let* c := deref b in ret (owner c)
       end) in
    match o with
    | None =>
        if on_stack m var st then ret None
        else
          let* r := using_resolve_binding (jl_resolve_owner fuel None)
                      m var None ((m, var) :: st) true in
          match fst r with
          | Some b =>
              module_import_ (fun m' v' => jl_resolve_owner fuel None m' v' [])
                             m (snd r) (Some b) var var false ;;;
              ret (Some b)
          | None => ret None
          end
    | Some b => ret (Some b)
    end.
Proof. done. Qed.

Lemma jl_resolve_owner_frame fuel (ob : option nat) m var st s r s' :
  nested m0 var0 var st ->
  jl_resolve_owner fuel ob m var st s = Ok r s' -> frame m0 var0 s s'.
Proof.
  revert ob m var st s r s'. induction fuel as [|fuel IH]; intros ob m var st s r s' Hn H;
    [done|].
  rewrite jl_resolve_owner_S in H. jl_inv1.
  assert (s0 = s) as ->.
  { destruct ob; jl_inv_all; done. }
  clear Hrun. destruct a as [o|]; [jl_inv; frame_done|].
  destruct (on_stack m var st) eqn:Hst; [jl_inv; frame_done|].
  assert (Hne : (m, var) <> (m0, var0)).
  { intros [= -> ->]. destruct Hn as [Hn|[_ Hn]]; [lia|congruence]. }
  assert (Hlen : String.length var0 <= String.length var).
  { destruct Hn as [Hn|[-> _]]; lia. }
  jl_inv1.
  apply using_resolve_binding_frame in Hrun; [|clear H|done].
  2:{ intros imp s1' a' s2'. apply IH.
      destruct Hn as [Hn|[-> Hn]]; [by left|right]. split; [done|].
      rewrite on_stack_cons, Hn. apply orb_true_r. }
  destruct (fst a) as [b'|]; [|jl_inv; frame_done].
  jl_inv1. apply module_import__frame in Hrun0; [|clear H|done].
  2:{ intros m' s1' a' s2'. apply IH. left.
      pose proof (dep_message_name_longer var). lia. }
  jl_inv. frame_done.
Qed.

End Frame.

Lemma bind_ext {A B} (c0 : Jl A) (k1 k2 : A -> Jl B) s :
  (forall a s1, k1 a s1 = k2 a s1) -> bind c0 k1 s = bind c0 k2 s.
Proof. intros H. unfold bind. by destruct (c0 s). Qed.

Lemma bind_eq {A B} (c1 c2 : Jl A) (k : A -> Jl B) s :
  c1 s = c2 s -> bind c1 k s = bind c2 k s.
Proof. unfold bind. by intros ->. Qed.

Lemma using_loop_app resolve m var st warn pre idx (ob : option nat) owner_m s :
  using_loop resolve m var st warn (pre ++ idx) ob owner_m s =
    bind (using_loop resolve m var st warn pre ob owner_m)
         (fun r => match r with
                   | Continue b' owner' => using_loop resolve m var st warn idx b' owner'
                   | ReturnNULL => ret ReturnNULL
                   end) s.
Proof.
  revert ob owner_m s. induction pre as [|i pre IH]; intros ob owner_m s; simpl; [done|].
  rewrite bind_assoc. apply bind_ext. intros [b' o'|] s1; [apply IH|done].
Qed.

Lemma held_frame m0 var0 s s' ob owner_m :
  frame m0 var0 s s' -> held s ob owner_m -> held s' ob owner_m.
Proof.
  intros Hf. destruct ob; [|done]. intros (om & -> & mo & Hom).
  destruct (Hf _ _ Hom) as (mo' & Hom' & _). exists om. eauto.
Qed.

Lemma using_body_held m0 var0 resolve m var st warn i (ob : option nat) owner_m s ob' owner' s' :
  (forall imp s1 a s2, resolve imp var st s1 = Ok a s2 -> frame m0 var0 s1 s2) ->
  held s ob owner_m ->
  using_body resolve m var st warn i ob owner_m s = Ok (Continue ob' owner') s' ->
  held s' ob' owner'.
Proof.
  intros Hres Hheld H.
  assert (Hf : frame m0 var0 s s').
  { eapply using_body_frame; [exact Hres| |exact H]. by left. }
  unfold using_body in H.
  jl_inv_all; simplify_eq; try (by eapply held_frame).
  all: match goal with
       | Hi : modules ?s0 !! ?imp = Some _ |- held _ (Some _) (Some ?imp) =>
           destruct (Hf _ _ Hi) as (? & ? & _); eexists; eauto
       end.
Qed.

Lemma using_loop_held m0 var0 resolve m var st warn idx (ob : option nat) owner_m s ob' owner' s' :
  (forall imp s1 a s2, resolve imp var st s1 = Ok a s2 -> frame m0 var0 s1 s2) ->
  held s ob owner_m ->
  using_loop resolve m var st warn idx ob owner_m s = Ok (Continue ob' owner') s' ->
  held s' ob' owner'.
Proof.
  intros Hres. revert ob owner_m s.
  induction idx as [|i idx IH]; intros ob owner_m s Hheld H; simpl in H.
  - by jl_inv.
  - jl_inv1. destruct a as [b1 o1|]; [|by jl_inv].
    eapply IH; [|done]. by eapply using_body_held.
Qed.


Lemma module_name_with_new_cell s m mo var m' mo' :
  modules s !! m = Some mo -> modules s !! m' = Some mo' ->
  module_name m' (with_new_cell m mo var s) = Ok (name mo') (with_new_cell m mo var s).
Proof.
  intros Hm Hm'. destruct (decide (m' = m)) as [->|Hne].
  - rewrite (module_name_Ok _ _ _ (with_new_cell_module _ _ _ var Hm)). by simplify_eq.
  - apply module_name_Ok. simpl. by rewrite list_lookup_insert_ne.
Qed.

Lemma nested_top m var : nested m var var [(m, var)].
Proof.
  right. split; [done|]. unfold on_stack. simpl. by rewrite bool_decide_eq_true_2.
Qed.

(** The run of an ambiguous lookup: the candidates are found in the state
    [s2], the name is marked as resolved in [m], the warning is printed,
    and NULL is returned. *)
Lemma jl_get_binding_ambiguous fuel s m mo var b imp tempb s2 :
  modules s !! m = Some mo -> bindings mo !! var = None ->
  finds_two_candidates fuel m var s b imp tempb s2 ->
  exists mo2 mom mi2,
    modules s2 !! m = Some mo2 /\ bindings mo2 !! var = None /\ name mo2 = name mo /\
    modules s2 !! imp = Some mi2 /\
    jl_get_binding (S fuel) m var s =
      Ok None (print (WARNING_must_be_qualified (name mom) (name mi2) var (name mo))
                     (with_new_cell m mo2 var s2)).
Proof.
  intros Hm Hv (mo' & pre & i & post & owner_m & s1 & mi & tb & ctb & ct & cb &
                Hm' & Hidx & Hloop & Hi & Himp & Htb & Hctb & Hex & Hres &
                Hct & Hdt & Hcb & Hdb & Heq).
  simplify_eq.
  assert (Hnest : forall imp' s1' a s2',
            jl_resolve_owner fuel None imp' var [(m, var)] s1' = Ok a s2' ->
            frame m var s1' s2').
  { intros imp' s1' a s2'. apply jl_resolve_owner_frame, nested_top. }
  assert (Hf1 : frame m var s s1).
  { eapply using_loop_frame; [exact Hnest| |exact Hloop]. by left. }
  assert (Hf2 : frame m var s1 s2) by by eapply Hnest.
  assert (Hheld : held s1 (Some b) owner_m).
  { eapply using_loop_held; [exact Hnest| |exact Hloop]. done. }
  destruct Hheld as (om & -> & mom1 & Hom1).
  destruct (Hf1 _ _ Hm) as (mo1 & Hm1 & Hn1 & Hu1 & Hb1).
  destruct (Hf2 _ _ Hm1) as (mo2 & Hm2 & Hn2 & Hu2 & Hb2).
  destruct (Hf2 _ _ Hom1) as (mom & Hom & _).
  destruct (Hf2 _ _ Himp) as (mi2 & Himp2 & _).
  exists mo2, mom, mi2.
  split; [done|]. split; [by rewrite Hb2, Hb1|]. split; [congruence|]. split; [done|].
  assert (Hv2 : bindings mo2 !! var = None) by by rewrite Hb2, Hb1.
  (* the turn of the loop at index [i] *)
  assert (Hbody : using_body (jl_resolve_owner fuel None) m var [(m, var)] true i
                    (Some b) (Some om) s1
                  = Ok ReturnNULL
                       (print (WARNING_must_be_qualified (name mom) (name mi2) var (name mo))
                              (with_new_cell m mo2 var s2))).
  { unfold using_body.
    rewrite (bind_Ok _ _ _ _ _ (deref_module_Ok _ _ _ Hm1)), Hu1, Hi.
    rewrite (bind_Ok _ _ _ _ _ (jl_get_module_binding_Ok _ _ _ var Himp)), Htb.
    rewrite (bind_Ok _ _ _ _ _ (deref_Ok _ _ _ Hctb)), Hex.
    rewrite (bind_Ok _ _ _ _ _ Hres).
    rewrite ?bind_assoc, (bind_Ok _ _ _ _ _ (deref_Ok _ _ _ Hct)), Hdt.
    change (nonzero 0%Z) with false; cbv iota.
    rewrite ?bind_assoc, (bind_Ok _ _ _ _ _ (deref_Ok _ _ _ Hcb)), Hdb.
    change (nonzero 0%Z) with false; cbv iota.
    rewrite ?bind_assoc, (bind_Ok _ _ _ _ _ Heq), bind_ret.
    change (negb false) with true; cbv iota.
    rewrite ?bind_assoc, (bind_Ok _ _ _ _ _ (jl_get_binding_wr_absent _ _ _ _ true Hm2 Hv2)).
    simpl module_name_of.
    rewrite ?bind_assoc, (bind_Ok _ _ _ _ _ (module_name_with_new_cell _ _ _ var _ _ Hm2 Hom)).
    rewrite ?bind_assoc, (bind_Ok _ _ _ _ _ (module_name_with_new_cell _ _ _ var _ _ Hm2 Himp2)).
    rewrite ?bind_assoc, (bind_Ok _ _ _ _ _ (module_name_with_new_cell _ _ _ var _ _ Hm2 Hm2)).
    rewrite ?bind_assoc, (bind_Ok _ _ _ _ _ (jl_printf_print _ _)), ?bind_ret.
    by rewrite Hn2, Hn1. }
  unfold jl_get_binding. rewrite jl_resolve_owner_S.
  rewrite ?bind_assoc, (bind_Ok _ _ _ _ _ (jl_get_module_binding_Ok _ _ _ var Hm)), Hv, bind_ret.
  change (on_stack m var []) with false; cbv iota.
  unfold using_resolve_binding.
  rewrite ?bind_assoc, (bind_Ok _ _ _ _ _ (deref_module_Ok _ _ _ Hm)), Hidx.
  rewrite ?bind_assoc, (bind_eq _ _ _ _ (using_loop_app _ _ _ _ _ pre (i :: post) None None s)).
  rewrite ?bind_assoc, (bind_Ok _ _ _ _ _ Hloop).
  simpl using_loop.
  rewrite ?bind_assoc, (bind_Ok _ _ _ _ _ Hbody). done.
Qed.

(** After the marking: the name resolves to the new cell, which owns
    itself and has no value, and nothing more is printed. *)
Lemma jl_get_binding_marked fuel s m mo var ev :
  modules s !! m = Some mo -> bindings mo !! var = None ->
  let b := length (heap s) in
  let s3 := print ev (with_new_cell m mo var s) in
  heap s3 !! b = Some (fresh_cell m var b) /\
  (exists mo3, modules s3 !! m = Some mo3 /\ bindings mo3 !! var = Some b) /\
  jl_get_binding (S fuel) m var s3 = Ok (Some b) s3 /\
  jl_boundp (S fuel) m var s3 = Ok false s3.
Proof.
  intros Hm Hv b s3.
  assert (Hb3 : heap s3 !! b = Some (fresh_cell m var b)) by apply with_new_cell_heap.
  assert (Hm3 : modules s3 !! m = Some (set_bindings (<[var := b]> (bindings mo)) mo))
    by by apply with_new_cell_module.
  assert (Hv3 : bindings (set_bindings (<[var := b]> (bindings mo)) mo) !! var = Some b)
    by apply lookup_insert_eq.
  assert (Hget : jl_get_binding (S fuel) m var s3 = Ok (Some b) s3).
  { unfold jl_get_binding. by eapply jl_resolve_owner_resolved. }
  split; [done|]. split; [eauto|]. split; [done|].
  unfold jl_boundp. rewrite (bind_Ok _ _ _ _ _ Hget), (bind_Ok _ _ _ _ _ (deref_Ok _ _ _ Hb3)).
  done.
Qed.


(** C1. In a module [m] with no cell for [var], when the search through
    the [usings] finds two candidates that are both not deprecated and not
    [eq_bindings]: [jl_get_binding] returns NULL; the last thing it prints
    is the "must be qualified" warning for [var] in [m]; it leaves a cell
    for [var] in the table of [m]; and a second [jl_get_binding] returns
    without changing the state, so without printing the warning again.
    ([resolved_exports_find_two_candidates] below gives [finds_two_candidates]
    from the tables alone, when the modules that [m] is using have nothing
    left to resolve for [var].) *)
Theorem jl_get_binding_ambiguous_warns_once fuel s m mo var b imp tempb s2 :
  modules s !! m = Some mo -> bindings mo !! var = None ->
  finds_two_candidates fuel m var s b imp tempb s2 ->
  exists s3 owner_name mi2 b3,
    jl_get_binding (S fuel) m var s = Ok None s3 /\
    modules s2 !! imp = Some mi2 /\
    stderr s3 = stderr s2 ++
                [WARNING_must_be_qualified owner_name (name mi2) var (name mo)] /\
    (exists mo3, modules s3 !! m = Some mo3 /\ bindings mo3 !! var = Some b3) /\
    forall fuel', jl_get_binding (S fuel') m var s3 = Ok (Some b3) s3.
Proof.
  intros Hm Hv Hfind.
  destruct (jl_get_binding_ambiguous _ _ _ _ _ _ _ _ _ Hm Hv Hfind)
    as (mo2 & mom & mi2 & Hm2 & Hv2 & Hn2 & Himp2 & Hrun).
  eexists _, (name mom), mi2, (length (heap s2)).
  split; [exact Hrun|]. split; [done|]. split; [done|].
  split.
  - eapply (jl_get_binding_marked 0); done.
  - intros fuel'. eapply (jl_get_binding_marked fuel'); done.
Qed.

(** C9. The cell that an ambiguous lookup leaves in [m] is a new cell that
    owns itself and has no value: a second [jl_get_binding] returns it (not
    NULL), and [jl_boundp] is false. *)
Theorem jl_get_binding_ambiguous_marks_owned fuel s m mo var b imp tempb s2 :
  modules s !! m = Some mo -> bindings mo !! var = None ->
  finds_two_candidates fuel m var s b imp tempb s2 ->
  exists s3 b3 c3,
    jl_get_binding (S fuel) m var s = Ok None s3 /\
    heap s3 = heap s2 ++ [c3] /\ heap s3 !! b3 = Some c3 /\
    owner c3 = Some b3 /\ value c3 = None /\
    forall fuel',
      jl_get_binding (S fuel') m var s3 = Ok (Some b3) s3 /\
      jl_boundp (S fuel') m var s3 = Ok false s3.
Proof.
  intros Hm Hv Hfind.
  destruct (jl_get_binding_ambiguous _ _ _ _ _ _ _ _ _ Hm Hv Hfind)
    as (mo2 & mom & mi2 & Hm2 & Hv2 & Hn2 & Himp2 & Hrun).
  eexists _, (length (heap s2)), (fresh_cell m var (length (heap s2))).
  split; [exact Hrun|]. split; [done|].
  split; [eapply (jl_get_binding_marked 0); done|].
  split; [done|]. split; [done|].
  intros fuel'. split; eapply (jl_get_binding_marked fuel'); done.
Qed.

(** C10. [jl_deprecate_binding(m, var, flag)] writes the flag into the
    binding [b] that [m.var] resolves to, and into no other binding: when
    the cell of [m] is an alias of a binding of another module, it is that
    other binding which is flagged.  Every module with a cell whose owner is
    [b] (the module that owns [b], and every module that imported it or
    resolved it through a [using]) then resolves its name to the flagged
    binding, and [jl_is_binding_deprecated] there says what [flag] says. *)
Theorem jl_deprecate_binding_owner fuel s m var flag b s1 cb :
  (0 <= flag <= 2)%Z ->
  jl_get_binding fuel m var s = Ok (Some b) s1 ->
  heap s1 !! b = Some cb ->
  let s2 := put b (set_deprecated flag cb) s1 in
  jl_deprecate_binding fuel m var flag s = Ok tt s2 /\
  heap s2 !! b = Some (set_deprecated flag cb) /\
  (forall a, a <> b -> heap s2 !! a = heap s1 !! a) /\
  modules s2 = modules s1 /\
  (forall fuel' m' mo' var' a' ca',
     modules s2 !! m' = Some mo' -> bindings mo' !! var' = Some a' ->
     heap s2 !! a' = Some ca' -> owner ca' = Some b ->
     jl_get_binding (S fuel') m' var' s2 = Ok (Some b) s2 /\
     jl_is_binding_deprecated (S fuel') m' var' s2 = Ok (nonzero flag) s2).
Proof.
  intros _ Hget Hb s2.
  assert (Hb2 : heap s2 !! b = Some (set_deprecated flag cb)) by by eapply lookup_put_eq.
  split; [|split; [done|split; [|split; [done|]]]].
  - unfold jl_deprecate_binding.
    by rewrite (bind_Ok _ _ _ _ _ Hget), (assign_put _ _ _ _ Hb).
  - intros a Hne. by apply lookup_put_ne.
  - intros fuel' m' mo' var' a' ca' Hm' Hv' Ha' Ho'.
    assert (Hget' : jl_get_binding (S fuel') m' var' s2 = Ok (Some b) s2).
    { unfold jl_get_binding. by eapply jl_resolve_owner_resolved. }
    split; [done|].
    unfold jl_is_binding_deprecated, jl_binding_resolved_p.
    rewrite ?bind_assoc, (bind_Ok _ _ _ _ _ (jl_get_module_binding_Ok _ _ _ var' Hm')), Hv'.
    rewrite ?bind_assoc, (bind_Ok _ _ _ _ _ (deref_Ok _ _ _ Ha')), bind_ret.
    rewrite bool_decide_eq_true_2 by by rewrite Ho'.
    by rewrite (bind_Ok _ _ _ _ _ Hget'), (bind_Ok _ _ _ _ _ (deref_Ok _ _ _ Hb2)).
Qed.

(** Backwards through a run, keeping the writes as they are *)
Ltac jl_split1 :=
  match goal with
  | H : bind _ _ _ = Ok _ _ |- _ =>
      let a := fresh "a" in let s := fresh "s" in let H1 := fresh "Hrun" in
      apply bind_Ok_inv in H as (a & s & H1 & H)
  | H : ret _ _ = Ok _ _ |- _ => apply ret_Ok_inv in H as [? ?]; simplify_eq
  | H : global _ _ = Ok _ _ |- _ => apply global_Ok_inv in H as [? ?]; subst
  | H : stuck _ = Ok _ _ |- _ => discriminate H
  | H : out_of_fuel _ = Ok _ _ |- _ => discriminate H
  | H : jl_errorf _ _ = Ok _ _ |- _ => discriminate H
  | H : deref _ _ = Ok _ _ |- _ => apply deref_Ok_inv in H as [? H]; subst
  | H : deref_module _ _ = Ok _ _ |- _ => apply deref_module_Ok_inv in H as [? H]; subst
  | H : module_name _ _ = Ok _ _ |- _ =>
      let mo := fresh "mo" in
      apply module_name_Ok_inv in H as [? (mo & H & ?)]; subst
  | H : module_name_of _ _ = Ok _ _ |- _ =>
      let m0 := fresh "m" in let mo := fresh "mo" in
      apply module_name_of_Ok_inv in H as [? (m0 & mo & ? & H & ?)]; subst
  | H : jl_get_module_binding _ _ _ = Ok _ _ |- _ =>
      let mo := fresh "mo" in
      apply jl_get_module_binding_Ok_inv in H as [? (mo & H & ?)]; subst
  | H : eq_bindings _ _ _ = Ok _ _ |- _ => apply eq_bindings_Ok_inv in H; subst
  | H : (if ?x then _ else _) _ = Ok _ _ |- _ => destruct x eqn:?
  | H : (match ?x with _ => _ end) _ = Ok _ _ |- _ => destruct x eqn:?
  end.

Ltac jl_split := repeat jl_split1.




(** ** One-hop owner chains *)

Lemma owners_canonical_lookup s :
  owners_canonical s <->
  forall b c o, heap s !! b = Some c -> owner c = Some o -> canonical s o.
Proof.
  unfold owners_canonical. rewrite Forall_lookup. split.
  - intros H b c o Hb Ho. specialize (H _ _ Hb). by rewrite Ho in H.
  - intros H b c Hb. destruct (owner c) eqn:Ho; [|done]. by eapply H.
Qed.

Lemma grows_refl s : grows s s.
Proof. intros H. split; [done|]. by intros p. Qed.

Lemma grows_trans s1 s2 s3 : grows s1 s2 -> grows s2 s3 -> grows s1 s3.
Proof.
  intros H12 H23 H1. destruct (H12 H1) as [H2 E12]. destruct (H23 H2) as [H3 E23].
  split; [done|]. intros p Hp. by apply E23, E12.
Qed.

Lemma grows_heap s s' : heap s' = heap s -> grows s s'.
Proof.
  intros Heq H. unfold owners_canonical, extends, canonical in *. rewrite Heq. done.
Qed.

Lemma grows_put s b c c' :
  heap s !! b = Some c ->
  owner c' = owner c \/
  (owner c = None /\ exists o, owner c' = Some o /\ (o = b \/ canonical s o)) ->
  grows s (put b c' s).
Proof.
  intros Hb Hc' Hoc.
  assert (Hlt : b < length (heap s)) by by eapply lookup_lt_Some.
  assert (Hext : extends s (put b c' s)).
  { intros p Hp. unfold canonical in *. simpl.
    destruct (decide (p = b)) as [->|Hne].
    - rewrite list_lookup_insert_eq by done. rewrite Hb in Hp.
      destruct Hc' as [->|[Hnone _]]; [done|congruence].
    - by rewrite list_lookup_insert_ne. }
  split; [|done]. apply owners_canonical_lookup. intros b1 c1 o1 Hb1 Ho1.
  simpl in Hb1. destruct (decide (b1 = b)) as [->|Hne].
  - rewrite list_lookup_insert_eq in Hb1 by done. simplify_eq.
    destruct Hc' as [Heq|(Hnone & o & Ho & Hcan)].
    + apply Hext. rewrite Heq in Ho1.
      by eapply (proj1 (owners_canonical_lookup s) Hoc).
    + simplify_eq. destruct Hcan as [->|Hcan]; [|by apply Hext].
      unfold canonical. simpl. by rewrite list_lookup_insert_eq.
  - rewrite list_lookup_insert_ne in Hb1 by done.
    apply Hext. by eapply (proj1 (owners_canonical_lookup s) Hoc).
Qed.

Lemma grows_alloc s c : owner c = None -> grows s (set_heap (heap s ++ [c]) s).
Proof.
  intros Hc Hoc.
  assert (Hext : extends s (set_heap (heap s ++ [c]) s)).
  { intros p Hp. unfold canonical in *. simpl.
    destruct (heap s !! p) as [cp|] eqn:Hcp; [|done].
    by rewrite (lookup_app_l_Some _ _ _ _ Hcp). }
  split; [|done]. apply owners_canonical_lookup. intros b1 c1 o1 Hb1 Ho1.
  simpl in Hb1. apply lookup_app_Some in Hb1 as [Hb1|[_ Hb1]].
  - apply Hext. by eapply (proj1 (owners_canonical_lookup s) Hoc).
  - apply list_lookup_singleton_Some in Hb1 as [_ <-]. congruence.
Qed.


Lemma inv_refl s : owners_canonical s -> inv s s.
Proof. intros H. split; [done|]. by intros p. Qed.

Lemma inv_trans s0 s1 s2 : inv s0 s1 -> inv s1 s2 -> inv s0 s2.
Proof. intros [_ E1] [H2 E2]. split; [done|]. intros p Hp. by apply E2, E1. Qed.

Lemma inv_grows s0 s s' : inv s0 s -> grows s s' -> inv s0 s'.
Proof.
  intros [H E] Hg. destruct (Hg H) as [H' E']. split; [done|].
  intros p Hp. by apply E', E.
Qed.

Lemma inv_heap s0 s s' : inv s0 s -> heap s' = heap s -> inv s0 s'.
Proof. intros Hi Heq. eapply inv_grows; [done|]. by apply grows_heap. Qed.

Lemma inv_printf s0 s ev r s' : inv s0 s -> jl_printf ev s = Ok r s' -> inv s0 s'.
Proof. intros Hi [= _ <-]. by eapply inv_heap. Qed.

Lemma inv_assign_module s0 s m f r s' :
  inv s0 s -> assign_module m f s = Ok r s' -> inv s0 s'.
Proof.
  intros Hi (mo & _ & ->)%assign_module_Ok_inv. by eapply inv_heap.
Qed.

Lemma inv_new_binding s0 s m var b s' :
  inv s0 s -> new_binding m var s = Ok b s' ->
  inv s0 s' /\ exists c, heap s' !! b = Some c /\ owner c = None.
Proof.
  intros Hi [-> ->]%new_binding_Ok_inv. split.
  - eapply inv_grows; [done|]. by apply grows_alloc.
  - eexists. split.
    + simpl. rewrite lookup_app_r by lia. by rewrite Nat.sub_diag.
    + done.
Qed.

(** A write that leaves [owner] as it is *)
Lemma inv_assign s0 s b f r s' :
  inv s0 s -> (forall c, owner (f c) = owner c) ->
  assign b f s = Ok r s' ->
  inv s0 s' /\ forall p c, heap s !! p = Some c ->
                 exists c', heap s' !! p = Some c' /\ owner c' = owner c.
Proof.
  intros Hi Hf (c & Hb & ->)%assign_Ok_inv. split.
  - eapply inv_grows; [done|]. eapply grows_put; [done|]. by left.
  - intros p cp Hp. destruct (decide (p = b)) as [->|Hne].
    + erewrite lookup_put_eq by done. simplify_eq. eauto.
    + rewrite lookup_put_ne by done. eauto.
Qed.

(** [b->owner = o] for a binding whose owner is not set (or is [o]
    already), where [o] is [b] or owns itself *)
Lemma inv_assign_owner s0 s b o c r s' :
  inv s0 s -> heap s !! b = Some c ->
  owner c = None \/ owner c = Some o ->
  o = b \/ canonical s o ->
  assign b (set_owner (Some o)) s = Ok r s' ->
  inv s0 s' /\ canonical s' o /\
  heap s' !! b = Some (set_owner (Some o) c).
Proof.
  intros Hi Hb Hc Ho (c' & Hb' & ->)%assign_Ok_inv. simplify_eq.
  assert (Hg : grows s (put b (set_owner (Some o) c) s)).
  { eapply grows_put; [done|]. destruct Hc as [Hc|Hc]; [right|left]; eauto. }
  assert (Hb2 : heap (put b (set_owner (Some o) c) s) !! b = Some (set_owner (Some o) c))
    by by eapply lookup_put_eq.
  split; [by eapply inv_grows|]. split; [|done].
  destruct Ho as [->|Ho].
  - unfold canonical. by rewrite Hb2.
  - destruct Hi as [Hoc _]. by apply (Hg Hoc).
Qed.

Lemma inv_canonical s0 s p : inv s0 s -> canonical s0 p -> canonical s p.
Proof. intros [_ E]. apply E. Qed.

Lemma jl_get_binding_wr_inv s m var alloc r s' :
  owners_canonical s ->
  jl_get_binding_wr m var alloc s = Ok r s' -> inv s s'.
Proof.
  intros Hoc H. pose proof (inv_refl _ Hoc) as Hi.
  unfold jl_get_binding_wr in H. jl_split; try done.
  - eapply inv_assign_owner in Hrun1 as (? & _); eauto.
  - eapply inv_new_binding in Hrun0 as (Hi1 & c & Hc & Hnone); [|done].
    eapply inv_assign_owner in Hrun1 as (Hi2 & _); eauto.
    by eapply inv_assign_module.
Qed.


(** Carrying [inv] forward through the writes of a run *)
Ltac inv_fwd1 :=
  match goal with
  | Hi : inv ?s0 ?s, H : jl_printf _ ?s = Ok _ _ |- _ =>
      apply (inv_printf _ _ _ _ _ Hi) in H
  | Hi : inv ?s0 ?s, H : assign_module _ _ ?s = Ok _ _ |- _ =>
      apply (inv_assign_module _ _ _ _ _ _ Hi) in H
  | Hi : inv ?s0 ?s, H : assign _ (set_imported _) ?s = Ok _ _ |- _ =>
      apply (inv_assign _ _ _ _ _ _ Hi) in H as [? ?]; [|done]
  | Hi : inv ?s0 ?s, H : assign _ (set_deprecated _) ?s = Ok _ _ |- _ =>
      apply (inv_assign _ _ _ _ _ _ Hi) in H as [? ?]; [|done]
  | Hi : inv ?s0 ?s, H : new_binding _ _ ?s = Ok _ _ |- _ =>
      let c := fresh "c" in
      apply (inv_new_binding _ _ _ _ _ _ Hi) in H as (? & c & ? & ?)
  end.
Ltac inv_fwd := repeat inv_fwd1.

Lemma canonical_owner s b c : canonical s b -> heap s !! b = Some c -> owner c = Some b.
Proof. unfold canonical. intros H Hb. by rewrite Hb in H. Qed.

Lemma jl_binding_dep_message_inv get m nm b s r s' :
  (forall m' v' s1 a s2, owners_canonical s1 -> get m' v' s1 = Ok a s2 -> inv s1 s2) ->
  owners_canonical s ->
  jl_binding_dep_message get m nm b s = Ok r s' -> inv s s'.
Proof.
  intros Hget Hoc H. unfold jl_binding_dep_message in H.
  apply bind_Ok_inv in H as (dmb & s0 & Hg & H).
  apply Hget in Hg; [|done].
  jl_split; inv_fwd; done.
Qed.

Lemma module_import__inv get to from (ob : option nat) asname nm explici s r s' :
  (forall m' v' s1 a s2, owners_canonical s1 -> get m' v' s1 = Ok a s2 -> inv s1 s2) ->
  owners_canonical s -> canonical_opt s ob ->
  module_import_ get to from ob asname nm explici s = Ok r s' -> inv s s'.
Proof.
  intros Hget Hoc Hcan H. pose proof (inv_refl _ Hoc) as Hi.
  unfold module_import_ in H. destruct ob as [b|]; [|jl_split; inv_fwd; done].
  simpl in Hcan.
  apply bind_Ok_inv in H as (cb & s0 & Hcb & H). apply deref_Ok_inv in Hcb as [-> Hcb].
  apply bind_Ok_inv in H as (skip & s1 & Hskip & H).
  assert (Hi1 : inv s s1).
  { clear H. jl_split; inv_fwd; try done.
    match goal with
    | Hd : jl_binding_dep_message _ _ _ _ _ = Ok _ _, Hi' : inv s ?s2 |- _ =>
        eapply jl_binding_dep_message_inv in Hd; [|done|by destruct Hi'];
        pose proof (inv_trans _ _ _ Hi' Hd)
    end.
    inv_fwd. done. }
  clear Hskip Hi. pose proof (inv_canonical _ _ _ Hi1 Hcan) as Hcan1.
  jl_split; inv_fwd; try done.
  - (* a placeholder of [to] takes the owner *)
    match goal with
    | Hb : heap s1 !! b = Some ?c, Ha : assign _ (set_owner (owner ?c)) _ = Ok _ _ |- _ =>
        rewrite (canonical_owner _ _ _ Hcan1 Hb) in Ha;
        eapply inv_assign_owner in Ha as (? & _); [|done..| |by right]
    end.
    + inv_fwd. done.
    + match goal with
      | Hc : _ && _ = false |- _ =>
          apply andb_false_iff in Hc as [Hc|Hc]; apply bool_decide_eq_false in Hc
      end.
      * right. by apply dec_stable.
      * left. by apply dec_stable.
  - (* a new alias cell *)
    match goal with
    | Hi' : inv s ?s0, Ha : assign _ (set_owner (Some b)) ?s0 = Ok _ _ |- _ =>
        eapply inv_assign_owner in Ha as (? & _);
        [|done|done|by left|right; by eapply inv_canonical]
    end.
    inv_fwd. done.
Qed.

Lemma using_body_inv resolve m var st warn i (ob : option nat) owner_m s r s' :
  (forall imp s1 a s2, owners_canonical s1 -> resolve imp var st s1 = Ok a s2 ->
                       inv s1 s2 /\ canonical_opt s2 a) ->
  owners_canonical s -> canonical_opt s ob ->
  using_body resolve m var st warn i ob owner_m s = Ok r s' ->
  inv s s' /\ match r with
              | Continue ob' _ => canonical_opt s' ob'
              | ReturnNULL => True
              end.
Proof.
  intros Hres Hoc Hcan H. pose proof (inv_refl _ Hoc) as Hi.
  unfold using_body in H.
  apply bind_Ok_inv in H as (mo & s0 & Hmo & H). apply deref_module_Ok_inv in Hmo as [-> Hmo].
  destruct (usings mo !! i) as [imp|]; [|done].
  apply bind_Ok_inv in H as (tb & s0 & Htb & H).
  apply jl_get_module_binding_Ok_inv in Htb as [-> _].
  destruct tb as [tb|]; [|by jl_split].
  apply bind_Ok_inv in H as (ctb & s0 & Hctb & H). apply deref_Ok_inv in Hctb as [-> Hctb].
  destruct (exportp ctb); [|by jl_split].
  apply bind_Ok_inv in H as (tempb & s1 & Hr & H).
  apply Hres in Hr as [Hi1 Hcan1]; [|done].
  assert (Hcan' : canonical_opt s1 ob).
  { destruct ob; [|done]. by eapply inv_canonical. }
  destruct tempb as [tempb|]; [|by jl_split].
  apply bind_Ok_inv in H as (amb & s2 & Hamb & H).
  assert (s2 = s1) as -> by (by destruct ob; jl_split).
  clear Hamb. destruct amb.
  - apply bind_Ok_inv in H as ([] & s2 & Hw & H). apply ret_Ok_inv in H as [-> ->].
    split; [|done]. destruct warn; [|by jl_split].
    apply bind_Ok_inv in Hw as (w & s3 & Hwr & Hw).
    apply jl_get_binding_wr_inv in Hwr; [|by destruct Hi1].
    pose proof (inv_trans _ _ _ Hi1 Hwr). jl_split. inv_fwd. done.
  - apply bind_Ok_inv in H as (take & s2 & Htake & H).
    assert (s2 = s1) as -> by (by destruct owner_m; jl_split).
    destruct take; jl_split; done.
Qed.




Lemma using_loop_inv resolve m var st warn idx (ob : option nat) owner_m s r s' :
  (forall imp s1 a s2, owners_canonical s1 -> resolve imp var st s1 = Ok a s2 ->
                       inv s1 s2 /\ canonical_opt s2 a) ->
  owners_canonical s -> canonical_opt s ob ->
  using_loop resolve m var st warn idx ob owner_m s = Ok r s' ->
  inv s s' /\ match r with
              | Continue ob' _ => canonical_opt s' ob'
              | ReturnNULL => True
              end.
Proof.
  intros Hres. revert ob owner_m s.
  induction idx as [|i idx IH]; intros ob owner_m s Hoc Hcan H; simpl in H.
  - apply ret_Ok_inv in H as [-> ->]. split; [by apply inv_refl|done].
  - apply bind_Ok_inv in H as (r1 & s1 & Hbody & H).
    apply using_body_inv in Hbody as [Hi1 Hcan1]; [|done..].
    destruct r1 as [ob1 o1|].
    + apply IH in H as [Hi2 Hr]; [|by destruct Hi1|done].
      split; [by eapply inv_trans|done].
    + by apply ret_Ok_inv in H as [-> ->].
Qed.

Lemma jl_resolve_owner_inv fuel (ob : option nat) m var st s r s' :
  owners_canonical s ->
  jl_resolve_owner fuel ob m var st s = Ok r s' ->
  inv s s' /\ canonical_opt s' r.
Proof.
  revert ob m var st s r s'.
  induction fuel as [|fuel IH]; intros ob m var st s r s' Hoc H; [done|].
  rewrite jl_resolve_owner_S in H.
  apply bind_Ok_inv in H as (o & s0 & Ho & H).
  assert (s0 = s /\ canonical_opt s o) as [-> Hcan].
  { destruct ob; jl_split; (split; [done|]); try done.
    all: simpl; by eapply (proj1 (owners_canonical_lookup _) Hoc). }
  clear Ho. destruct o as [o|].
  { apply ret_Ok_inv in H as [-> ->]. split; [by apply inv_refl|done]. }
  destruct (on_stack m var st).
  { apply ret_Ok_inv in H as [-> ->]. split; [by apply inv_refl|done]. }
  apply bind_Ok_inv in H as ([b from] & s1 & Hscan & H).
  unfold using_resolve_binding in Hscan.
  apply bind_Ok_inv in Hscan as (mo & s0 & Hmo & Hscan).
  apply deref_module_Ok_inv in Hmo as [-> Hmo].
  apply bind_Ok_inv in Hscan as (sc & s2 & Hloop & Hscan).
  apply using_loop_inv in Hloop as [Hi2 Hsc]; try done; [|intros; by eapply IH].
  assert (s2 = s1 /\ canonical_opt s1 b) as [-> Hb].
  { destruct sc; apply ret_Ok_inv in Hscan as [? ?]; simplify_eq; done. }
  clear Hscan. cbn [fst snd] in H. destruct b as [b|].
  - apply bind_Ok_inv in H as ([] & s3 & Himp & H).
    apply ret_Ok_inv in H as [-> ->].
    apply module_import__inv in Himp; [|intros; by eapply IH|by destruct Hi2|done].
    split; [by eapply inv_trans|]. simpl. by eapply inv_canonical.
  - apply ret_Ok_inv in H as [-> ->]. done.
Qed.

(** C2. In a state whose owner chains are one hop, a binding returned by
    [jl_get_binding] owns itself, in the state in which it is returned; and
    the owner chains of that state are one hop again. *)
Theorem jl_get_binding_canonical fuel s m var b s' :
  owners_canonical s ->
  jl_get_binding fuel m var s = Ok (Some b) s' ->
  (exists c, heap s' !! b = Some c /\ owner c = Some b) /\
  owners_canonical s'.
Proof.
  intros Hoc H. apply jl_resolve_owner_inv in H as [[Hoc' _] Hcan]; [|done].
  split; [|done]. simpl in Hcan. unfold canonical in Hcan.
  destruct (heap s' !! b) as [c|]; [eauto|done].
Qed.

(** ** Runs that end in an error *)

Lemma bind_Raise_inv {A B} (c0 : Jl A) (k : A -> Jl B) s e s' :
  bind c0 k s = Raise e s' ->
  c0 s = Raise e s' \/ exists a s1, c0 s = Ok a s1 /\ k a s1 = Raise e s'.
Proof.
  unfold bind. destruct (c0 s) as [a s1|e1 s1| |]; intros H; try done.
  - right. eauto.
  - injection H as -> ->. by left.
Qed.

Lemma deref_no_raise s b e s' : deref b s = Raise e s' -> False.
Proof. unfold deref. by destruct (heap s !! b). Qed.

Lemma deref_module_no_raise s m e s' : deref_module m s = Raise e s' -> False.
Proof. unfold deref_module. by destruct (modules s !! m). Qed.

Lemma assign_no_raise s b f e s' : assign b f s = Raise e s' -> False.
Proof. unfold assign. by destruct (heap s !! b). Qed.

Lemma assign_module_no_raise s m f e s' : assign_module m f s = Raise e s' -> False.
Proof. unfold assign_module. by destruct (modules s !! m). Qed.

Lemma module_name_no_raise s m e s' : module_name m s = Raise e s' -> False.
Proof.
  unfold module_name. intros [H|(a & s1 & _ & H)]%bind_Raise_inv; [|done].
  by apply deref_module_no_raise in H.
Qed.

Lemma module_name_of_no_raise s (m : option nat) e s' : module_name_of m s = Raise e s' -> False.
Proof. destruct m; [apply module_name_no_raise|done]. Qed.

Lemma jl_get_module_binding_no_raise s m var e s' :
  jl_get_module_binding m var s = Raise e s' -> False.
Proof.
  unfold jl_get_module_binding. intros [H|(a & s1 & _ & H)]%bind_Raise_inv; [|done].
  by apply deref_module_no_raise in H.
Qed.

Lemma eq_bindings_no_raise s a b e s' : eq_bindings a b s = Raise e s' -> False.
Proof.
  unfold eq_bindings. destruct (decide (a = b)); [done|].
  intros [H|(ca & s1 & _ & [H|(cb & s2 & _ & H)]%bind_Raise_inv)]%bind_Raise_inv.
  - by apply deref_no_raise in H.
  - by apply deref_no_raise in H.
  - destruct (decide _); [done|]. by destruct (_ && _).
Qed.

Lemma jl_errorf_Raise_inv {A} e s e' s' : @jl_errorf _ A e s = Raise e' s' -> e' = e /\ s' = s.
Proof. by intros [= <- <-]. Qed.

(** One step backwards through a run that raised *)
Ltac jl_rsplit1 :=
  match goal with
  | H : bind _ _ _ = Raise _ _ |- _ =>
      let a := fresh "a" in let s := fresh "s" in let H1 := fresh "Hrun" in
      apply bind_Raise_inv in H as [H|(a & s & H1 & H)]
  | H : ret _ _ = Raise _ _ |- _ => discriminate H
  | H : global _ _ = Raise _ _ |- _ => discriminate H
  | H : stuck _ = Raise _ _ |- _ => discriminate H
  | H : out_of_fuel _ = Raise _ _ |- _ => discriminate H
  | H : jl_printf _ _ = Raise _ _ |- _ => discriminate H
  | H : new_binding _ _ _ = Raise _ _ |- _ => discriminate H
  | H : jl_errorf _ _ = Raise _ _ |- _ => apply jl_errorf_Raise_inv in H as [? ?]; subst
  | H : deref _ _ = Raise _ _ |- _ => by apply deref_no_raise in H
  | H : deref_module _ _ = Raise _ _ |- _ => by apply deref_module_no_raise in H
  | H : assign _ _ _ = Raise _ _ |- _ => by apply assign_no_raise in H
  | H : assign_module _ _ _ = Raise _ _ |- _ => by apply assign_module_no_raise in H
  | H : module_name _ _ = Raise _ _ |- _ => by apply module_name_no_raise in H
  | H : module_name_of _ _ = Raise _ _ |- _ => by apply module_name_of_no_raise in H
  | H : jl_get_module_binding _ _ _ = Raise _ _ |- _ =>
      by apply jl_get_module_binding_no_raise in H
  | H : eq_bindings _ _ _ = Raise _ _ |- _ => by apply eq_bindings_no_raise in H
  | H : (if ?x then _ else _) _ = Raise _ _ |- _ => destruct x eqn:?
  | H : (match ?x with _ => _ end) _ = Raise _ _ |- _ => destruct x eqn:?
  end.

Ltac jl_rsplit := repeat (jl_rsplit1 || jl_split1).

Lemma jl_get_binding_wr_raise_inv s m var alloc e s' :
  owners_canonical s ->
  jl_get_binding_wr m var alloc s = Raise e s' -> inv s s'.
Proof.
  intros Hoc H. pose proof (inv_refl _ Hoc) as Hi.
  unfold jl_get_binding_wr in H. jl_rsplit; done.
Qed.

Lemma jl_binding_dep_message_raise_inv get m nm b s e s' :
  (forall m' v' s1 a s2, owners_canonical s1 -> get m' v' s1 = Ok a s2 -> inv s1 s2) ->
  (forall m' v' s1 e s2, owners_canonical s1 -> get m' v' s1 = Raise e s2 -> inv s1 s2) ->
  owners_canonical s ->
  jl_binding_dep_message get m nm b s = Raise e s' -> inv s s'.
Proof.
  intros Hget Hgetr Hoc H. unfold jl_binding_dep_message in H.
  apply bind_Raise_inv in H as [H|(dmb & s0 & Hg & H)]; [by eapply Hgetr|].
  apply Hget in Hg; [|done].
  jl_rsplit; inv_fwd; done.
Qed.

Lemma module_import__raise_inv get to from (ob : option nat) asname nm explici s e s' :
  (forall m' v' s1 a s2, owners_canonical s1 -> get m' v' s1 = Ok a s2 -> inv s1 s2) ->
  (forall m' v' s1 e s2, owners_canonical s1 -> get m' v' s1 = Raise e s2 -> inv s1 s2) ->
  owners_canonical s -> canonical_opt s ob ->
  module_import_ get to from ob asname nm explici s = Raise e s' -> inv s s'.
Proof.
  intros Hget Hgetr Hoc Hcan H. pose proof (inv_refl _ Hoc) as Hi.
  unfold module_import_ in H. destruct ob as [b|]; [|jl_rsplit; inv_fwd; done].
  simpl in Hcan.
  apply bind_Raise_inv in H as [H|(cb & s0 & Hcb & H)]; [by apply deref_no_raise in H|].
  apply deref_Ok_inv in Hcb as [-> Hcb].
  apply bind_Raise_inv in H as [H|(skip & s1 & Hskip & H)].
  - jl_rsplit; inv_fwd; try done.
    match goal with
    | Hd : jl_binding_dep_message _ _ _ _ ?s2 = Raise _ _, Hi' : inv s ?s2 |- _ =>
        eapply jl_binding_dep_message_raise_inv in Hd; [|done|done|by destruct Hi'];
        exact (inv_trans _ _ _ Hi' Hd)
    end.
  - (* past the deprecation warning nothing raises *)
    jl_rsplit; inv_fwd; done.
Qed.


Lemma using_body_raise_inv resolve m var st warn i (ob : option nat) owner_m s e s' :
  (forall imp s1 a s2, owners_canonical s1 -> resolve imp var st s1 = Ok a s2 ->
                       inv s1 s2 /\ canonical_opt s2 a) ->
  (forall imp s1 e s2, owners_canonical s1 -> resolve imp var st s1 = Raise e s2 ->
                       inv s1 s2) ->
  owners_canonical s ->
  using_body resolve m var st warn i ob owner_m s = Raise e s' -> inv s s'.
Proof.
  intros Hres Hresr Hoc H. pose proof (inv_refl _ Hoc) as Hi.
  unfold using_body in H.
  apply bind_Raise_inv in H as [H|(mo & s0 & Hmo & H)]; [by jl_rsplit|].
  apply deref_module_Ok_inv in Hmo as [-> Hmo].
  destruct (usings mo !! i) as [imp|]; [|done].
  apply bind_Raise_inv in H as [H|(tb & s0 & Htb & H)]; [by jl_rsplit|].
  apply jl_get_module_binding_Ok_inv in Htb as [-> _].
  destruct tb as [tb|]; [|by jl_rsplit].
  apply bind_Raise_inv in H as [H|(ctb & s0 & Hctb & H)]; [by jl_rsplit|].
  apply deref_Ok_inv in Hctb as [-> Hctb].
  destruct (exportp ctb); [|by jl_rsplit].
  apply bind_Raise_inv in H as [H|(tempb & s1 & Hr & H)]; [by eapply Hresr|].
  apply Hres in Hr as [Hi1 Hcan1]; [|done].
  destruct tempb as [tempb|]; [|by jl_rsplit].
  apply bind_Raise_inv in H as [H|(amb & s2 & Hamb & H)].
  { destruct ob; jl_rsplit. }
  assert (s2 = s1) as -> by (by destruct ob; jl_split).
  clear Hamb. destruct amb.
  - apply bind_Raise_inv in H as [H|(? & s2 & Hw & H)]; [|done].
    destruct warn; [|done].
    apply bind_Raise_inv in H as [H|(w & s3 & Hwr & H)].
    + apply jl_get_binding_wr_raise_inv in H; [|by destruct Hi1].
      exact (inv_trans _ _ _ Hi1 H).
    + jl_rsplit.
  - apply bind_Raise_inv in H as [H|(take & s2 & Htake & H)].
    + destruct owner_m; jl_rsplit.
    + destruct take; done.
Qed.

Lemma using_loop_raise_inv resolve m var st warn idx (ob : option nat) owner_m s e s' :
  (forall imp s1 a s2, owners_canonical s1 -> resolve imp var st s1 = Ok a s2 ->
                       inv s1 s2 /\ canonical_opt s2 a) ->
  (forall imp s1 e s2, owners_canonical s1 -> resolve imp var st s1 = Raise e s2 ->
                       inv s1 s2) ->
  owners_canonical s -> canonical_opt s ob ->
  using_loop resolve m var st warn idx ob owner_m s = Raise e s' -> inv s s'.
Proof.
  intros Hres Hresr. revert ob owner_m s.
  induction idx as [|i idx IH]; intros ob owner_m s Hoc Hcan H; simpl in H; [done|].
  apply bind_Raise_inv in H as [H|(r1 & s1 & Hbody & H)].
  - by eapply using_body_raise_inv.
  - apply using_body_inv in Hbody as [Hi1 Hcan1]; [|done..].
    destruct r1 as [ob1 o1|]; [|done].
    apply IH in H; [|by destruct Hi1|done]. exact (inv_trans _ _ _ Hi1 H).
Qed.

Lemma jl_resolve_owner_raise_inv fuel (ob : option nat) m var st s e s' :
  owners_canonical s ->
  jl_resolve_owner fuel ob m var st s = Raise e s' -> inv s s'.
Proof.
  revert ob m var st s e s'.
  induction fuel as [|fuel IH]; intros ob m var st s e s' Hoc H; [done|].
  rewrite jl_resolve_owner_S in H.
  apply bind_Raise_inv in H as [H|(o & s0 & Ho & H)].
  { destruct ob; jl_rsplit. }
  assert (s0 = s) as -> by (by destruct ob; jl_split).
  clear Ho. destruct o as [o|]; [done|].
  destruct (on_stack m var st); [done|].
  assert (HresOk : forall imp s1 a s2, owners_canonical s1 ->
            jl_resolve_owner fuel None imp var ((m, var) :: st) s1 = Ok a s2 ->
            inv s1 s2 /\ canonical_opt s2 a)
    by (intros; by eapply jl_resolve_owner_inv).
  apply bind_Raise_inv in H as [H|([b from] & s1 & Hscan & H)].
  - unfold using_resolve_binding in H.
    apply bind_Raise_inv in H as [H|(mo & s0 & Hmo & H)]; [by jl_rsplit|].
    apply deref_module_Ok_inv in Hmo as [-> Hmo].
    apply bind_Raise_inv in H as [H|(sc & s2 & Hloop & H)].
    + eapply using_loop_raise_inv in H; try done. intros; by eapply IH.
    + by destruct sc.
  - unfold using_resolve_binding in Hscan.
    apply bind_Ok_inv in Hscan as (mo & s0 & Hmo & Hscan).
    apply deref_module_Ok_inv in Hmo as [-> Hmo].
    apply bind_Ok_inv in Hscan as (sc & s2 & Hloop & Hscan).
    apply using_loop_inv in Hloop as [Hi2 Hsc]; try done.
    assert (s2 = s1 /\ canonical_opt s1 b) as [-> Hb].
    { destruct sc; apply ret_Ok_inv in Hscan as [? ?]; simplify_eq; done. }
    clear Hscan. cbn [fst snd] in H. destruct b as [b|]; [|done].
    apply bind_Raise_inv in H as [H|(? & s3 & Himp & H)]; [|done].
    apply module_import__raise_inv in H; try done.
    + exact (inv_trans _ _ _ Hi2 H).
    + intros; by eapply jl_resolve_owner_inv.
    + intros; by eapply IH.
    + by destruct Hi2.
Qed.

(** ** The entry points keep the owner chains one hop *)

Lemma ends_cases {A} (r : outcome A) s' :
  ends r s' -> (exists a, r = Ok a s') \/ (exists e, r = Raise e s').
Proof. destruct r; simpl; intros H; subst; eauto; done. Qed.

Lemma jl_get_binding_inv fuel m var s r s' :
  owners_canonical s -> jl_get_binding fuel m var s = Ok r s' ->
  inv s s' /\ canonical_opt s' r.
Proof. apply jl_resolve_owner_inv. Qed.

Lemma jl_get_binding_raise_inv fuel m var s e s' :
  owners_canonical s -> jl_get_binding fuel m var s = Raise e s' -> inv s s'.
Proof. apply jl_resolve_owner_raise_inv. Qed.

(** Writes that leave [owner] alone, whatever they write *)
Ltac inv_fwd2 :=
  match goal with
  | Hi : inv ?s0 ?s, H : assign _ _ ?s = Ok _ _ |- _ =>
      apply (inv_assign _ _ _ _ _ _ Hi) in H as [? ?]; [|done]
  | Hi : inv ?s0 ?s, H : jl_get_binding_wr _ _ _ ?s = Ok _ _ |- _ =>
      apply jl_get_binding_wr_inv in H; [|by destruct Hi];
      apply (inv_trans _ _ _ Hi) in H
  | Hi : inv ?s0 ?s, H : jl_get_binding_wr _ _ _ ?s = Raise _ _ |- _ =>
      apply jl_get_binding_wr_raise_inv in H; [|by destruct Hi];
      apply (inv_trans _ _ _ Hi) in H
  | Hi : inv ?s0 ?s, H : jl_get_binding _ _ _ ?s = Ok _ _ |- _ =>
      apply jl_get_binding_inv in H as [H ?]; [|by destruct Hi];
      apply (inv_trans _ _ _ Hi) in H
  | Hi : inv ?s0 ?s, H : jl_get_binding _ _ _ ?s = Raise _ _ |- _ =>
      apply jl_get_binding_raise_inv in H; [|by destruct Hi];
      apply (inv_trans _ _ _ Hi) in H
  end.
Ltac inv_fwd_all := repeat (inv_fwd1 || inv_fwd2).

Lemma get_binding_callbacks fuel :
  (forall m' v' s1 a s2, owners_canonical s1 -> jl_get_binding fuel m' v' s1 = Ok a s2 ->
                         inv s1 s2) /\
  (forall m' v' s1 e s2, owners_canonical s1 -> jl_get_binding fuel m' v' s1 = Raise e s2 ->
                         inv s1 s2).
Proof.
  split; intros; [by eapply jl_get_binding_inv|by eapply jl_get_binding_raise_inv].
Qed.

Lemma jl_binding_deprecation_warning_ends fuel m var b s s' :
  owners_canonical s ->
  ends (jl_binding_deprecation_warning (jl_get_binding fuel) m var b s) s' -> inv s s'.
Proof.
  intros Hoc H. pose proof (inv_refl _ Hoc) as Hi.
  destruct (get_binding_callbacks fuel) as [Hget Hgetr].
  unfold jl_binding_deprecation_warning in H.
  apply ends_cases in H as [[a H]|[e H]]; jl_rsplit; inv_fwd_all; try done.
  all: match goal with
       | Hd : jl_binding_dep_message _ _ _ _ ?s2 = Ok _ _, Hi' : inv _ ?s2 |- _ =>
           eapply jl_binding_dep_message_inv in Hd; [|done|by destruct Hi'];
           apply (inv_trans _ _ _ Hi') in Hd
       | Hd : jl_binding_dep_message _ _ _ _ ?s2 = Raise _ _, Hi' : inv _ ?s2 |- _ =>
           eapply jl_binding_dep_message_raise_inv in Hd; [|done|done|by destruct Hi'];
           apply (inv_trans _ _ _ Hi') in Hd
       end; inv_fwd_all; done.
Qed.


Lemma ends_Ok {A} (r : outcome A) a s' : r = Ok a s' -> ends r s'.
Proof. by intros ->. Qed.

Lemma ends_Raise {A} (r : outcome A) e s' : r = Raise e s' -> ends r s'.
Proof. by intros ->. Qed.

(** The calls that the entry points are made of *)
Ltac inv_fwd3 fuel :=
  match goal with
  | Hd : jl_binding_deprecation_warning _ _ _ _ ?s2 = Ok _ _, Hi' : inv _ ?s2 |- _ =>
      apply ends_Ok, jl_binding_deprecation_warning_ends in Hd; [|by destruct Hi'];
      apply (inv_trans _ _ _ Hi') in Hd
  | Hd : jl_binding_deprecation_warning _ _ _ _ ?s2 = Raise _ _, Hi' : inv _ ?s2 |- _ =>
      apply ends_Raise, jl_binding_deprecation_warning_ends in Hd; [|by destruct Hi'];
      apply (inv_trans _ _ _ Hi') in Hd
  | Hd : module_import_ _ _ _ _ _ _ _ ?s2 = Ok _ _, Hi' : inv _ ?s2 |- _ =>
      eapply module_import__inv in Hd;
      [|by apply (get_binding_callbacks fuel)|by destruct Hi'|done];
      apply (inv_trans _ _ _ Hi') in Hd
  | Hd : module_import_ _ _ _ _ _ _ _ ?s2 = Raise _ _, Hi' : inv _ ?s2 |- _ =>
      eapply module_import__raise_inv in Hd;
      [|by apply (get_binding_callbacks fuel)|by apply (get_binding_callbacks fuel)
       |by destruct Hi'|done];
      apply (inv_trans _ _ _ Hi') in Hd
  end.
Ltac inv_auto fuel := repeat (inv_fwd1 || inv_fwd2 || inv_fwd3 fuel).

Ltac api_start H :=
  let a := fresh "a" in let e := fresh "e" in
  apply ends_cases in H as [[a H]|[e H]].

Lemma jl_get_binding_wr_ends m var alloc s s' :
  owners_canonical s -> ends (jl_get_binding_wr m var alloc s) s' -> inv s s'.
Proof.
  intros Hoc H. api_start H.
  - by eapply jl_get_binding_wr_inv.
  - by eapply jl_get_binding_wr_raise_inv.
Qed.

Lemma jl_get_binding_for_method_def_ends m var s s' :
  owners_canonical s -> ends (jl_get_binding_for_method_def m var s) s' -> inv s s'.
Proof.
  intros Hoc H. pose proof (inv_refl _ Hoc) as Hi.
  unfold jl_get_binding_for_method_def in H.
  api_start H; jl_rsplit; try done.
  - match goal with
    | Ha : assign _ (set_owner _) _ = Ok _ _ |- _ =>
        eapply inv_assign_owner in Ha as (? & _); eauto
    end.
  - inv_fwd.
    match goal with
    | Ha : assign _ (set_owner _) _ = Ok _ _ |- _ =>
        eapply inv_assign_owner in Ha as (? & _); eauto
    end.
    inv_fwd. done.
Qed.

Lemma jl_get_binding_ends fuel m var s s' :
  owners_canonical s -> ends (jl_get_binding fuel m var s) s' -> inv s s'.
Proof.
  intros Hoc H. api_start H.
  - by eapply jl_get_binding_inv.
  - by eapply jl_get_binding_raise_inv.
Qed.

Lemma jl_get_binding_or_error_ends fuel m var s s' :
  owners_canonical s -> ends (jl_get_binding_or_error fuel m var s) s' -> inv s s'.
Proof.
  intros Hoc H. pose proof (inv_refl _ Hoc) as Hi.
  unfold jl_get_binding_or_error in H.
  api_start H; jl_rsplit; inv_auto fuel; done.
Qed.

Lemma jl_module_globalref_ends m var s s' :
  owners_canonical s -> ends (jl_module_globalref m var s) s' -> inv s s'.
Proof.
  intros Hoc H. pose proof (inv_refl _ Hoc) as Hi.
  unfold jl_module_globalref in H.
  api_start H; jl_rsplit; inv_auto 0; done.
Qed.

Lemma jl_module_import_ends fuel to from nm s s' :
  owners_canonical s -> ends (jl_module_import fuel to from nm s) s' -> inv s s'.
Proof.
  intros Hoc H. pose proof (inv_refl _ Hoc) as Hi.
  unfold jl_module_import in H.
  api_start H; jl_rsplit; inv_auto fuel; done.
Qed.

Lemma jl_module_import_as_ends fuel to from nm asname s s' :
  owners_canonical s -> ends (jl_module_import_as fuel to from nm asname s) s' -> inv s s'.
Proof.
  intros Hoc H. pose proof (inv_refl _ Hoc) as Hi.
  unfold jl_module_import_as in H.
  api_start H; jl_rsplit; inv_auto fuel; done.
Qed.

Lemma jl_module_use_ends fuel to from nm s s' :
  owners_canonical s -> ends (jl_module_use fuel to from nm s) s' -> inv s s'.
Proof.
  intros Hoc H. pose proof (inv_refl _ Hoc) as Hi.
  unfold jl_module_use in H.
  api_start H; jl_rsplit; inv_auto fuel; done.
Qed.

Lemma jl_module_use_as_ends fuel to from nm asname s s' :
  owners_canonical s -> ends (jl_module_use_as fuel to from nm asname s) s' -> inv s s'.
Proof.
  intros Hoc H. pose proof (inv_refl _ Hoc) as Hi.
  unfold jl_module_use_as in H.
  api_start H; jl_rsplit; inv_auto fuel; done.
Qed.

Lemma jl_binding_owner_ends fuel m var s s' :
  owners_canonical s -> ends (jl_binding_owner fuel m var s) s' -> inv s s'.
Proof.
  intros Hoc H. pose proof (inv_refl _ Hoc) as Hi.
  assert (HresOk : forall imp s1 a s2, owners_canonical s1 ->
            jl_resolve_owner fuel None imp var [] s1 = Ok a s2 ->
            inv s1 s2 /\ canonical_opt s2 a)
    by (intros; by eapply jl_resolve_owner_inv).
  assert (HresR : forall imp s1 e s2, owners_canonical s1 ->
            jl_resolve_owner fuel None imp var [] s1 = Raise e s2 -> inv s1 s2)
    by (intros; by eapply jl_resolve_owner_raise_inv).
  unfold jl_binding_owner, using_resolve_binding in H.
  api_start H; jl_rsplit; try done.
  all: repeat match goal with
       | Hl : using_loop _ _ _ _ _ _ _ _ _ = Ok _ _ |- _ =>
           eapply using_loop_inv in Hl as [Hl _]; [|done..]
       | Hl : using_loop _ _ _ _ _ _ _ _ _ = Raise _ _ |- _ =>
           eapply using_loop_raise_inv in Hl; [|done..]
       end; done.
Qed.

Lemma using_conflict_check_ends fuel to from slot s s' :
  owners_canonical s -> ends (using_conflict_check fuel to from slot s) s' -> inv s s'.
Proof.
  intros Hoc H. pose proof (inv_refl _ Hoc) as Hi.
  destruct slot as [var b]. unfold using_conflict_check in H.
  api_start H; jl_rsplit; inv_auto fuel; done.
Qed.

Lemma for_each_ends {A} (f : A -> Jl unit) (l : list A) s s' :
  (forall x s1 s2, owners_canonical s1 -> ends (f x s1) s2 -> inv s1 s2) ->
  owners_canonical s -> ends (for_each f l s) s' -> inv s s'.
Proof.
  intros Hf. revert s. induction l as [|x l IH]; intros s Hoc H; simpl in H.
  - subst. by apply inv_refl.
  - unfold bind in H. destruct (f x s) as [[] s1|e s1| |] eqn:Hx; try done.
    + apply ends_Ok, Hf in Hx; [|done]. apply IH in H; [|by destruct Hx].
      by eapply inv_trans.
    + simpl in H. subst. by apply ends_Raise, Hf in Hx.
Qed.

Lemma jl_module_using_ends fuel to from s s' :
  owners_canonical s -> ends (jl_module_using fuel to from s) s' -> inv s s'.
Proof.
  intros Hoc H. pose proof (inv_refl _ Hoc) as Hi.
  unfold jl_module_using in H.
  destruct (decide (to = from)); [simpl in H; by subst|].
  assert (Hloop : forall l s1 s2, owners_canonical s1 ->
            ends (for_each (using_conflict_check fuel to from) l s1) s2 -> inv s1 s2).
  { intros l s1 s2. apply for_each_ends. intros. by eapply using_conflict_check_ends. }
  api_start H; jl_rsplit; try done.
  all: match goal with
       | Hl : for_each _ _ _ = Ok _ _ |- _ => apply ends_Ok, Hloop in Hl; [|done]
       | Hl : for_each _ _ _ = Raise _ _ |- _ => apply ends_Raise, Hloop in Hl; [|done]
       end; inv_auto fuel; done.
Qed.

Lemma jl_module_export_ends from nm s s' :
  owners_canonical s -> ends (jl_module_export from nm s) s' -> inv s s'.
Proof.
  intros Hoc H. pose proof (inv_refl _ Hoc) as Hi.
  unfold jl_module_export in H.
  api_start H; jl_rsplit; inv_auto 0; done.
Qed.

Lemma jl_boundp_ends fuel m var s s' :
  owners_canonical s -> ends (jl_boundp fuel m var s) s' -> inv s s'.
Proof.
  intros Hoc H. pose proof (inv_refl _ Hoc) as Hi.
  unfold jl_boundp in H.
  api_start H; jl_rsplit; inv_auto fuel; done.
Qed.

Lemma jl_is_const_ends fuel m var s s' :
  owners_canonical s -> ends (jl_is_const fuel m var s) s' -> inv s s'.
Proof.
  intros Hoc H. pose proof (inv_refl _ Hoc) as Hi.
  unfold jl_is_const in H.
  api_start H; jl_rsplit; inv_auto fuel; done.
Qed.

Lemma jl_get_global_ends fuel m var s s' :
  owners_canonical s -> ends (jl_get_global fuel m var s) s' -> inv s s'.
Proof.
  intros Hoc H. pose proof (inv_refl _ Hoc) as Hi.
  unfold jl_get_global in H.
  api_start H; jl_rsplit; inv_auto fuel; done.
Qed.

Lemma jl_checked_assignment_ends b md var rhs s0 s s' :
  inv s0 s -> ends (jl_checked_assignment b md var rhs s) s' -> inv s0 s'.
Proof.
  intros Hi H.
  unfold jl_checked_assignment, cmpswap_ty, cmpswap_value in H.
  api_start H; jl_rsplit; inv_auto 0; done.
Qed.

Lemma jl_set_global_ends m var val s s' :
  owners_canonical s -> ends (jl_set_global m var val s) s' -> inv s s'.
Proof.
  intros Hoc H. pose proof (inv_refl _ Hoc) as Hi.
  unfold jl_set_global in H.
  api_start H; jl_rsplit; inv_auto 0; try done.
  all: match goal with
       | Hc : jl_checked_assignment _ _ _ _ _ = Ok _ _ |- _ =>
           eapply ends_Ok, jl_checked_assignment_ends in Hc; done
       | Hc : jl_checked_assignment _ _ _ _ _ = Raise _ _ |- _ =>
           eapply ends_Raise, jl_checked_assignment_ends in Hc; done
       end.
Qed.

Lemma jl_set_const_ends m var val s0 s s' :
  inv s0 s -> ends (jl_set_const m var val s) s' -> inv s0 s'.
Proof.
  intros Hi H.
  unfold jl_set_const, cmpswap_ty, cmpswap_value in H.
  api_start H; jl_rsplit; inv_auto 0; done.
Qed.

Lemma jl_declare_constant_ends b md var s s' :
  owners_canonical s -> ends (jl_declare_constant b md var s) s' -> inv s s'.
Proof.
  intros Hoc H. pose proof (inv_refl _ Hoc) as Hi.
  unfold jl_declare_constant in H.
  api_start H; jl_rsplit; inv_auto 0; done.
Qed.

Lemma jl_deprecate_binding_ends fuel m var flag s s' :
  owners_canonical s -> ends (jl_deprecate_binding fuel m var flag s) s' -> inv s s'.
Proof.
  intros Hoc H. pose proof (inv_refl _ Hoc) as Hi.
  unfold jl_deprecate_binding in H.
  api_start H; jl_rsplit; inv_auto fuel; done.
Qed.

Lemma jl_is_binding_deprecated_ends fuel m var s s' :
  owners_canonical s -> ends (jl_is_binding_deprecated fuel m var s) s' -> inv s s'.
Proof.
  intros Hoc H. pose proof (inv_refl _ Hoc) as Hi.
  unfold jl_is_binding_deprecated, jl_binding_resolved_p in H.
  api_start H; jl_rsplit; inv_auto fuel; done.
Qed.

Lemma jl_clear_implicit_imports_ends m s s' :
  owners_canonical s -> ends (jl_clear_implicit_imports m s) s' -> inv s s'.
Proof.
  intros Hoc H. pose proof (inv_refl _ Hoc) as Hi.
  unfold jl_clear_implicit_imports in H.
  destruct (modules s !! m); [|done]. destruct (bool_decide _); [|done].
  simpl in H. subst. by eapply inv_heap.
Qed.

Lemma jl_new_module__ends fuel nm (parent_m : option nat) default_names s s' :
  owners_canonical s ->
  ends (jl_new_module_ fuel nm parent_m default_names s) s' -> inv s s'.
Proof.
  intros Hoc H.
  assert (Hi : inv s (set_modules (modules s ++ [mk_module nm parent_m ∅ []]) s)).
  { eapply inv_heap; [by apply inv_refl|done]. }
  unfold jl_new_module_ in H.
  set (m := length (modules s)) in *.
  api_start H; jl_rsplit; try done.
  all: repeat match goal with
       | Hu : jl_module_using _ _ _ ?s2 = Ok _ _, Hi' : inv _ ?s2 |- _ =>
           apply ends_Ok, jl_module_using_ends in Hu; [|by destruct Hi'];
           apply (inv_trans _ _ _ Hi') in Hu
       | Hu : jl_module_using _ _ _ ?s2 = Raise _ _, Hi' : inv _ ?s2 |- _ =>
           apply ends_Raise, jl_module_using_ends in Hu; [|by destruct Hi'];
           apply (inv_trans _ _ _ Hi') in Hu
       | Hc : jl_set_const _ _ _ ?s2 = Ok _ _, Hi' : inv _ ?s2 |- _ =>
           eapply ends_Ok, jl_set_const_ends in Hc; [|exact Hi']
       | Hc : jl_set_const _ _ _ ?s2 = Raise _ _, Hi' : inv _ ?s2 |- _ =>
           eapply ends_Raise, jl_set_const_ends in Hc; [|exact Hi']
       | He : jl_module_export _ _ ?s2 = Ok _ _, Hi' : inv _ ?s2 |- _ =>
           apply ends_Ok, jl_module_export_ends in He; [|by destruct Hi'];
           apply (inv_trans _ _ _ Hi') in He
       | He : jl_module_export _ _ ?s2 = Raise _ _, Hi' : inv _ ?s2 |- _ =>
           apply ends_Raise, jl_module_export_ends in He; [|by destruct Hi'];
           apply (inv_trans _ _ _ Hi') in He
       end; done.
Qed.

Lemma ends_then_ret {A} (c0 : Jl A) s s' :
  ends (bind c0 (fun _ => ret tt) s) s' -> ends (c0 s) s'.
Proof. unfold bind. by destruct (c0 s). Qed.

(** Every entry point, however it ends, keeps the owner chains one hop
    and the bindings that own themselves. *)
Lemma run_api_inv fuel call s s' :
  owners_canonical s -> ends (run_api fuel call s) s' -> inv s s'.
Proof.
  intros Hoc H. destruct call; simpl in H; try apply ends_then_ret in H.
  - by eapply jl_new_module__ends.
  - by eapply jl_get_binding_wr_ends.
  - by eapply jl_get_binding_for_method_def_ends.
  - by eapply jl_get_binding_ends.
  - by eapply jl_get_binding_or_error_ends.
  - by eapply jl_binding_owner_ends.
  - by eapply jl_module_globalref_ends.
  - by eapply jl_module_import_ends.
  - by eapply jl_module_import_as_ends.
  - by eapply jl_module_use_ends.
  - by eapply jl_module_use_as_ends.
  - by eapply jl_module_using_ends.
  - by eapply jl_module_export_ends.
  - by eapply jl_boundp_ends.
  - by eapply jl_is_const_ends.
  - by eapply jl_get_global_ends.
  - by eapply jl_set_global_ends.
  - eapply jl_set_const_ends; [|done]. by apply inv_refl.
  - eapply jl_checked_assignment_ends; [|done]. by apply inv_refl.
  - by eapply jl_declare_constant_ends.
  - by eapply jl_deprecate_binding_ends.
  - by eapply jl_is_binding_deprecated_ends.
  - by eapply jl_clear_implicit_imports_ends.
Qed.

(** In every state of the process the owner chains are one hop (the
    invariant 2 of the data model). *)
Theorem reachable_owners_canonical s : reachable s -> owners_canonical s.
Proof.
  induction 1 as [dw ln|s fuel call s' _ IH Hrun|s main base core _ IH].
  - by apply Forall_nil.
  - by apply (run_api_inv _ _ _ _ IH Hrun).
  - exact IH.
Qed.

(** ** Used modules that have nothing left to resolve *)

Lemma eq_bindings_run s a b ca cb :
  heap s !! a = Some ca -> heap s !! b = Some cb ->
  eq_bindings a b s = Ok (eqb_cells a b ca cb) s.
Proof.
  intros Ha Hb. unfold eq_bindings, eqb_cells.
  destruct (decide (a = b)) as [->|Hne].
  - by rewrite bool_decide_eq_true_2.
  - rewrite (bool_decide_eq_false_2 (a = b)) by done.
    rewrite (bind_Ok _ _ _ _ _ (deref_Ok _ _ _ Ha)), (bind_Ok _ _ _ _ _ (deref_Ok _ _ _ Hb)).
    destruct (decide (owner ca = owner cb)).
    + by rewrite bool_decide_eq_true_2.
    + rewrite (bool_decide_eq_false_2 (owner ca = owner cb)) by done. simpl.
      by destruct (_ && _).
Qed.

Lemma same_refl s a : live s a -> same s a a.
Proof.
  intros (c & Hc & _). exists c, c. repeat split; try done.
  unfold eqb_cells. by rewrite bool_decide_eq_true_2.
Qed.

Lemma eqb_cells_canonical a b ca cb :
  owner ca = Some a -> owner cb = Some b ->
  eqb_cells a b ca cb = true <->
  a = b \/ (constp ca = true /\ constp cb = true /\ value ca <> None /\ value cb = value ca).
Proof.
  intros Ha Hb. unfold eqb_cells. rewrite Ha, Hb.
  rewrite !orb_true_iff, !andb_true_iff, !bool_decide_eq_true. split.
  - intros [[?|?]|(((? & ?) & ?) & ?)]; [by left|left; congruence|by right].
  - intros [?|(? & ? & ? & ?)]; [by left; left|by right].
Qed.

Lemma same_sym s a b : live s a -> live s b -> same s a b -> same s b a.
Proof.
  intros (ca & Ha & Hoa & _) (cb & Hb & Hob & _) (ca' & cb' & Ha' & Hb' & He).
  simplify_eq. exists cb, ca. repeat split; try done.
  apply (eqb_cells_canonical _ _ _ _ Hoa Hob) in He.
  apply (eqb_cells_canonical _ _ _ _ Hob Hoa).
  destruct He as [->|(? & ? & ? & Hv)]; [by left|right].
  repeat split; try done; congruence.
Qed.

Lemma same_trans s a b (d : nat) :
  live s a -> live s b -> live s d -> same s a b -> same s b d -> same s a d.
Proof.
  intros (ca & Ha & Hoa & _) (cb & Hb & Hob & _) (cc & Hc & Hoc & _)
         (ca' & cb' & Ha' & Hb' & He1) (cb'' & cc' & Hb'' & Hc' & He2).
  simplify_eq. exists ca, cc. repeat split; try done.
  apply (eqb_cells_canonical _ _ _ _ Hoa Hob) in He1.
  apply (eqb_cells_canonical _ _ _ _ Hob Hoc) in He2.
  apply (eqb_cells_canonical _ _ _ _ Hoa Hoc).
  destruct He1 as [Heq|(? & ? & ? & Hv1)]; [subst; simplify_eq; done|].
  destruct He2 as [Heq|(? & ? & ? & Hv2)]; [subst; simplify_eq; by right|right].
  repeat split; try done; congruence.
Qed.

Lemma candidate_at_Some s mo var i imp t :
  candidate_at s mo var i = Some (imp, t) ->
  usings mo !! i = Some imp /\
  exists mi tb ctb, modules s !! imp = Some mi /\ bindings mi !! var = Some tb /\
                    heap s !! tb = Some ctb /\ exportp ctb = true /\ owner ctb = Some t.
Proof.
  unfold candidate_at. intros H.
  destruct (usings mo !! i) as [imp'|]; [|done].
  destruct (modules s !! imp') as [mi|] eqn:Hmi; [|done].
  destruct (bindings mi !! var) as [tb|] eqn:Htb; [|done].
  destruct (heap s !! tb) as [ctb|] eqn:Hctb; [|done].
  destruct (exportp ctb) eqn:Hex; [|done].
  destruct (owner ctb) as [o|] eqn:Ho; [|done].
  simplify_eq. split; [done|]. eauto 10.
Qed.

(** A module of the [usings] without a candidate is passed over. *)
Lemma using_body_no_candidate resolve s m mo var st warn i imp (ob : option nat) owner_m :
  modules s !! m = Some mo -> resolved_exports s mo var ->
  usings mo !! i = Some imp -> candidate_at s mo var i = None ->
  using_body resolve m var st warn i ob owner_m s = Ok (Continue ob owner_m) s.
Proof.
  intros Hm Hflat Hi Hcand. destruct (Hflat _ _ Hi) as (mi & Hmi & Hcells).
  unfold candidate_at in Hcand. rewrite Hi, Hmi in Hcand.
  unfold using_body.
  rewrite (bind_Ok _ _ _ _ _ (deref_module_Ok _ _ _ Hm)), Hi.
  rewrite (bind_Ok _ _ _ _ _ (jl_get_module_binding_Ok _ _ _ var Hmi)).
  destruct (bindings mi !! var) as [tb|] eqn:Htb; [|done].
  destruct (Hcells _ eq_refl) as (ctb & Hctb & Hres). rewrite Hctb in Hcand.
  rewrite (bind_Ok _ _ _ _ _ (deref_Ok _ _ _ Hctb)).
  destruct (exportp ctb); [|done].
  destruct (Hres eq_refl) as (o & Ho & _). by rewrite Ho in Hcand.
Qed.

(** A candidate that is not in conflict with the one held: it is taken
    unless it is deprecated and one is held already. *)
Lemma using_body_candidate fuel s m mo var st warn i imp t ct (ob : option nat) owner_m :
  modules s !! m = Some mo ->
  candidate_at s mo var i = Some (imp, t) -> heap s !! t = Some ct ->
  match ob with
  | None => owner_m = None
  | Some b0 =>
      owner_m <> None /\
      exists cb0, heap s !! b0 = Some cb0 /\
        (deprecated ct = 0%Z -> deprecated cb0 = 0%Z -> eqb_cells t b0 ct cb0 = true)
  end ->
  using_body (jl_resolve_owner (S fuel) None) m var st warn i ob owner_m s =
    Ok (match ob with
        | None => Continue (Some t) (Some imp)
        | Some _ => if nonzero (deprecated ct) then Continue ob owner_m
                    else Continue (Some t) (Some imp)
        end) s.
Proof.
  intros Hm Hcand Hct Hob.
  apply candidate_at_Some in Hcand as (Hi & mi & tb & ctb & Hmi & Htb & Hctb & Hex & Ho).
  unfold using_body.
  rewrite (bind_Ok _ _ _ _ _ (deref_module_Ok _ _ _ Hm)), Hi.
  rewrite (bind_Ok _ _ _ _ _ (jl_get_module_binding_Ok _ _ _ var Hmi)), Htb.
  rewrite (bind_Ok _ _ _ _ _ (deref_Ok _ _ _ Hctb)), Hex.
  rewrite (bind_Ok _ _ _ _ _ (jl_resolve_owner_resolved fuel _ _ _ _ st _ _ _ Hmi Htb Hctb Ho)).
  destruct ob as [b0|].
  - destruct Hob as (Hom & cb0 & Hcb0 & Hsame).
    destruct owner_m as [om|]; [|done].
    rewrite ?bind_assoc, (bind_Ok _ _ _ _ _ (deref_Ok _ _ _ Hct)).
    destruct (nonzero (deprecated ct)) eqn:Hdt.
    + rewrite bind_ret. cbv beta iota.
      rewrite ?bind_assoc, (bind_Ok _ _ _ _ _ (deref_Ok _ _ _ Hct)), bind_ret, Hdt. done.
    + assert (Hdt0 : deprecated ct = 0%Z).
      { unfold nonzero in Hdt. apply negb_false_iff, Z.eqb_eq in Hdt. done. }
      rewrite ?bind_assoc, (bind_Ok _ _ _ _ _ (deref_Ok _ _ _ Hcb0)).
      destruct (nonzero (deprecated cb0)) eqn:Hdb.
      * rewrite bind_ret. cbv beta iota.
        rewrite ?bind_assoc, (bind_Ok _ _ _ _ _ (deref_Ok _ _ _ Hct)), bind_ret, Hdt. done.
      * assert (Hdb0 : deprecated cb0 = 0%Z).
        { unfold nonzero in Hdb. apply negb_false_iff, Z.eqb_eq in Hdb. done. }
        rewrite ?bind_assoc, (bind_Ok _ _ _ _ _ (eq_bindings_run _ _ _ _ _ Hct Hcb0)).
        rewrite (Hsame Hdt0 Hdb0). change (negb true) with false.
        rewrite ?bind_assoc, bind_ret. cbv beta iota.
        rewrite ?bind_assoc, (bind_Ok _ _ _ _ _ (deref_Ok _ _ _ Hct)), bind_ret, Hdt. done.
  - subst owner_m. rewrite bind_ret. cbv beta iota. by rewrite bind_ret.
Qed.

Section Scan.
Variables (fuel : nat) (s : jl_state) (m : mptr) (mo : jl_module_t) (var : jl_sym_t).
Hypothesis (Hm : modules s !! m = Some mo).
Hypothesis (Hflat : resolved_exports s mo var).

Lemma candidate_canonical i imp t :
  candidate_at s mo var i = Some (imp, t) -> canonical s t.
Proof.
  intros (Hi & mi & tb & ctb & Hmi & Htb & Hctb & Hex & Ho)%candidate_at_Some.
  destruct (Hflat _ _ Hi) as (mi' & Hmi' & Hcells). simplify_eq.
  destruct (Hcells _ Htb) as (ctb' & Hctb' & Hres). simplify_eq.
  destruct (Hres Hex) as (o & Ho' & Hcan). by simplify_eq.
Qed.

Lemma not_live_deprecated t ct :
  heap s !! t = Some ct -> nonzero (deprecated ct) = true -> ~ live s t.
Proof.
  intros Hct Hd (c' & Hc' & _ & Hz). simplify_eq. by rewrite Hz in Hd.
Qed.

Lemma nonzero_false z : nonzero z = false -> z = 0%Z.
Proof. unfold nonzero. by intros ?%negb_false_iff%Z.eqb_eq. Qed.

Lemma using_scan idx (ob owner_m : option nat) :
  (forall k, k ∈ idx -> k < length (usings mo)) ->
  scan_holds s ob owner_m ->
  scan_conflict fuel s m mo var idx ob owner_m \/ scan_agree s mo var idx ob.
Proof.
  revert ob owner_m. induction idx as [|i idx IH]; intros ob owner_m Hidx Hheld.
  { right. split; intros *; by intros ?%elem_of_nil. }
  assert (Hi : i < length (usings mo)) by (apply Hidx; left).
  assert (Hrest : forall k, k ∈ idx -> k < length (usings mo)) by (intros; apply Hidx; by right).
  apply lookup_lt_is_Some in Hi as [imp Himp].
  (* what the rest of the scan gives, once the turn at [i] is known *)
  assert (Hnext : forall ob1 o1,
            using_body (jl_resolve_owner (S fuel) None) m var [(m, var)] true i ob owner_m s
              = Ok (Continue ob1 o1) s ->
            scan_holds s ob1 o1 ->
            (scan_agree s mo var idx ob1 -> scan_agree s mo var (i :: idx) ob) ->
            scan_conflict fuel s m mo var (i :: idx) ob owner_m \/
            scan_agree s mo var (i :: idx) ob).
  { intros ob1 o1 Hbody Hheld1 Hagree.
    destruct (IH ob1 o1 Hrest Hheld1) as [Hc|Ha]; [left|right; by apply Hagree].
    destruct Hc as (pre & j & post & b & om & impj & tempb & -> & Hloop & Hrestc).
    exists (i :: pre), j, post, b, om, impj, tempb. split; [done|]. split; [|done].
    simpl. by rewrite (bind_Ok _ _ _ _ _ Hbody). }
  destruct (candidate_at s mo var i) as [[imp' t]|] eqn:Hcand.
  2:{ (* no candidate at [i] *)
      eapply (Hnext ob owner_m); [by eapply using_body_no_candidate|done|].
      intros [Ha1 Ha2]. split.
      - intros k impk tk b0 [->|Hk]%elem_of_cons Hck Hl Hob Hl0; [congruence|by eapply Ha1].
      - intros k k' impk impk' tk tk' [->|Hk]%elem_of_cons [->|Hk']%elem_of_cons Hck Hck' Hl Hl';
          try congruence. exact (Ha2 _ _ _ _ _ _ Hk Hk' Hck Hck' Hl Hl'). }
  pose proof (candidate_canonical _ _ _ Hcand) as Hcan.
  unfold canonical in Hcan. destruct (heap s !! t) as [ct|] eqn:Hct; [|done].
  assert (Hmem : forall k impk tk, k ∈ i :: idx -> candidate_at s mo var k = Some (impk, tk) ->
            tk = t \/ k ∈ idx).
  { intros k impk tk [->|Hk]%elem_of_cons Hck; [left; congruence|by right]. }
  destruct (nonzero (deprecated ct)) eqn:Hdt.
  - (* a deprecated candidate: it is no conflict *)
    pose proof (not_live_deprecated _ _ Hct Hdt) as Hnl.
    assert (Hagree : forall ob1, (forall b0, ob = Some b0 -> ob1 = ob) ->
              scan_agree s mo var idx ob1 -> scan_agree s mo var (i :: idx) ob).
    { intros ob1 Hob1 [Ha1 Ha2]. split.
      - intros k impk tk b0 Hk Hck Hlive Hob Hb0.
        destruct (Hmem _ _ _ Hk Hck) as [->|Hk']; [done|].
        rewrite <- (Hob1 _ Hob) in Hob.
        exact (Ha1 _ _ _ _ Hk' Hck Hlive Hob Hb0).
      - intros k k' impk impk' tk tk' Hk Hk' Hck Hck' Hl Hl'.
        destruct (Hmem _ _ _ Hk Hck) as [->|Hk1]; [done|].
        destruct (Hmem _ _ _ Hk' Hck') as [->|Hk1']; [done|].
        exact (Ha2 _ _ _ _ _ _ Hk1 Hk1' Hck Hck' Hl Hl'). }
    destruct ob as [b0|].
    + destruct Hheld as [Hom Hb0].
      eapply (Hnext (Some b0) owner_m); [|done|by apply Hagree].
      rewrite (using_body_candidate fuel s m mo var _ true i imp' t ct (Some b0) owner_m);
        try done; [by rewrite Hdt|].
      split; [done|]. unfold canonical in Hb0.
      destruct (heap s !! b0) as [cb0|]; [|done]. exists cb0. split; [done|].
      intros Hz. by rewrite Hz in Hdt.
    + unfold scan_holds in Hheld. subst owner_m.
      eapply (Hnext (Some t) (Some imp')); [| |by apply Hagree].
      * by rewrite (using_body_candidate fuel s m mo var _ true i imp' t ct None None).
      * split; [done|]. unfold canonical. by rewrite Hct.
  - (* a candidate that is not deprecated *)
    apply nonzero_false in Hdt as Hdt0.
    assert (Hlt : live s t) by (exists ct; done).
    assert (Hafter : scan_agree s mo var idx (Some t) ->
              (forall b0, ob = Some b0 -> live s b0 -> same s t b0) ->
              scan_agree s mo var (i :: idx) ob).
    { intros [Ha1 Ha2] Hb0. split.
      - intros k impk tk b0 Hk Hck Hlive Hob Hlb0.
        destruct (Hmem _ _ _ Hk Hck) as [->|Hk']; [by apply Hb0|].
        eapply (same_trans _ _ t); try done; [by eapply Ha1|by apply Hb0].
      - intros k k' impk impk' tk tk' Hk Hk' Hck Hck' Hl Hl'.
        destruct (Hmem _ _ _ Hk Hck) as [->|Hk1];
          destruct (Hmem _ _ _ Hk' Hck') as [->|Hk1'].
        + by apply same_refl.
        + apply same_sym; try done. by eapply Ha1.
        + by eapply Ha1.
        + exact (Ha2 _ _ _ _ _ _ Hk1 Hk1' Hck Hck' Hl Hl'). }
    assert (Hheld1 : scan_holds s (Some t) (Some imp')).
    { split; [done|]. unfold canonical. by rewrite Hct. }
    destruct ob as [b0|].
    + destruct Hheld as [Hom Hb0]. unfold canonical in Hb0.
      destruct (heap s !! b0) as [cb0|] eqn:Hcb0; [|done].
      destruct (nonzero (deprecated cb0)) eqn:Hdb.
      * (* the one held is deprecated: the new one replaces it *)
        eapply (Hnext (Some t) (Some imp')); [|exact Hheld1|].
        -- rewrite (using_body_candidate fuel s m mo var _ true i imp' t ct (Some b0) owner_m);
             try done; [by rewrite ?Hdt|].
           split; [done|]. exists cb0. split; [done|]. intros _ Hz. by rewrite Hz in Hdb.
        -- intros Ha. apply Hafter; [done|]. intros b0' [= <-] Hl.
           destruct (not_live_deprecated _ _ Hcb0 Hdb Hl).
      * apply nonzero_false in Hdb as Hdb0.
        assert (Hlb : live s b0) by (exists cb0; done).
        destruct (eqb_cells t b0 ct cb0) eqn:Heq.
        -- (* the same binding again: the new one is held *)
           eapply (Hnext (Some t) (Some imp')); [|exact Hheld1|].
           ++ rewrite (using_body_candidate fuel s m mo var _ true i imp' t ct (Some b0) owner_m);
                try done; [by rewrite ?Hdt|].
              split; [done|]. exists cb0. done.
           ++ intros Ha. apply Hafter; [done|]. intros b0' [= <-] _.
              exists ct, cb0. done.
        -- (* two candidates that differ *)
           left. exists [], i, idx, b0, owner_m, imp', t.
           repeat split; try done. rewrite <- Heq. by apply eq_bindings_run.
    + unfold scan_holds in Hheld. subst owner_m.
      eapply (Hnext (Some t) (Some imp')); [|exact Hheld1|].
      * by rewrite (using_body_candidate fuel s m mo var _ true i imp' t ct None None).
      * intros Ha. by apply Hafter.
Qed.

End Scan.

(** If the modules that [m] is using have nothing left to resolve for
    [var], and two of them export it with owners that are not deprecated
    and that [eq_bindings] tells apart, then the search of
    [jl_get_binding] does find two such candidates. *)
Lemma resolved_exports_find_two_candidates fuel s m mo var i j impi impj a b :
  modules s !! m = Some mo -> resolved_exports s mo var ->
  candidate_at s mo var i = Some (impi, a) ->
  candidate_at s mo var j = Some (impj, b) ->
  live s a -> live s b -> eq_bindings a b s = Ok false s ->
  exists b0 imp tempb, finds_two_candidates (S fuel) m var s b0 imp tempb s.
Proof.
  intros Hm Hflat Hci Hcj Hla Hlb Hne.
  assert (Hin : forall k impk tk, candidate_at s mo var k = Some (impk, tk) ->
            k ∈ downto (length (usings mo))).
  { intros k impk tk [Hk _]%candidate_at_Some. unfold downto.
    apply list_elem_of_In. rewrite <- in_rev, in_seq. apply lookup_lt_Some in Hk. lia. }
  destruct (using_scan fuel s m mo var Hm Hflat (downto (length (usings mo))) None None)
    as [Hc|[_ Ha]].
  - intros k Hk. unfold downto in Hk.
    apply list_elem_of_In in Hk. rewrite <- in_rev, in_seq in Hk. lia.
  - done.
  - destruct Hc as (pre & k & post & b0 & om & imp & tempb & Hidx & Hloop & Hck & Hlt & Hlb0 & Heq).
    exists b0, imp, tempb.
    apply candidate_at_Some in Hck as (Hk & mi & tb & ctb & Hmi & Htb & Hctb & Hex & Ho).
    destruct Hlt as (ct & Hct & _ & Hdt). destruct Hlb0 as (cb & Hcb & _ & Hdb).
    exists mo, pre, k, post, om, s, mi, tb, ctb, ct, cb.
    repeat split; try done.
    by eapply jl_resolve_owner_resolved.
  - specialize (Ha i j impi impj a b (Hin _ _ _ Hci) (Hin _ _ _ Hcj) Hci Hcj Hla Hlb).
    destruct Ha as (ca & cb & Hca & Hcb & He).
    rewrite (eq_bindings_run _ _ _ _ _ Hca Hcb), He in Hne. done.
Qed.

(** * The rest of the file *)

(** ** Sub-modules *)

Lemma jl_is_submodule_S fuel (child parent_m : option nat) :
  jl_is_submodule (S fuel) child parent_m =
    if decide (parent_m = child) then ret true
    else
      match child with
      | None => ret false
      | Some ch =>
          let* mo := deref_module ch in
          if decide (parent mo = Some ch) then ret false
          else jl_is_submodule fuel (parent mo) parent_m
      end.
Proof. done. Qed.

Lemma jl_is_submodule_state fuel (child parent_m : option nat) s r s' :
  jl_is_submodule fuel child parent_m s = Ok r s' -> s' = s.
Proof.
  revert child. induction fuel as [|fuel IH]; intros child; [done|].
  rewrite jl_is_submodule_S. destruct (decide _); [by intros [= _ <-]|].
  destruct child as [ch|]; [|by intros [= _ <-]].
  intros (mo & s0 & [-> Hmo]%deref_module_Ok_inv & H)%bind_Ok_inv.
  destruct (decide _); [by injection H as _ <-|]. by eapply IH.
Qed.

Lemma jl_is_submodule_fuel fuel fuel' (child parent_m : option nat) s r s' :
  fuel <= fuel' ->
  jl_is_submodule fuel child parent_m s = Ok r s' ->
  jl_is_submodule fuel' child parent_m s = Ok r s'.
Proof.
  revert fuel' child. induction fuel as [|fuel IH]; intros fuel' child Hle; [done|].
  destruct fuel' as [|fuel']; [lia|]. rewrite !jl_is_submodule_S.
  destruct (decide _); [done|]. destruct child as [ch|]; [|done].
  intros (mo & s0 & [-> Hmo]%deref_module_Ok_inv & H)%bind_Ok_inv.
  rewrite (bind_Ok _ _ _ _ _ (deref_module_Ok _ _ _ Hmo)).
  destruct (decide _); [done|]. apply IH; [lia|done].
Qed.

(** [jl_is_submodule] is reflexive, for NULL as well, and transitive:
    from a run that finds [a] below [b] and one that finds [b] below [c],
    [a] is found below [c], in no more turns of the loop than the two
    runs took together.  It never changes the state. *)
Theorem jl_is_submodule_preorder fuel1 fuel2 (a b d : option nat) s :
  jl_is_submodule (S fuel1) a a s = Ok true s /\
  (forall r s', jl_is_submodule fuel1 a b s = Ok r s' -> s' = s) /\
  (jl_is_submodule fuel1 a b s = Ok true s ->
   jl_is_submodule fuel2 b d s = Ok true s ->
   jl_is_submodule (fuel1 + fuel2) a d s = Ok true s).
Proof.
  split; [|split].
  - rewrite jl_is_submodule_S. by rewrite decide_True.
  - intros r s'. apply jl_is_submodule_state.
  - revert a. induction fuel1 as [|fuel1 IH]; intros a H1 H2; [done|].
    rewrite jl_is_submodule_S in H1.
    destruct (decide (b = a)) as [->|Hne].
    { eapply jl_is_submodule_fuel; [|done]. lia. }
    destruct a as [ch|]; [|done].
    apply bind_Ok_inv in H1 as (mo & s0 & [-> Hmo]%deref_module_Ok_inv & H1).
    destruct (decide (parent mo = Some ch)); [done|].
    change (S fuel1 + fuel2) with (S (fuel1 + fuel2)). rewrite jl_is_submodule_S.
    destruct (decide (d = Some ch)); [done|].
    rewrite (bind_Ok _ _ _ _ _ (deref_module_Ok _ _ _ Hmo)).
    rewrite decide_False by done. by apply IH.
Qed.

(** ** The list of used modules *)

Lemma usings_loop_downto mo n (a : list nat) s :
  n <= length (usings mo) ->
  usings_loop mo (downto n) a s = Ok (a ++ rev (take n (usings mo))) s.
Proof.
  revert a. induction n as [|n IH]; intros a Hn.
  - simpl. by rewrite app_nil_r.
  - unfold downto. rewrite seq_S, rev_app_distr. simpl.
    destruct (lookup_lt_is_Some_2 (usings mo) n) as [x Hx]; [lia|].
    rewrite Hx. fold (downto n). rewrite IH by lia.
    rewrite (take_S_r _ _ _ Hx), rev_app_distr. simpl. by rewrite <- app_assoc.
Qed.

(** [jl_module_usings] returns the used modules last one first, the
    order in which [using_resolve_binding] goes through them. *)
Theorem jl_module_usings_rev s m mo :
  modules s !! m = Some mo ->
  jl_module_usings m s = Ok (rev (usings mo)) s.
Proof.
  intros Hm. unfold jl_module_usings.
  rewrite (bind_Ok _ _ _ _ _ (deref_module_Ok _ _ _ Hm)).
  rewrite usings_loop_downto by done. by rewrite firstn_all.
Qed.

(** ** The list of names *)

Lemma names_slot_Ok_inv s m all imported_p (a : list string) slot r s' :
  names_slot m all imported_p a slot s = Ok r s' ->
  s' = s /\ is_Some (heap s !! slot.2) /\
  r = if slot_listed s m all imported_p slot then a ++ [slot.1] else a.
Proof.
  destruct slot as [nm b]. unfold names_slot, slot_listed. simpl.
  intros (c & s0 & [-> Hb]%deref_Ok_inv & H)%bind_Ok_inv.
  apply bind_Ok_inv in H as (main & s0 & [-> ->]%global_Ok_inv & H).
  rewrite Hb. unfold listed. split; [|split; [done|]].
  - destruct (_ && _); by injection H.
  - destruct (_ && _); by injection H.
Qed.

Lemma names_loop_Ok_inv s m all imported_p slots (a : list string) r s' :
  names_loop m all imported_p slots a s = Ok r s' ->
  s' = s /\
  r = a ++ (filter (fun slot => slot_listed s m all imported_p slot = true) slots).*1.
Proof.
  revert a. induction slots as [|slot slots IH]; intros a; simpl.
  - intros [= <- <-]. by rewrite app_nil_r.
  - intros (a' & s1 & (-> & _ & ->)%names_slot_Ok_inv & (-> & ->)%IH)%bind_Ok_inv.
    split; [done|]. rewrite filter_cons.
    destruct (decide _) as [Hl|Hl].
    + rewrite Hl. simpl. by rewrite <- app_assoc.
    + apply not_true_is_false in Hl. by rewrite Hl.
Qed.

Lemma names_loop_returns s m all imported_p slots (a : list string) :
  Forall (fun slot => is_Some (heap s !! slot.2)) slots ->
  exists r, names_loop m all imported_p slots a s = Ok r s.
Proof.
  revert a. induction slots as [|[nm b] slots IH]; intros a Hall; simpl; [by eexists|].
  inversion Hall as [|? ? [c Hc] Hall']; subst. simpl in Hc.
  unfold names_slot.
  rewrite ?bind_assoc, (bind_Ok _ _ _ _ _ (deref_Ok _ _ _ Hc)).
  unfold global at 1. unfold bind at 1. unfold bind at 1.
  destruct (_ && _); simpl; by apply IH.
Qed.

Lemma jl_module_names_Ok_inv s m mo all imported_p r s' :
  modules s !! m = Some mo ->
  jl_module_names m all imported_p s = Ok r s' ->
  s' = s /\ NoDup r /\
  forall nm, nm ∈ r <->
    exists b c, bindings mo !! nm = Some b /\ heap s !! b = Some c /\
                listed s m all imported_p nm b c = true.
Proof.
  intros Hm. unfold jl_module_names.
  rewrite (bind_Ok _ _ _ _ _ (deref_module_Ok _ _ _ Hm)).
  intros [-> ->]%names_loop_Ok_inv. split; [done|]. simpl. split.
  - eapply NoDup_fmap_fst; [|apply NoDup_filter, NoDup_map_to_list].
    intros nm b1 b2 [_ H1%elem_of_map_to_list]%list_elem_of_filter
                    [_ H2%elem_of_map_to_list]%list_elem_of_filter. congruence.
  - intros nm. rewrite list_elem_of_fmap. split.
    + intros ([nm' b] & -> & [Hl Hin%elem_of_map_to_list]%list_elem_of_filter).
      unfold slot_listed in Hl. simpl in *.
      destruct (heap s !! b) as [c|] eqn:Hc; [|done]. eauto.
    + intros (b & c & Hb & Hc & Hl). exists (nm, b). split; [done|].
      apply list_elem_of_filter. split; [|by apply elem_of_map_to_list].
      unfold slot_listed. simpl. by rewrite Hc.
Qed.

(** [jl_module_names] leaves the state alone and returns, each once, the
    names of the table of [m] whose cell passes the test of the loop: the
    cell is exported, or it is an explicit import and [imported] is asked
    for, or it is owned by [m], not an import, and [all] is set or [m] is
    the main module; and, unless [all] is set, the binding is not deprecated
    and the name does not begin with '#'.  It does return when the table
    holds allocated bindings. *)
Theorem jl_module_names_spec s m mo all imported_p :
  modules s !! m = Some mo ->
  (forall r s',
     jl_module_names m all imported_p s = Ok r s' ->
     s' = s /\ NoDup r /\
     forall nm, nm ∈ r <->
       exists b c, bindings mo !! nm = Some b /\ heap s !! b = Some c /\
                   listed s m all imported_p nm b c = true) /\
  (map_Forall (fun _ b => is_Some (heap s !! b)) (bindings mo) ->
   exists r, jl_module_names m all imported_p s = Ok r s).
Proof.
  intros Hm. split.
  - intros r s'. by apply jl_module_names_Ok_inv.
  - intros Hall. unfold jl_module_names.
    rewrite (bind_Ok _ _ _ _ _ (deref_module_Ok _ _ _ Hm)).
    apply names_loop_returns. apply Forall_forall.
    intros [nm b] Hin%elem_of_map_to_list. by eapply Hall.
Qed.


(** ** Global references *)

Lemma jl_resolve_owner_of_cell fuel s m mo var b st :
  modules s !! m = Some mo -> bindings mo !! var = Some b ->
  jl_resolve_owner fuel (Some b) m var st s = jl_resolve_owner fuel None m var st s.
Proof.
  intros Hm Hv. destruct fuel as [|fuel]; [done|]. rewrite !jl_resolve_owner_S.
  apply bind_eq. by rewrite (bind_Ok _ _ _ _ _ (jl_get_module_binding_Ok _ _ _ var Hm)), Hv.
Qed.

(** Through the global reference of the cell that [m] has for [var], the
    queries are the queries by name: [jl_globalref_boundp] is [jl_boundp],
    [jl_globalref_is_const] is [jl_is_const], with the same effect on the
    state; and [jl_get_globalref_value] is the value of the binding that
    [jl_get_binding] finds, whether that binding is deprecated or not:
    it prints no deprecation warning and raises no error of its own. *)
Theorem jl_globalref_by_name fuel s m mo var b :
  modules s !! m = Some mo -> bindings mo !! var = Some b ->
  let gr := jl_new_globalref m var b in
  jl_globalref_boundp fuel gr s = jl_boundp fuel m var s /\
  jl_globalref_is_const fuel gr s = jl_is_const fuel m var s /\
  (forall s', jl_get_binding fuel m var s = Ok None s' ->
              jl_get_globalref_value fuel gr s = Ok None s') /\
  (forall b' c' s', jl_get_binding fuel m var s = Ok (Some b') s' ->
                    heap s' !! b' = Some c' ->
                    jl_get_globalref_value fuel gr s = Ok (value c') s').
Proof.
  intros Hm Hv gr.
  pose proof (jl_resolve_owner_of_cell fuel s m mo var b [] Hm Hv) as Heq.
  unfold jl_globalref_boundp, jl_globalref_is_const, jl_get_globalref_value,
    jl_boundp, jl_is_const, jl_get_binding. simpl.
  repeat split.
  - by apply bind_eq.
  - by apply bind_eq.
  - intros s' H. by rewrite (bind_Ok _ _ _ None s') by by rewrite Heq.
  - intros b' c' s' H Hc'. rewrite (bind_Ok _ _ _ (Some b') s') by by rewrite Heq.
    by rewrite (bind_Ok _ _ _ _ _ (deref_Ok _ _ _ Hc')).
Qed.

(** ** Module options *)

Lemma inherited_S field os fuel m value :
  inherited field os (S fuel) m value =
    if bool_decide (value = (-1)%Z) then
      let* mo := deref_module m in
      if bool_decide (parent mo <> Some m) then
        let* base := global jl_base_module in
        if bool_decide (Some m <> base) then
          match parent mo with
          | Some p =>
              match module_opts os !! p with
              | Some o => inherited field os fuel p (field o)
              | None => stuck
              end
          | None => stuck
          end
        else ret value
      else ret value
    else ret value.
Proof. done. Qed.

(** A getter of a setting returns the setting of the nearest module, up
    the chain of parents, that has one; the chain ends, whatever the
    setting there, at a module that is its own parent and at the base
    module.  ([field] is [optlevel], [compile], [infer] or [max_methods];
    the loop takes one turn for each module of the chain.) *)
Theorem get_setting_nearest field os s m path last v fuel :
  unset_chain field os s m path last ->
  setting_stops field os s last v ->
  get_setting field os (S (length path) + fuel) m s = Ok v s.
Proof.
  intros Hchain (ol & Hol & Hv & Hstop). revert m Hchain.
  induction path as [|p path IH]; intros m Hchain; simpl in Hchain.
  - subst m. unfold get_setting. rewrite Hol, Hv. simpl plus. rewrite inherited_S.
    destruct (bool_decide (v = (-1)%Z)) eqn:Hb; [|done].
    apply bool_decide_eq_true in Hb.
    destruct Hstop as [?|(mo & Hmo & Hroot)]; [done|].
    rewrite (bind_Ok _ _ _ _ _ (deref_module_Ok _ _ _ Hmo)).
    destruct (bool_decide (parent mo <> Some last)) eqn:Hp; [|done].
    apply bool_decide_eq_true in Hp. destruct Hroot as [?|Hbase]; [done|].
    unfold global at 1. unfold bind at 1.
    by rewrite bool_decide_eq_false_2 by (by intros ?).
  - destruct Hchain as [(mo & o & Hmo & Ho & Hf & Hp & Hne & Hbase) Hchain].
    specialize (IH _ Hchain). unfold get_setting in *. rewrite Ho, Hf.
    change (S (length (p :: path)) + fuel) with (S (S (length path) + fuel)).
    rewrite inherited_S. rewrite bool_decide_eq_true_2 by done.
    rewrite (bind_Ok _ _ _ _ _ (deref_module_Ok _ _ _ Hmo)).
    rewrite bool_decide_eq_true_2 by (rewrite Hp; congruence).
    unfold global at 1. unfold bind at 1.
    rewrite bool_decide_eq_true_2 by done. rewrite Hp.
    destruct (module_opts os !! p); [done|]. done.
Qed.

(** Each setter of a setting writes the field of that module and no
    other field of it; [jl_set_module_infer] with 0 turns [nospecialize]
    on as well.  The getter then returns the value set, unless that is -1.
    (The values are those that the fields hold: [int8_t] in [julia.h].) *)
Theorem jl_set_module_setting_get os m o value :
  module_opts os !! m = Some o ->
  (-128 <= value <= 127)%Z ->
  (exists os',
     jl_set_module_optlevel m value os = Some os' /\
     module_opts os' !! m = Some (set_optlevel value o) /\
     (value <> (-1)%Z ->
      forall fuel s, jl_get_module_optlevel os' (S fuel) m s = Ok value s)) /\
  (exists os',
     jl_set_module_compile m value os = Some os' /\
     module_opts os' !! m = Some (set_compile value o) /\
     (value <> (-1)%Z ->
      forall fuel s, jl_get_module_compile os' (S fuel) m s = Ok value s)) /\
  (exists os',
     jl_set_module_max_methods m value os = Some os' /\
     module_opts os' !! m = Some (set_max_methods value o) /\
     (value <> (-1)%Z ->
      forall fuel s, jl_get_module_max_methods os' (S fuel) m s = Ok value s)) /\
  (exists os',
     jl_set_module_infer m value os = Some os' /\
     module_opts os' !! m =
       Some (if decide (value = 0%Z) then set_nospecialize (-1) (set_infer value o)
             else set_infer value o) /\
     (value <> (-1)%Z ->
      forall fuel s, jl_get_module_infer os' (S fuel) m s = Ok value s)).
Proof.
  intros Ho _.
  assert (Hlt : m < length (module_opts os)) by by eapply lookup_lt_Some.
  assert (Hget : forall field f os',
            module_opts os' !! m = Some (f o) -> field (f o) = value ->
            value <> (-1)%Z ->
            forall fuel s, get_setting field os' (S fuel) m s = Ok value s).
  { intros field f os' Hm Hf Hne fuel s. unfold get_setting. rewrite Hm, Hf, inherited_S.
    by rewrite bool_decide_eq_false_2. }
  repeat split.
  - eexists. unfold jl_set_module_optlevel, assign_opts. rewrite Ho.
    split; [done|]. simpl. rewrite list_lookup_insert_eq by done. split; [done|].
    intros Hne fuel s. eapply (Hget optlevel (set_optlevel value)); try done.
    simpl. by rewrite list_lookup_insert_eq.
  - eexists. unfold jl_set_module_compile, assign_opts. rewrite Ho.
    split; [done|]. simpl. rewrite list_lookup_insert_eq by done. split; [done|].
    intros Hne fuel s. eapply (Hget compile (set_compile value)); try done.
    simpl. by rewrite list_lookup_insert_eq.
  - eexists. unfold jl_set_module_max_methods, assign_opts. rewrite Ho.
    split; [done|]. simpl. rewrite list_lookup_insert_eq by done. split; [done|].
    intros Hne fuel s. eapply (Hget max_methods (set_max_methods value)); try done.
    simpl. by rewrite list_lookup_insert_eq.
  - unfold jl_set_module_infer, jl_set_module_nospecialize, assign_opts. rewrite Ho.
    unfold nonzero. destruct (decide (value = 0%Z)) as [->|Hz].
    + simpl. rewrite list_lookup_insert_eq by done. eexists. split; [done|]. simpl.
      rewrite list_insert_insert_eq, list_lookup_insert_eq by done. split; [done|].
      intros Hne fuel s.
      eapply (Hget infer (fun o => set_nospecialize (-1) (set_infer 0 o))); try done.
      simpl. by rewrite list_lookup_insert_eq.
    + rewrite (proj2 (Z.eqb_neq _ _) Hz). simpl. eexists. split; [done|]. simpl.
      rewrite list_lookup_insert_eq by done. split; [done|].
      intros Hne fuel s. eapply (Hget infer (set_infer value)); try done.
      simpl. by rewrite list_lookup_insert_eq.
Qed.

(** [jl_module_next_counter] returns the counter of the module and adds
    one to it, going back to 0 after [2^32 - 1]; the counters of the other
    modules stay as they are. *)
Theorem jl_module_next_counter_wraps os m o :
  module_opts os !! m = Some o ->
  (0 <= counter o < 2 ^ 32)%Z ->
  exists os' o',
    jl_module_next_counter m os = Some (counter o, os') /\
    module_opts os' !! m = Some o' /\
    counter o' = (if decide (counter o = 2 ^ 32 - 1) then 0 else counter o + 1)%Z /\
    (0 <= counter o' < 2 ^ 32)%Z /\
    (forall m', m' <> m -> module_opts os' !! m' = module_opts os !! m').
Proof.
  intros Ho Hrange. unfold jl_module_next_counter. rewrite Ho.
  assert (Hlt : m < length (module_opts os)) by by eapply lookup_lt_Some.
  eexists _, _. split; [done|]. simpl. rewrite list_lookup_insert_eq by done.
  split; [done|]. simpl. repeat split.
  - destruct (decide _) as [->|Hne]; [done|]. apply Z.mod_small. lia.
  - apply Z.mod_pos_bound. lia.
  - apply Z.mod_pos_bound. lia.
  - intros m' Hne. by rewrite list_lookup_insert_ne.
Qed.

(** ** Running the code forwards *)

Lemma bind_global {A B} (f : jl_state -> A) (k : A -> Jl B) s :
  bind (global f) k s = k (f s) s.
Proof. done. Qed.

(** One step of a run from a state whose cells and modules are at hand *)
Ltac jl_fwd1 :=
  match goal with
  | |- context [bind (bind _ _) _ _] => rewrite bind_assoc
  | |- context [bind (ret _) _ _] => rewrite bind_ret
  | |- context [bind (global _) _ _] => rewrite bind_global
  | H : heap ?s !! ?b = Some _ |- context [bind (deref ?b) _ ?s] =>
      rewrite (bind_Ok _ _ _ _ _ (deref_Ok _ _ _ H))
  | H : modules ?s !! ?m = Some _ |- context [bind (deref_module ?m) _ ?s] =>
      rewrite (bind_Ok _ _ _ _ _ (deref_module_Ok _ _ _ H))
  | H : modules ?s !! ?m = Some _ |- context [bind (jl_get_module_binding ?m ?v) _ ?s] =>
      rewrite (bind_Ok _ _ _ _ _ (jl_get_module_binding_Ok _ _ _ v H))
  | H : modules ?s !! ?m = Some _ |- context [bind (module_name ?m) _ ?s] =>
      rewrite (bind_Ok _ _ _ _ _ (module_name_Ok _ _ _ H))
  | H : heap ?s !! ?b = Some _ |- context [bind (assign ?b ?f) _ ?s] =>
      rewrite (bind_Ok _ _ _ _ _ (assign_put _ _ _ f H))
  | |- context [bind (jl_printf ?ev) _ ?s] =>
      rewrite (bind_Ok _ _ _ _ _ (jl_printf_print s ev))
  | H : heap ?s !! ?b = Some _ |- context [assign ?b ?f ?s] =>
      rewrite (assign_put _ _ _ f H)
  | H : heap ?s !! ?b = Some _ |- context [deref ?b ?s] =>
      rewrite (deref_Ok _ _ _ H)
  | |- context [jl_printf ?ev ?s] => rewrite (jl_printf_print s ev)
  end.
Ltac jl_fwd := repeat jl_fwd1.

(** ** Queries on a name that is resolved *)

(** In a module whose cell [b] for [var] has its owner set, to [o]: every
    query is answered from the cell of [o] (or from [b] itself, for what
    is a property of the cell), at once and without a change of state. *)
Lemma queries_resolved fuel s m mo var b c o co :
  modules s !! m = Some mo -> bindings mo !! var = Some b ->
  heap s !! b = Some c -> owner c = Some o -> heap s !! o = Some co ->
  jl_get_binding (S fuel) m var s = Ok (Some o) s /\
  jl_get_binding_if_bound m var s = Ok (Some o) s /\
  jl_binding_owner fuel m var s = Ok (Some o) s /\
  jl_boundp (S fuel) m var s = Ok (bool_decide (value co <> None)) s /\
  jl_is_const (S fuel) m var s = Ok (constp co) s /\
  jl_is_binding_deprecated (S fuel) m var s = Ok (nonzero (deprecated co)) s /\
  jl_get_binding_type m var s = Ok (default jl_nothing (ty co)) s /\
  jl_get_module_of_binding (S fuel) m var s = Ok (Some (globalref co).1) s /\
  jl_binding_resolved_p m var s = Ok true s /\
  jl_module_exports_p m var s = Ok (exportp c) s /\
  jl_defines_or_exports_p m var s = Ok (exportp c || bool_decide (o = b)) s /\
  jl_is_imported m var s = Ok (imported c) s /\
  (deprecated co = 0%Z -> jl_get_global (S fuel) m var s = Ok (value co) s).
Proof.
  intros Hm Hv Hb Ho Hco.
  assert (Hget : jl_get_binding (S fuel) m var s = Ok (Some o) s)
    by by eapply jl_resolve_owner_resolved.
  repeat split.
  - done.
  - unfold jl_get_binding_if_bound. jl_fwd. rewrite Hv. jl_fwd. by rewrite Ho.
  - unfold jl_binding_owner. jl_fwd. rewrite Hv. jl_fwd.
    rewrite Ho. rewrite bool_decide_eq_false_2 by done. jl_fwd. by rewrite Ho.
  - unfold jl_boundp. rewrite (bind_Ok _ _ _ _ _ Hget). by jl_fwd.
  - unfold jl_is_const. rewrite (bind_Ok _ _ _ _ _ Hget). by jl_fwd.
  - unfold jl_is_binding_deprecated, jl_binding_resolved_p. jl_fwd. rewrite Hv. jl_fwd.
    rewrite Ho. rewrite bool_decide_eq_true_2 by done.
    rewrite (bind_Ok _ _ _ _ _ Hget). by jl_fwd.
  - unfold jl_get_binding_type. jl_fwd. rewrite Hv. jl_fwd. rewrite Ho. jl_fwd.
    by destruct (ty co).
  - unfold jl_get_module_of_binding. rewrite (bind_Ok _ _ _ _ _ Hget). by jl_fwd.
  - unfold jl_binding_resolved_p. jl_fwd. rewrite Hv. jl_fwd. rewrite Ho.
    by rewrite bool_decide_eq_true_2.
  - unfold jl_module_exports_p. jl_fwd. rewrite Hv. by jl_fwd.
  - unfold jl_defines_or_exports_p. jl_fwd. rewrite Hv. jl_fwd. rewrite Ho.
    unfold ret. do 3 f_equal. apply bool_decide_ext. split; congruence.
  - unfold jl_is_imported. jl_fwd. rewrite Hv. by jl_fwd.
  - intros Hd. unfold jl_get_global. rewrite (bind_Ok _ _ _ _ _ Hget). jl_fwd.
    rewrite Hd. change (nonzero 0) with false. cbv iota. by jl_fwd.
Qed.

(** ** Assignment to a variable *)

(** The test of [rhs] against the declared type, at the start of
    [jl_checked_assignment] *)
Lemma type_gate_run {B} s c md mdo var rhs (k : unit -> Jl B) :
  modules s !! md = Some mdo ->
  bind (match ty c with
        | None => ret tt
        | Some old_ty =>
            if bool_decide (old_ty <> jl_any_type) && bool_decide (jl_typeof rhs <> old_ty)
            then if jl_isa rhs old_ty then ret tt
                 else bind (module_name md) (fun mn => jl_errorf (TypeMismatch mn var))
            else ret tt
        end) k s =
  if declared_type_admits c rhs then k tt s else Raise (TypeMismatch (name mdo) var) s.
Proof.
  intros Hm. unfold declared_type_admits. destruct (ty c) as [t|]; [|done].
  destruct (bool_decide (t <> jl_any_type) && bool_decide (jl_typeof rhs <> t)); simpl; [|done].
  destruct (jl_isa rhs t); [done|].
  unfold bind at 1. unfold bind. by rewrite (module_name_Ok _ _ _ Hm).
Qed.

Lemma promoted_admits c rhs :
  declared_type_admits c rhs = false -> promoted c = c.
Proof. unfold declared_type_admits, promoted. by destruct (ty c). Qed.

Lemma jl_checked_assignment_variable_run s b c md mdo var rhs :
  heap s !! b = Some c -> constp c = false -> modules s !! md = Some mdo ->
  jl_checked_assignment b md var rhs s =
    if declared_type_admits c rhs
    then Ok tt (put b (set_value (Some rhs) (promoted c)) s)
    else Raise (TypeMismatch (name mdo) var) s.
Proof.
  intros Hb Hc Hm. unfold jl_checked_assignment.
  rewrite (bind_Ok _ _ _ _ _ (cmpswap_ty_run _ _ _ Hb)).
  assert (Hb1 : heap (put b (promoted c) s) !! b = Some (promoted c))
    by by eapply lookup_put_eq.
  assert (Hm1 : modules (put b (promoted c) s) !! md = Some mdo) by done.
  assert (Hc1 : constp (promoted c) = false).
  { unfold promoted. by destruct (ty c). }
  rewrite (type_gate_run _ c md mdo) by done.
  destruct (declared_type_admits c rhs) eqn:Ha.
  - jl_fwd. rewrite Hc1. jl_fwd. by rewrite put_put.
  - rewrite (promoted_admits _ _ Ha). by rewrite put_id.
Qed.

(** [jl_checked_assignment] to a binding that is not a constant: when
    the declared type admits [rhs] (it is unset, [jl_any_type], the type
    of [rhs], or [rhs] is an instance of it) the value is stored, whatever
    the value before, nothing is printed, and a declared type that was
    unset becomes [jl_any_type]; when it does not, the call raises
    TypeMismatch and changes nothing. *)
Theorem jl_checked_assignment_variable s b c md mdo var rhs :
  heap s !! b = Some c -> constp c = false -> modules s !! md = Some mdo ->
  jl_checked_assignment b md var rhs s =
    (if declared_type_admits c rhs
     then Ok tt (put b (set_value (Some rhs) (promoted c)) s)
     else Raise (TypeMismatch (name mdo) var) s) /\
  ty (set_value (Some rhs) (promoted c)) = Some (default jl_any_type (ty c)).
Proof.
  intros Hb Hc Hm. split; [by apply jl_checked_assignment_variable_run|].
  unfold promoted. by destruct (ty c) eqn:Ht.
Qed.

(** ** A new global *)

Lemma lookup_with_new_cell_value s m mo var c' :
  modules s !! m = Some mo ->
  let b := length (heap s) in
  let s1 := put b c' (with_new_cell m mo var s) in
  modules s1 !! m = Some (set_bindings (<[var := b]> (bindings mo)) mo) /\
  bindings (set_bindings (<[var := b]> (bindings mo)) mo) !! var = Some b /\
  heap s1 !! b = Some c'.
Proof.
  intros Hm b s1. split; [by apply with_new_cell_module|].
  split; [apply lookup_insert_eq|].
  eapply lookup_put_eq. apply with_new_cell_heap.
Qed.

(** [jl_set_global] of a name that [m] has no cell for: the binding is
    made, owned by [m], with the value and the declared type
    [jl_any_type]; nothing is printed.  After it [jl_get_global] returns
    the value, [jl_boundp] is true, [jl_is_const] false, the binding's
    module is [m]; and a second [jl_set_global], whatever the value,
    replaces the value without a warning. *)
Theorem jl_set_global_then_get s m mo var v :
  modules s !! m = Some mo -> bindings mo !! var = None ->
  let b := length (heap s) in
  let cell v := set_value (Some v) (promoted (fresh_cell m var b)) in
  let s1 := put b (cell v) (with_new_cell m mo var s) in
  jl_set_global m var v s = Ok tt s1 /\
  stderr s1 = stderr s /\
  (forall fuel,
     jl_get_global (S fuel) m var s1 = Ok (Some v) s1 /\
     jl_boundp (S fuel) m var s1 = Ok true s1 /\
     jl_is_const (S fuel) m var s1 = Ok false s1 /\
     jl_get_module_of_binding (S fuel) m var s1 = Ok (Some m) s1) /\
  jl_get_binding_type m var s1 = Ok jl_any_type s1 /\
  (forall v2, jl_set_global m var v2 s1
              = Ok tt (put b (cell v2) (with_new_cell m mo var s))).
Proof.
  intros Hm Hv b cell s1.
  destruct (lookup_with_new_cell_value s m mo var (cell v) Hm) as (Hm1 & Hv1 & Hb1).
  fold b in Hm1, Hv1, Hb1. fold s1 in Hm1, Hb1.
  pose proof (with_new_cell_module s m mo var Hm) as Hm0.
  pose proof (with_new_cell_heap s m mo var) as Hb0. fold b in Hm0, Hb0.
  destruct (queries_resolved 0 s1 m _ var b (cell v) b (cell v) Hm1 Hv1 Hb1 eq_refl Hb1)
    as (_ & _ & _ & _ & _ & _ & Hty & _).
  split; [|split; [done|split; [|split]]].
  - unfold jl_set_global.
    rewrite (bind_Ok _ _ _ _ _ (jl_get_binding_wr_absent _ _ _ _ true Hm Hv)).
    by rewrite (jl_checked_assignment_variable_run _ _ _ _ _ _ _ Hb0 eq_refl Hm0).
  - intros fuel.
    destruct (queries_resolved fuel s1 m _ var b (cell v) b (cell v) Hm1 Hv1 Hb1 eq_refl Hb1)
      as (_ & _ & _ & Hbound & Hconst & _ & _ & Hmod & _ & _ & _ & _ & Hval).
    split; [by apply Hval|]. split; [|done]. rewrite Hbound.
    by rewrite bool_decide_eq_true_2.
  - exact Hty.
  - intros v2. unfold jl_set_global.
    pose proof (jl_get_binding_wr_present _ _ _ _ true _ _ Hm1 Hv1 Hb1) as Hwr.
    cbn [owner cell set_value promoted fresh_cell set_ty ty] in Hwr.
    rewrite decide_True in Hwr by done. rewrite (bind_Ok _ _ _ _ _ Hwr).
    rewrite (jl_checked_assignment_variable_run _ _ _ _ _ _ _ Hb1 eq_refl Hm1).
    unfold declared_type_admits. cbn [ty cell set_value promoted fresh_cell set_ty].
    rewrite bool_decide_eq_false_2 by (by intros ?). simpl.
    unfold s1. by rewrite put_put.
Qed.

(** ** Names that do not resolve *)

(** A name without a definition in a module that is using nothing: the
    search finds nothing and changes nothing, at the first frame. *)
Lemma jl_get_binding_no_usings fuel s m mo var :
  modules s !! m = Some mo -> unresolved s mo var -> usings mo = [] ->
  jl_get_binding (S fuel) m var s = Ok None s.
Proof.
  intros Hm Hu Hus. unfold jl_get_binding. rewrite jl_resolve_owner_S.
  assert (Hscan : using_resolve_binding (jl_resolve_owner fuel None) m var None
                    [(m, var)] true s = Ok (None, None) s).
  { unfold using_resolve_binding. jl_fwd. by rewrite Hus. }
  jl_fwd. unfold unresolved in Hu. destruct (bindings mo !! var) as [b|].
  - destruct (heap s !! b) as [c|] eqn:Hb; [|done]. jl_fwd. rewrite Hu.
    change (on_stack m var []) with false. cbv iota.
    by rewrite (bind_Ok _ _ _ _ _ Hscan).
  - jl_fwd. change (on_stack m var []) with false. cbv iota.
    by rewrite (bind_Ok _ _ _ _ _ Hscan).
Qed.

(** [jl_get_binding_or_error] raises UndefinedVarError, in the state the
    lookup left, when the lookup returns NULL; so it does, with nothing
    changed, for a name without a definition in a module that is using
    nothing.  A binding that is not deprecated is returned as the lookup
    found it. *)
Theorem jl_get_binding_or_error_undefined fuel s m mo var :
  modules s !! m = Some mo ->
  (forall s', jl_get_binding fuel m var s = Ok None s' ->
              jl_get_binding_or_error fuel m var s = Raise (UndefinedVarError var) s') /\
  (forall b c s', jl_get_binding fuel m var s = Ok (Some b) s' ->
                  heap s' !! b = Some c -> deprecated c = 0%Z ->
                  jl_get_binding_or_error fuel m var s = Ok b s') /\
  (unresolved s mo var -> usings mo = [] -> fuel <> 0 ->
   jl_get_binding_or_error fuel m var s = Raise (UndefinedVarError var) s).
Proof.
  intros Hm. unfold jl_get_binding_or_error. repeat split.
  - intros s' H. by rewrite (bind_Ok _ _ _ _ _ H).
  - intros b c s' H Hc Hd. rewrite (bind_Ok _ _ _ _ _ H). jl_fwd.
    rewrite Hd. change (nonzero 0) with false. cbv iota. by jl_fwd.
  - intros Hu Hus Hf. destruct fuel as [|fuel]; [done|].
    by rewrite (bind_Ok _ _ _ _ _ (jl_get_binding_no_usings fuel _ _ _ _ Hm Hu Hus)).
Qed.

(** ** Export *)

Lemma jl_module_export_absent s m mo nm :
  modules s !! m = Some mo -> bindings mo !! nm = None ->
  jl_module_export m nm s = Ok tt (with_placeholder m mo nm s).
Proof.
  intros Hm Hv. unfold jl_module_export. jl_fwd. rewrite Hv.
  unfold bind, new_binding, assign, assign_module, ret; simpl.
  rewrite Hm. simpl. rewrite lookup_app_r, Nat.sub_diag by lia. simpl.
  unfold with_placeholder, set_modules, set_heap; simpl. do 2 f_equal.
  by rewrite insert_app_r_alt, Nat.sub_diag by lia.
Qed.

Lemma jl_module_export_present s m mo nm b c :
  modules s !! m = Some mo -> bindings mo !! nm = Some b -> heap s !! b = Some c ->
  jl_module_export m nm s = Ok tt (put b (set_exportp true c) s).
Proof. intros Hm Hv Hb. unfold jl_module_export. jl_fwd. rewrite Hv. by jl_fwd. Qed.

Lemma with_placeholder_lookup s m mo nm :
  modules s !! m = Some mo ->
  let s1 := with_placeholder m mo nm s in
  let b := length (heap s) in
  modules s1 !! m = Some (set_bindings (<[nm := b]> (bindings mo)) mo) /\
  bindings (set_bindings (<[nm := b]> (bindings mo)) mo) !! nm = Some b /\
  heap s1 !! b = Some (exported_placeholder m nm).
Proof.
  intros Hm s1 b. split; [|split].
  - simpl. apply list_lookup_insert_eq. by eapply lookup_lt_Some.
  - apply lookup_insert_eq.
  - simpl. rewrite lookup_app_r by lia. by rewrite Nat.sub_diag.
Qed.

(** [jl_module_export] of a name that [m] has a cell for sets the
    exported flag of that cell and nothing else.  For a name that [m] has
    no cell for, it makes a cell that is exported and has no owner: the
    name is exported, but it is not resolved, it has no binding, and in a
    module that is using nothing the lookup finds nothing.  Exporting the
    name again changes nothing. *)
Theorem jl_module_export_placeholder s m mo nm :
  modules s !! m = Some mo ->
  (forall b c, bindings mo !! nm = Some b -> heap s !! b = Some c ->
     jl_module_export m nm s = Ok tt (put b (set_exportp true c) s)) /\
  (bindings mo !! nm = None ->
   let s1 := with_placeholder m mo nm s in
   jl_module_export m nm s = Ok tt s1 /\
   jl_module_exports_p m nm s1 = Ok true s1 /\
   jl_defines_or_exports_p m nm s1 = Ok true s1 /\
   jl_binding_resolved_p m nm s1 = Ok false s1 /\
   jl_get_binding_if_bound m nm s1 = Ok None s1 /\
   jl_module_export m nm s1 = Ok tt s1 /\
   (usings mo = [] ->
    forall fuel, jl_get_binding (S fuel) m nm s1 = Ok None s1 /\
                 jl_boundp (S fuel) m nm s1 = Ok false s1)).
Proof.
  intros Hm. split; [intros b c; by apply jl_module_export_present|].
  intros Hv s1. destruct (with_placeholder_lookup s m mo nm Hm) as (Hm1 & Hv1 & Hb1).
  fold s1 in Hm1, Hb1. repeat split.
  - by apply jl_module_export_absent.
  - unfold jl_module_exports_p. jl_fwd. rewrite Hv1. by jl_fwd.
  - unfold jl_defines_or_exports_p. jl_fwd. rewrite Hv1. by jl_fwd.
  - unfold jl_binding_resolved_p. jl_fwd. rewrite Hv1. by jl_fwd.
  - unfold jl_get_binding_if_bound. jl_fwd. rewrite Hv1. by jl_fwd.
  - rewrite (jl_module_export_present _ _ _ _ _ _ Hm1 Hv1 Hb1). by rewrite put_id.
  - eapply jl_get_binding_no_usings; [done| |done].
    unfold unresolved. rewrite Hv1, Hb1. done.
  - unfold jl_boundp. rewrite (bind_Ok _ _ _ None s1); [done|].
    eapply jl_get_binding_no_usings; [done| |done].
    unfold unresolved. rewrite Hv1, Hb1. done.
Qed.

Lemma jl_module_export_Ok_inv s m nm s1 :
  jl_module_export m nm s = Ok tt s1 ->
  exists mo1 b c, modules s1 !! m = Some mo1 /\ bindings mo1 !! nm = Some b /\
                  heap s1 !! b = Some c /\ exportp c = true /\
                  jl_main_module s1 = jl_main_module s.
Proof.
  unfold jl_module_export.
  intros (ob & s0 & [-> (mo & Hm & ->)]%jl_get_module_binding_Ok_inv & H)%bind_Ok_inv.
  destruct (bindings mo !! nm) as [b|] eqn:Hv.
  - rewrite bind_ret in H. apply assign_Ok_inv in H as (c & Hc & ->).
    exists mo, b, (set_exportp true c). split; [done|]. split; [done|].
    split; [by eapply lookup_put_eq|done].
  - pose proof (jl_module_export_absent s m mo nm Hm Hv) as Hrun.
    unfold jl_module_export in Hrun. revert Hrun. jl_fwd. rewrite Hv. intros Hrun.
    rewrite Hrun in H. injection H as <-.
    destruct (with_placeholder_lookup s m mo nm Hm) as (Hm1 & Hv1 & Hb1).
    eexists _, _, _. split; [exact Hm1|]. split; [exact Hv1|]. split; [exact Hb1|done].
Qed.

(** After [jl_module_export(m, nm)], [jl_module_names] of [m] lists [nm]
    whenever [all] is set, and otherwise exactly when the cell is not
    deprecated and [nm] does not begin with '#': being exported is enough,
    whether the name has a binding or not. *)
Theorem jl_module_export_listed s m nm s1 all imported_p r :
  jl_module_export m nm s = Ok tt s1 ->
  jl_module_names m all imported_p s1 = Ok r s1 ->
  exists mo1 b c,
    modules s1 !! m = Some mo1 /\ bindings mo1 !! nm = Some b /\ heap s1 !! b = Some c /\
    (nm ∈ r <-> all = true \/ (deprecated c = 0%Z /\ hidden_name nm = false)).
Proof.
  intros (mo1 & b & c & Hm1 & Hv1 & Hb1 & Hex & _)%jl_module_export_Ok_inv Hnames.
  exists mo1, b, c. split; [done|]. split; [done|]. split; [done|].
  apply (jl_module_names_Ok_inv _ _ mo1) in Hnames as (_ & _ & Hr); [|done].
  rewrite Hr. split.
  - intros (b' & c' & Hb' & Hc' & Hl). simplify_eq. unfold listed in Hl.
    rewrite Hex in Hl. simpl in Hl. apply orb_true_iff in Hl as [Hl|Hl]; [by left|right].
    apply andb_true_iff in Hl as [Hd Hh]. apply negb_true_iff in Hd, Hh.
    split; [by apply nonzero_false|done].
  - intros Hcase. exists b, c. split; [done|]. split; [done|]. unfold listed.
    rewrite Hex. simpl. destruct Hcase as [->|[Hd Hh]]; [done|].
    rewrite Hd, Hh. change (nonzero 0) with false. by rewrite orb_true_r.
Qed.

(** ** Binding for assignment, without allocation *)

(** [jl_get_binding_wr] with [alloc = 0] never raises and never makes a
    cell: for a name without a cell it returns NULL and changes nothing;
    for a cell whose owner is another binding it returns that cell itself,
    not its owner; and a cell without an owner it still claims for [m]. *)
Theorem jl_get_binding_wr_no_alloc s m mo var :
  modules s !! m = Some mo ->
  (forall e s', jl_get_binding_wr m var false s <> Raise e s') /\
  (bindings mo !! var = None -> jl_get_binding_wr m var false s = Ok None s) /\
  (forall b c, bindings mo !! var = Some b -> heap s !! b = Some c ->
     jl_get_binding_wr m var false s =
       Ok (Some b) (match owner c with
                    | None => put b (set_owner (Some b) c) s
                    | Some _ => s
                    end)).
Proof.
  intros Hm. split; [|split].
  - intros e s' H. destruct (bindings mo !! var) as [b|] eqn:Hv.
    + destruct (heap s !! b) as [c|] eqn:Hb.
      * rewrite (jl_get_binding_wr_present _ _ _ _ _ _ _ Hm Hv Hb) in H.
        destruct (owner c); [destruct (decide _)|]; done.
      * unfold jl_get_binding_wr in H. revert H. jl_fwd. rewrite Hv.
        unfold bind, deref. by rewrite Hb.
    + by rewrite (jl_get_binding_wr_absent _ _ _ _ _ Hm Hv) in H.
  - intros Hv. by rewrite (jl_get_binding_wr_absent _ _ _ _ _ Hm Hv).
  - intros b c Hv Hb. rewrite (jl_get_binding_wr_present _ _ _ _ _ _ _ Hm Hv Hb).
    destruct (owner c); [by destruct (decide _)|done].
Qed.

(** ** Deprecation queries *)

(** [jl_is_binding_deprecated] does not resolve anything: for a name
    that has no cell in [m], or a cell without an owner, it is false and
    the state is as before, with no turn of the resolver taken, whatever
    the modules that [m] is using export.  For a name that is resolved it
    is the flag of the owner. *)
Theorem jl_is_binding_deprecated_unresolved fuel s m mo var :
  modules s !! m = Some mo ->
  (unresolved s mo var -> jl_is_binding_deprecated fuel m var s = Ok false s) /\
  (forall b c o co,
     bindings mo !! var = Some b -> heap s !! b = Some c -> owner c = Some o ->
     heap s !! o = Some co ->
     jl_is_binding_deprecated (S fuel) m var s = Ok (nonzero (deprecated co)) s).
Proof.
  intros Hm. split.
  - intros Hu. unfold jl_is_binding_deprecated, jl_binding_resolved_p. jl_fwd.
    unfold unresolved in Hu. destruct (bindings mo !! var) as [b|]; [|by jl_fwd].
    destruct (heap s !! b) as [c|] eqn:Hb; [|done]. jl_fwd. rewrite Hu.
    by rewrite bool_decide_eq_false_2 by (by intros ?).
  - intros b c o co Hv Hb Ho Hco.
    by destruct (queries_resolved fuel s m mo var b c o co Hm Hv Hb Ho Hco)
      as (_ & _ & _ & _ & _ & H & _).
Qed.

(** ** [eq_bindings] on bindings that own themselves *)


(** ** What [jl_module_using] changes *)

Lemma jl_module_using_Ok_inv fuel s to from s1 :
  to <> from -> jl_module_using fuel to from s = Ok tt s1 ->
  exists mto, modules s !! to = Some mto /\
    if bool_decide (from ∈ usings mto) then s1 = s
    else is_Some (modules s !! from) /\
         exists evs, s1 = set_modules (<[to := set_usings (usings mto ++ [from]) mto]> (modules s))
                            (printed evs s).
Proof.
  intros Hne. unfold jl_module_using. rewrite decide_False by done.
  intros (mto & s0 & [-> Hto]%deref_module_Ok_inv & H)%bind_Ok_inv.
  exists mto. split; [done|].
  destruct (bool_decide (from ∈ usings mto)); [by injection H|].
  apply bind_Ok_inv in H as (mfrom & s0 & [-> Hfrom]%deref_module_Ok_inv & H).
  apply bind_Ok_inv in H as ([] & s0 & Hloop & H).
  apply for_each_printed in Hloop as [evs ->];
    [|intros; by eapply using_conflict_check_Ok_inv].
  unfold assign_module in H. change (modules (printed evs s)) with (modules s) in H.
  rewrite Hto in H. injection H as <-. split; [done|]. by exists evs.
Qed.

(** [jl_module_using(to, from)] writes nothing but the [usings] of [to]
    and the warnings: the bindings, the tables of all modules and the
    [usings] of the other modules are as before, and what was printed
    before is still there. *)
Theorem jl_module_using_frame fuel s to from s1 :
  jl_module_using fuel to from s = Ok tt s1 ->
  heap s1 = heap s /\
  length (modules s1) = length (modules s) /\
  (forall m mo, modules s !! m = Some mo ->
     exists mo1, modules s1 !! m = Some mo1 /\
       name mo1 = name mo /\ parent mo1 = parent mo /\ bindings mo1 = bindings mo /\
       (m <> to -> mo1 = mo)) /\
  stderr s `prefix_of` stderr s1.
Proof.
  destruct (decide (to = from)) as [->|Hne].
  { unfold jl_module_using. rewrite decide_True by done. intros [= <-].
    repeat split; try done. intros m mo Hm. exists mo. done. }
  intros (mto & Hto & H)%jl_module_using_Ok_inv; [|done].
  destruct (bool_decide (from ∈ usings mto)).
  { subst s1. repeat split; try done. intros m mo Hm. exists mo. done. }
  destruct H as (_ & evs & ->). repeat split.
  - simpl. by rewrite length_insert.
  - intros m mo Hm. simpl. destruct (decide (m = to)) as [->|Hm'].
    + rewrite list_lookup_insert_eq by by eapply lookup_lt_Some. simplify_eq.
      eexists. split; [done|]. done.
    + rewrite list_lookup_insert_ne by done. exists mo. done.
  - simpl. by apply prefix_app_r.
Qed.

(** [jl_module_usings] lists the used modules last one first: a module
    that [jl_module_using] has just added comes first, before the modules
    that were listed until then.  That is the order in which the resolver
    goes through them. *)
Theorem jl_module_usings_latest_first fuel s to from mto s1 :
  modules s !! to = Some mto ->
  jl_module_usings to s = Ok (rev (usings mto)) s /\
  (jl_module_using fuel to from s = Ok tt s1 -> to <> from -> from ∉ usings mto ->
   jl_module_usings to s1 = Ok (from :: rev (usings mto)) s1).
Proof.
  intros Hto. split; [by apply jl_module_usings_rev|].
  intros H Hne Hnin.
  apply jl_module_using_Ok_inv in H as (mto' & Hto' & H); [|done]. simplify_eq.
  rewrite bool_decide_eq_false_2 in H by done. destruct H as (_ & evs & ->).
  erewrite jl_module_usings_rev.
  2:{ simpl. apply list_lookup_insert_eq. by eapply lookup_lt_Some. }
  simpl. by rewrite rev_app_distr.
Qed.

(** ** Clearing the implicit imports *)

Lemma jl_clear_implicit_imports_run s m mo :
  modules s !! m = Some mo ->
  map_Forall (fun _ b => is_Some (heap s !! b)) (bindings mo) ->
  jl_clear_implicit_imports m s =
    Ok tt (set_modules
             (<[m := set_bindings
                       (filter (fun kb : string * nat =>
                                  match heap s !! kb.2 with
                                  | Some c => bool_decide (owner c = Some kb.2) || imported c
                                  | None => true
                                  end = true) (bindings mo)) mo]> (modules s)) s).
Proof.
  intros Hm Hall. unfold jl_clear_implicit_imports. rewrite Hm.
  by rewrite bool_decide_eq_true_2.
Qed.

(** [jl_clear_implicit_imports(m)] takes out of the table of [m] the
    cells that neither own themselves nor are explicit imports, the cells
    without an owner among them, and keeps the others as they are.  It
    changes no binding, no other module and nothing else of [m]; and a
    second call changes nothing. *)
Theorem jl_clear_implicit_imports_spec s m mo :
  modules s !! m = Some mo ->
  map_Forall (fun _ b => is_Some (heap s !! b)) (bindings mo) ->
  exists s1 mo1,
    jl_clear_implicit_imports m s = Ok tt s1 /\
    heap s1 = heap s /\ stderr s1 = stderr s /\
    modules s1 = <[m := mo1]> (modules s) /\
    name mo1 = name mo /\ parent mo1 = parent mo /\ usings mo1 = usings mo /\
    (forall var b,
       bindings mo1 !! var = Some b <->
       bindings mo !! var = Some b /\
       exists c, heap s !! b = Some c /\ (owner c = Some b \/ imported c = true)) /\
    jl_clear_implicit_imports m s1 = Ok tt s1.
Proof.
  intros Hm Hall. rewrite (jl_clear_implicit_imports_run _ _ _ Hm Hall).
  set (keep := fun kb : string * nat =>
                 match heap s !! kb.2 with
                 | Some c => bool_decide (owner c = Some kb.2) || imported c
                 | None => true
                 end = true).
  set (mo1 := set_bindings (filter keep (bindings mo)) mo).
  assert (Hlt : m < length (modules s)) by by eapply lookup_lt_Some.
  assert (Hlook : forall var b,
            bindings mo1 !! var = Some b <->
            bindings mo !! var = Some b /\
            exists c, heap s !! b = Some c /\ (owner c = Some b \/ imported c = true)).
  { intros var b. unfold mo1. simpl. rewrite map_lookup_filter_Some. unfold keep. simpl.
    split.
    - intros [Hv Hk]. split; [done|]. destruct (Hall _ _ Hv) as [c Hc]. rewrite Hc in Hk.
      exists c. split; [done|]. apply orb_true_iff in Hk as [Hk|Hk]; [left|by right].
      by apply bool_decide_eq_true in Hk.
    - intros (Hv & c & Hc & Hk). split; [done|]. rewrite Hc. apply orb_true_iff.
      destruct Hk as [Hk|Hk]; [left|by right]. by apply bool_decide_eq_true. }
  eexists _, mo1. do 7 (split; [done|]). split; [exact Hlook|].
  { set (s1 := set_modules (<[m:=mo1]> (modules s)) s).
    assert (Hm1 : modules s1 !! m = Some mo1) by by apply list_lookup_insert_eq.
    assert (Hall1 : map_Forall (fun _ b => is_Some (heap s1 !! b)) (bindings mo1)).
    { intros var b [Hv _]%Hlook. by eapply Hall. }
    rewrite (jl_clear_implicit_imports_run _ _ _ Hm1 Hall1).
    f_equal. unfold s1, set_modules. simpl. f_equal.
    rewrite list_insert_insert_eq. f_equal. unfold mo1, set_bindings. simpl. f_equal.
    apply map_eq. intros var. apply option_eq. intros b.
    rewrite !map_lookup_filter_Some. tauto. }
Qed.

(** ** Declaring a constant *)

(** [jl_declare_constant] makes a constant of a binding that owns itself
    and has no value yet, or is a constant already, and changes nothing
    else; declaring it again is accepted.  It raises, and changes nothing,
    for a binding that does not own itself and for a variable that has a
    value: so it does after [jl_checked_assignment] has stored a value in a
    binding that was not a constant. *)
Theorem jl_declare_constant_cases s b c md mdo var :
  heap s !! b = Some c -> modules s !! md = Some mdo ->
  (owner c = Some b -> value c = None \/ constp c = true ->
   let s1 := put b (set_constp true c) s in
   jl_declare_constant b md var s = Ok tt s1 /\
   jl_declare_constant b md var s1 = Ok tt s1) /\
  (owner c <> Some b \/ (value c <> None /\ constp c = false) ->
   jl_declare_constant b md var s = Raise (ConstantRedeclaration (name mdo) var) s) /\
  (forall rhs s1,
     constp c = false -> jl_checked_assignment b md var rhs s = Ok tt s1 ->
     jl_declare_constant b md var s1 = Raise (ConstantRedeclaration (name mdo) var) s1).
Proof.
  intros Hb Hm. split; [|split].
  - intros Ho Hv s1.
    assert (Hb1 : heap s1 !! b = Some (set_constp true c)) by by eapply lookup_put_eq.
    split.
    + unfold jl_declare_constant. jl_fwd. rewrite Ho.
      rewrite bool_decide_eq_false_2 by (by intros ?). simpl.
      destruct Hv as [->| ->].
      * rewrite bool_decide_eq_false_2 by (by intros ?). simpl. by jl_fwd.
      * rewrite andb_false_r. by jl_fwd.
    + unfold jl_declare_constant. jl_fwd. cbn [owner value constp set_constp]. rewrite Ho.
      rewrite bool_decide_eq_false_2 by (by intros ?). rewrite andb_false_r. simpl.
      jl_fwd. unfold s1. by rewrite put_put.
  - intros Hcase. unfold jl_declare_constant. jl_fwd.
    destruct Hcase as [Ho|[Hv Hc]].
    + rewrite (bool_decide_eq_true_2 (owner c <> Some b)) by done. simpl.
      unfold bind. by rewrite (module_name_Ok _ _ _ Hm).
    + rewrite (bool_decide_eq_true_2 (value c <> None)) by done. rewrite Hc, orb_true_r.
      unfold bind. by rewrite (module_name_Ok _ _ _ Hm).
  - intros rhs s1 Hc Hrun.
    rewrite (jl_checked_assignment_variable_run _ _ _ _ _ _ _ Hb Hc Hm) in Hrun.
    destruct (declared_type_admits c rhs); [|done]. injection Hrun as <-.
    assert (Hb1 : heap (put b (set_value (Some rhs) (promoted c)) s) !! b
                  = Some (set_value (Some rhs) (promoted c))) by by eapply lookup_put_eq.
    assert (Hm1 : modules (put b (set_value (Some rhs) (promoted c)) s) !! md = Some mdo)
      by done.
    unfold jl_declare_constant. jl_fwd.
    assert (Hc1 : constp (set_value (Some rhs) (promoted c)) = false).
    { unfold promoted. by destruct (ty c). }
    cbn [value set_value]. rewrite Hc1.
    rewrite (bool_decide_eq_true_2 (Some rhs <> None)) by done. rewrite orb_true_r.
    unfold bind. by rewrite (module_name_Ok _ _ _ Hm1).
Qed.

(** ** Import *)

(** A write, keeping what the cell holds after it *)
Ltac jl_put1 :=
  match goal with
  | H : heap ?s !! ?b = Some ?c |- context [bind (assign ?b ?f) _ ?s] =>
      rewrite (bind_Ok _ _ _ _ _ (assign_put _ _ _ f H));
      pose proof (lookup_put_eq s b (f c) c H)
  end.
Ltac jl_run := repeat (jl_put1 || jl_fwd1).

Lemma new_binding_run {B} md nm (k : nat -> Jl B) s :
  bind (new_binding md nm) k s =
    k (length (heap s))
      (set_heap (heap s ++ [mk_binding None (md, nm) None None false false false 0%Z]) s).
Proof. done. Qed.

(** The import of a binding that is not deprecated into a module that has
    no cell for the name *)
Lemma module_import__absent get s to mto from b cb asname nm explici :
  heap s !! b = Some cb -> deprecated cb = 0%Z ->
  modules s !! to = Some mto -> bindings mto !! asname = None ->
  module_import_ get to from (Some b) asname nm explici s =
    Ok tt (with_alias to mto asname b explici 0 s).
Proof.
  intros Hb Hd Hto Hv. unfold module_import_. jl_fwd. rewrite Hd.
  change (nonzero 0) with false. cbv iota. jl_fwd. rewrite Hv.
  rewrite new_binding_run.
  set (nb := length (heap s)).
  set (c0 := mk_binding None (to, asname) None None false false false 0%Z).
  set (s0 := set_heap (heap s ++ [c0]) s).
  assert (H0 : heap s0 !! nb = Some c0).
  { simpl. rewrite lookup_app_r by done. by rewrite Nat.sub_diag. }
  jl_run. rewrite !put_put in *.
  assert (Hb' : heap (put nb (set_imported explici (set_owner (Some b) c0)) s0) !! b = Some cb).
  { rewrite lookup_put_ne by (apply lookup_lt_Some in Hb; unfold nb; lia).
    simpl. by apply lookup_app_l_Some. }
  jl_run. rewrite !put_put. unfold assign_module. simpl. rewrite Hto.
  unfold with_alias, set_modules, put, set_heap. simpl. do 2 f_equal.
  rewrite insert_app_r_alt by (unfold nb; lia). unfold nb. rewrite Nat.sub_diag. simpl.
  by rewrite Hd.
Qed.

(** The same into a module that has a cell for the name *)
Lemma module_import__present get s to mto from mfrom b cb asname nm explici bto cbto :
  heap s !! b = Some cb -> deprecated cb = 0%Z ->
  modules s !! to = Some mto -> bindings mto !! asname = Some bto ->
  heap s !! bto = Some cbto -> modules s !! from = Some mfrom ->
  module_import_ get to (Some from) (Some b) asname nm explici s =
    if decide (bto = b) then Ok tt s
    else if eqb_cells bto b cbto cb then Ok tt (put bto (set_imported explici cbto) s)
    else if bool_decide (owner cbto <> Some b) && bool_decide (owner cbto <> None)
         then Ok tt (print (WARNING_ignoring_conflicting_import (name mfrom) nm (name mto)) s)
    else if constp cbto || bool_decide (value cbto <> None)
         then Ok tt (print (WARNING_import_conflicts (name mfrom) nm (name mto)) s)
    else Ok tt (put bto (set_imported explici (set_owner (owner cb) cbto)) s).
Proof.
  intros Hb Hd Hto Hv Hbto Hfrom. unfold module_import_. jl_fwd. rewrite Hd.
  change (nonzero 0) with false. cbv iota. jl_fwd. rewrite Hv.
  destruct (decide (bto = b)); [done|].
  rewrite (bind_Ok _ _ _ _ _ (eq_bindings_run _ _ _ _ _ Hbto Hb)).
  destruct (eqb_cells bto b cbto cb); [by jl_fwd|]. jl_fwd.
  destruct (_ && _).
  { unfold module_name_of. by jl_fwd. }
  destruct (_ || _).
  { unfold module_name_of. by jl_fwd. }
  jl_fwd.
  assert (Hbto1 : heap (put bto (set_owner (owner cb) cbto) s) !! bto
                  = Some (set_owner (owner cb) cbto)) by by eapply lookup_put_eq.
  jl_fwd. by rewrite put_put.
Qed.

Lemma with_alias_lookup s to mto asname b cb explici d :
  modules s !! to = Some mto -> heap s !! b = Some cb ->
  let s1 := with_alias to mto asname b explici d s in
  let nb := length (heap s) in
  modules s1 !! to = Some (set_bindings (<[asname := nb]> (bindings mto)) mto) /\
  bindings (set_bindings (<[asname := nb]> (bindings mto)) mto) !! asname = Some nb /\
  heap s1 !! nb = Some (alias_cell to asname b explici d) /\
  heap s1 !! b = Some cb /\ b <> nb /\
  (forall m' mo', m' <> to -> modules s !! m' = Some mo' -> modules s1 !! m' = Some mo') /\
  (forall b' c', heap s !! b' = Some c' -> heap s1 !! b' = Some c').
Proof.
  intros Hto Hb s1 nb. repeat split.
  - simpl. apply list_lookup_insert_eq. by eapply lookup_lt_Some.
  - apply lookup_insert_eq.
  - simpl. rewrite lookup_app_r by done. by rewrite Nat.sub_diag.
  - simpl. by apply lookup_app_l_Some.
  - apply lookup_lt_Some in Hb. unfold nb. lia.
  - intros m' mo' Hne Hm'. simpl. by rewrite list_lookup_insert_ne.
  - intros b' c' Hb'. simpl. by apply lookup_app_l_Some.
Qed.

Lemma with_alias_reimport s to mto asname b explici explici' d :
  modules s !! to = Some mto ->
  put (length (heap s)) (set_imported explici' (alias_cell to asname b explici d))
      (with_alias to mto asname b explici d s)
  = with_alias to mto asname b explici' d s.
Proof.
  intros Hto. unfold put, with_alias, set_heap. simpl. f_equal.
  rewrite insert_app_r_alt by done. by rewrite Nat.sub_diag.
Qed.

(** What an alias of [b] in the table of [to] answers, and what it
    refuses *)
Lemma alias_queries fuel s to mto asname b cb explici :
  modules s !! to = Some mto -> bindings mto !! asname = None ->
  heap s !! b = Some cb -> owner cb = Some b -> deprecated cb = 0%Z ->
  let s1 := with_alias to mto asname b explici 0 s in
  jl_get_binding (S fuel) to asname s1 = Ok (Some b) s1 /\
  jl_get_global (S fuel) to asname s1 = Ok (value cb) s1 /\
  jl_is_imported to asname s1 = Ok explici s1 /\
  jl_get_module_of_binding (S fuel) to asname s1 = Ok (Some (globalref cb).1) s1 /\
  (forall v, jl_set_global to asname v s1
             = Raise (CannotAssignImported (name mto) asname) s1) /\
  (explici = true -> jl_get_binding_for_method_def to asname s1 = Ok b s1).
Proof.
  intros Hto Hv Hb Ho Hd s1.
  destruct (with_alias_lookup s to mto asname b cb explici 0 Hto Hb)
    as (Hto1 & Hv1 & Hnb1 & Hb1 & Hne & _). fold s1 in Hto1, Hnb1, Hb1.
  destruct (queries_resolved fuel s1 to _ asname _ _ b cb Hto1 Hv1 Hnb1 eq_refl Hb1)
    as (Hget & _ & _ & _ & _ & _ & _ & Hmod & _ & _ & _ & Himp & Hval).
  split; [done|]. split; [by apply Hval|]. split; [done|]. split; [done|]. split.
  - intros v. unfold jl_set_global.
    pose proof (jl_get_binding_wr_present _ _ _ _ true _ _ Hto1 Hv1 Hnb1) as Hwr.
    cbn [owner alias_cell] in Hwr. rewrite decide_False in Hwr by done.
    unfold bind. by rewrite Hwr.
  - intros ->. unfold jl_get_binding_for_method_def. jl_fwd. rewrite Hv1. jl_fwd.
    cbn [owner alias_cell imported]. rewrite decide_False by done. by jl_fwd.
Qed.

(** [jl_module_import(to, from, nm)] of a name that [from] defines, with
    a binding that is not deprecated, into a module that has no cell for
    it: [to] gets a cell that is an alias of the binding of [from],
    flagged as imported, and nothing is printed.  The name then resolves
    in [to] to that binding, with its value; assigning to it through [to]
    is refused; a method definition is given the binding of [from];
    importing again changes nothing; and [jl_module_use] of the same name
    takes the imported flag away again. *)
Theorem jl_module_import_then fuel s to mto from mfrom nm b cb :
  modules s !! to = Some mto -> bindings mto !! nm = None ->
  modules s !! from = Some mfrom -> bindings mfrom !! nm = Some b ->
  heap s !! b = Some cb -> owner cb = Some b -> deprecated cb = 0%Z ->
  let s1 := with_alias to mto nm b true 0 s in
  jl_module_import (S fuel) to from nm s = Ok tt s1 /\
  stderr s1 = stderr s /\
  jl_get_binding (S fuel) to nm s1 = Ok (Some b) s1 /\
  jl_get_global (S fuel) to nm s1 = Ok (value cb) s1 /\
  jl_is_imported to nm s1 = Ok true s1 /\
  jl_get_module_of_binding (S fuel) to nm s1 = Ok (Some (globalref cb).1) s1 /\
  (forall v, jl_set_global to nm v s1 = Raise (CannotAssignImported (name mto) nm) s1) /\
  jl_get_binding_for_method_def to nm s1 = Ok b s1 /\
  jl_module_import (S fuel) to from nm s1 = Ok tt s1 /\
  jl_module_use (S fuel) to from nm s1 = Ok tt (with_alias to mto nm b false 0 s).
Proof.
  intros Hto Hv Hfrom Hvf Hb Ho Hd s1.
  assert (Hne : to <> from) by (intros ->; simplify_eq).
  destruct (with_alias_lookup s to mto nm b cb true 0 Hto Hb)
    as (Hto1 & Hv1 & Hnb1 & Hb1 & Hbne & Hmods & _). fold s1 in Hto1, Hnb1, Hb1, Hmods.
  assert (Hfrom1 : modules s1 !! from = Some mfrom) by (apply Hmods; done).
  destruct (alias_queries fuel s to mto nm b cb true Hto Hv Hb Ho Hd)
    as (Hget & Hval & Himp & Hmod & Hset & Hdef). fold s1 in Hget, Hval, Himp, Hmod, Hset, Hdef.
  assert (Hgetf : jl_get_binding (S fuel) from nm s = Ok (Some b) s)
    by by eapply jl_resolve_owner_resolved.
  assert (Hgetf1 : jl_get_binding (S fuel) from nm s1 = Ok (Some b) s1)
    by by eapply jl_resolve_owner_resolved.
  assert (Hagain : forall explici,
            module_import_ (jl_get_binding (S fuel)) to (Some from) (Some b) nm nm explici s1
            = Ok tt (with_alias to mto nm b explici 0 s)).
  { intros explici.
    rewrite (module_import__present _ _ _ _ _ _ _ _ _ _ _ _ _ Hb1 Hd Hto1 Hv1 Hnb1 Hfrom1).
    rewrite decide_False by done. unfold eqb_cells. cbn [owner alias_cell]. rewrite Ho.
    rewrite (bool_decide_eq_true_2 (Some b = Some b)) by done. rewrite orb_true_r.
    cbn [orb]. unfold s1. by rewrite with_alias_reimport. }
  split; [|split; [done|]].
  { unfold jl_module_import. rewrite (bind_Ok _ _ _ _ _ Hgetf).
    by eapply module_import__absent. }
  do 5 (split; [done|]). split; [by apply Hdef|]. split.
  - unfold jl_module_import. rewrite (bind_Ok _ _ _ _ _ Hgetf1). apply Hagain.
  - unfold jl_module_use. rewrite (bind_Ok _ _ _ _ _ Hgetf1). apply Hagain.
Qed.

(** The import of a name that [from] has no definition for, [from]
    using nothing: the lookup in [from] finds nothing, the four import
    functions print that the name could not be imported, and nothing else
    changes; no cell is made in [to]. *)
Theorem jl_module_import_unknown fuel s to mto from mfrom nm asname :
  modules s !! to = Some mto -> modules s !! from = Some mfrom ->
  unresolved s mfrom nm -> usings mfrom = [] ->
  let s1 := print (WARNING_could_not_import (name mfrom) nm (name mto)) s in
  jl_module_import (S fuel) to from nm s = Ok tt s1 /\
  jl_module_import_as (S fuel) to from nm asname s = Ok tt s1 /\
  jl_module_use (S fuel) to from nm s = Ok tt s1 /\
  jl_module_use_as (S fuel) to from nm asname s = Ok tt s1 /\
  heap s1 = heap s /\ modules s1 = modules s.
Proof.
  intros Hto Hfrom Hu Hus s1.
  pose proof (jl_get_binding_no_usings fuel s from mfrom nm Hfrom Hu Hus) as Hget.
  assert (Himp : forall asname' explici,
            module_import_ (jl_get_binding (S fuel)) to (Some from) None asname' nm explici s
            = Ok tt s1).
  { intros asname' explici. unfold module_import_, module_name_of. by jl_fwd. }
  unfold jl_module_import, jl_module_import_as, jl_module_use, jl_module_use_as.
  rewrite !(bind_Ok _ _ _ _ _ Hget). by rewrite !Himp.
Qed.

(** The import of a name that [from] defines onto a cell that [to] has
    already, for another binding that [eq_bindings] tells apart.  A cell
    whose owner is set, be it a binding of another module or the cell
    itself (a name that [to] defines): "ignoring conflicting import" is
    printed and nothing else changes.  A cell without an owner that has
    neither a value nor the constant flag becomes an alias of the binding of
    [from].  The warning "conflicts with an existing identifier" is left
    for a cell without an owner that has a value or is a constant. *)
Theorem jl_module_import_conflict fuel s to mto from mfrom nm b cb bto cbto :
  modules s !! to = Some mto -> bindings mto !! nm = Some bto ->
  heap s !! bto = Some cbto ->
  modules s !! from = Some mfrom -> bindings mfrom !! nm = Some b ->
  heap s !! b = Some cb -> owner cb = Some b -> deprecated cb = 0%Z ->
  bto <> b -> eq_bindings bto b s = Ok false s ->
  match owner cbto with
  | Some o =>
      jl_module_import (S fuel) to from nm s
      = Ok tt (print (WARNING_ignoring_conflicting_import (name mfrom) nm (name mto)) s)
  | None =>
      jl_module_import (S fuel) to from nm s
      = if constp cbto || bool_decide (value cbto <> None)
        then Ok tt (print (WARNING_import_conflicts (name mfrom) nm (name mto)) s)
        else Ok tt (put bto (set_imported true (set_owner (Some b) cbto)) s)
  end.
Proof.
  intros Hto Hv Hbto Hfrom Hvf Hb Ho Hd Hne Heq.
  assert (Hgetf : jl_get_binding (S fuel) from nm s = Ok (Some b) s)
    by by eapply jl_resolve_owner_resolved.
  rewrite (eq_bindings_run _ _ _ _ _ Hbto Hb) in Heq. injection Heq as Heq.
  unfold jl_module_import.
  destruct (owner cbto) as [o|] eqn:Hoto.
  - rewrite (bind_Ok _ _ _ _ _ Hgetf).
    rewrite (module_import__present _ _ _ _ _ _ _ _ _ _ _ _ _ Hb Hd Hto Hv Hbto Hfrom).
    rewrite decide_False by done. rewrite Heq, Hoto.
    assert (o <> b).
    { intros ->. unfold eqb_cells in Heq. rewrite Hoto, Ho in Heq.
      rewrite (bool_decide_eq_true_2 (Some b = Some b)) in Heq by done.
      by rewrite orb_true_r in Heq. }
    rewrite (bool_decide_eq_true_2 (Some o <> Some b)) by congruence.
    by rewrite (bool_decide_eq_true_2 (Some o <> None)).
  - rewrite (bind_Ok _ _ _ _ _ Hgetf).
    rewrite (module_import__present _ _ _ _ _ _ _ _ _ _ _ _ _ Hb Hd Hto Hv Hbto Hfrom).
    rewrite decide_False by done. rewrite Heq, Hoto.
    rewrite (bool_decide_eq_false_2 (None <> None)) by (by intros ?).
    rewrite andb_false_r. by rewrite Ho.
Qed.

(** ** Lookups through the used modules *)

(** Two of the modules that [m] is using export [var], with bindings
    that own themselves, are not deprecated and that [eq_bindings] tells
    apart, and nothing is left to resolve in the used modules: the lookup
    of [var] in [m], which has no cell for it, returns NULL, prints the
    one warning, and leaves in [m] a new cell for [var] that owns itself;
    the next lookup returns that cell and changes nothing. *)
Theorem jl_get_binding_two_exports fuel s m mo var i j impi impj a b :
  modules s !! m = Some mo -> bindings mo !! var = None ->
  resolved_exports s mo var ->
  candidate_at s mo var i = Some (impi, a) ->
  candidate_at s mo var j = Some (impj, b) ->
  live s a -> live s b -> eq_bindings a b s = Ok false s ->
  exists n1 n2 s3,
    jl_get_binding (2 + fuel) m var s = Ok None s3 /\
    stderr s3 = stderr s ++ [WARNING_must_be_qualified n1 n2 var (name mo)] /\
    heap s3 = heap s ++ [fresh_cell m var (length (heap s))] /\
    forall fuel', jl_get_binding (S fuel') m var s3 = Ok (Some (length (heap s))) s3.
Proof.
  intros Hm Hv Hflat Hci Hcj Hla Hlb Hne.
  destruct (resolved_exports_find_two_candidates fuel s m mo var i j impi impj a b)
    as (b0 & imp & tempb & Hfind); try done.
  destruct (jl_get_binding_ambiguous _ _ _ _ _ _ _ _ _ Hm Hv Hfind)
    as (mo2 & mom & mi2 & Hm2 & Hv2 & Hn2 & Himp2 & Hrun). simplify_eq.
  eexists (name mom), (name mi2), _. split; [exact Hrun|].
  split; [done|]. split; [done|]. intros fuel'.
  by destruct (jl_get_binding_marked fuel' s m mo var
              (WARNING_must_be_qualified (name mom) (name mi2) var (name mo)) Hm Hv)
    as (_ & _ & Hget & _).
Qed.

Lemma using_loop_unique fuel s m mo var st warn i imp t ct :
  modules s !! m = Some mo -> resolved_exports s mo var ->
  candidate_at s mo var i = Some (imp, t) -> heap s !! t = Some ct ->
  (forall k, k <> i -> candidate_at s mo var k = None) ->
  forall idx,
    (forall k, k ∈ idx -> k < length (usings mo)) ->
    (i ∉ idx -> forall (ob om : option nat),
       using_loop (jl_resolve_owner (S fuel) None) m var st warn idx ob om s
       = Ok (Continue ob om) s) /\
    (i ∈ idx -> NoDup idx ->
       using_loop (jl_resolve_owner (S fuel) None) m var st warn idx None None s
       = Ok (Continue (Some t) (Some imp)) s).
Proof.
  intros Hm Hflat Hcand Hct Hother idx.
  induction idx as [|k idx IH]; intros Hidx.
  { split; [done|]. by intros ?%elem_of_nil. }
  destruct IH as [IH1 IH2]; [intros; apply Hidx; by right|].
  assert (Hk : k < length (usings mo)) by (apply Hidx; left).
  apply lookup_lt_is_Some in Hk as [impk Himpk].
  split.
  - intros Hnin ob om. cbn [using_loop].
    rewrite (bind_Ok _ _ _ (Continue ob om) s).
    + apply IH1. set_solver.
    + eapply using_body_no_candidate; try done. apply Hother. set_solver.
  - intros Hin Hnd. apply NoDup_cons in Hnd as [Hk Hnd]. cbn [using_loop].
    destruct (decide (k = i)) as [->|Hne].
    + rewrite (bind_Ok _ _ _ (Continue (Some t) (Some imp)) s).
      * apply IH1. done.
      * by rewrite (using_body_candidate fuel s m mo var st warn i imp t ct None None).
    + rewrite (bind_Ok _ _ _ (Continue None None) s).
      * apply IH2; [|done]. apply elem_of_cons in Hin as [?|?]; [congruence|done].
      * eapply using_body_no_candidate; try done. by apply Hother.
Qed.

Lemma downto_elem n k : k ∈ downto n <-> k < n.
Proof.
  unfold downto. rewrite list_elem_of_In, <- in_rev, in_seq. lia.
Qed.

Lemma downto_NoDup n : NoDup (downto n).
Proof.
  unfold downto. apply NoDup_ListNoDup, NoDup_rev, NoDup_ListNoDup, NoDup_seq.
Qed.

(** One of the modules that [m] is using, and only one, exports [var],
    with a binding that is not deprecated, and nothing is left to resolve
    in the used modules: the lookup of [var] in [m], which has no cell for
    it, returns that binding and leaves in [m] an alias of it that is not
    flagged as imported, printing nothing.  That is the state that
    [jl_module_use] of the name from that module leaves.  From then on the
    name resolves at once; it cannot be assigned through [m]; and
    [jl_clear_implicit_imports] takes the alias out of the table again. *)
Theorem jl_get_binding_through_using fuel s m mo var i imp b cb :
  modules s !! m = Some mo -> bindings mo !! var = None ->
  resolved_exports s mo var ->
  candidate_at s mo var i = Some (imp, b) ->
  (forall k, k <> i -> candidate_at s mo var k = None) ->
  heap s !! b = Some cb -> deprecated cb = 0%Z ->
  let s1 := with_alias m mo var b false 0 s in
  jl_get_binding (2 + fuel) m var s = Ok (Some b) s1 /\
  jl_module_use (S fuel) m imp var s = Ok tt s1 /\
  (forall fuel', jl_get_binding (S fuel') m var s1 = Ok (Some b) s1) /\
  jl_is_imported m var s1 = Ok false s1 /\
  (forall v, jl_set_global m var v s1 = Raise (CannotAssignImported (name mo) var) s1) /\
  ((forall var' b', bindings mo !! var' = Some b' ->
      exists c', heap s !! b' = Some c' /\ (owner c' = Some b' \/ imported c' = true)) ->
   jl_clear_implicit_imports m s1 = Ok tt (set_modules (modules s) s1)).
Proof.
  intros Hm Hv Hflat Hcand Hother Hb Hd s1.
  pose proof (candidate_at_Some _ _ _ _ _ _ Hcand)
    as (Hi & mi & tb & ctb & Hmi & Htb & Hctb & Hex & Hotb).
  assert (Hcan : owner cb = Some b).
  { destruct (Hflat _ _ Hi) as (mi' & Hmi' & Hcells). simplify_eq.
    destruct (Hcells _ Htb) as (ctb' & Hctb' & Hres). simplify_eq.
    destruct (Hres Hex) as (o & Ho' & Hcano). simplify_eq.
    unfold canonical in Hcano. by rewrite Hb in Hcano. }
  assert (Himp : forall get explici,
            module_import_ get m (Some imp) (Some b) var var explici s
            = Ok tt (with_alias m mo var b explici 0 s)).
  { intros. by eapply module_import__absent. }
  destruct (alias_queries 0 s m mo var b cb false Hm Hv Hb Hcan Hd)
    as (_ & _ & Himported & _ & Hset & _). fold s1 in Himported, Hset.
  split; [|split; [|split; [|split; [done|split; [done|]]]]].
  - unfold jl_get_binding. change (2 + fuel) with (S (S fuel)).
    rewrite jl_resolve_owner_S. jl_fwd. rewrite Hv. jl_fwd.
    change (on_stack m var []) with false. cbv iota.
    assert (Hscan : using_resolve_binding (jl_resolve_owner (S fuel) None) m var None
                      [(m, var)] true s = Ok (Some b, Some imp) s).
    { unfold using_resolve_binding. jl_fwd.
      destruct (using_loop_unique fuel s m mo var [(m, var)] true i imp b cb
                  Hm Hflat Hcand Hb Hother (downto (length (usings mo)))) as [_ Hloop].
      { intros k. by rewrite downto_elem. }
      assert (Hin : i ∈ downto (length (usings mo))).
      { apply downto_elem. by eapply lookup_lt_Some. }
      by rewrite (bind_Ok _ _ _ _ _ (Hloop Hin (downto_NoDup _))). }
    rewrite (bind_Ok _ _ _ _ _ Hscan). cbn [fst snd].
    by rewrite (bind_Ok _ _ _ _ _ (Himp _ false)).
  - unfold jl_module_use.
    rewrite (bind_Ok _ _ _ (Some b) s) by by eapply jl_resolve_owner_resolved.
    apply Himp.
  - intros fuel'.
    by destruct (alias_queries fuel' s m mo var b cb false Hm Hv Hb Hcan Hd) as (Hget & _).
  - intros Hown.
    destruct (with_alias_lookup s m mo var b cb false 0 Hm Hb)
      as (Hm1 & Hv1 & Hnb1 & Hb1 & Hbne & _ & Hheap). fold s1 in Hm1, Hnb1, Hb1, Hheap.
    rewrite (jl_clear_implicit_imports_run _ _ _ Hm1).
    2:{ intros var' b'. simpl. intros [[_ <-]|[_ Hv']]%lookup_insert_Some; [by eexists|].
        destruct (Hown _ _ Hv') as (c' & Hc' & _). exists c'. by apply Hheap. }
    f_equal. unfold set_modules. simpl. f_equal.
    rewrite list_insert_insert_eq.
    transitivity (<[m := mo]> (modules s)); [|by apply list_insert_id].
    f_equal. destruct mo as [nm par tbl us]. unfold set_bindings. simpl. f_equal.
    simpl in Hv, Hown.
    apply map_eq. intros var'. apply option_eq. intros b'.
    rewrite map_lookup_filter_Some. simpl. split.
    + intros [[[-> <-]|[_ Hv']]%lookup_insert_Some Hk]; [|done].
      change (heap s1) with (heap s ++ [alias_cell m var b false 0]) in Hk.
      rewrite lookup_app_r, Nat.sub_diag in Hk by done. simpl in Hk.
      rewrite bool_decide_eq_false_2 in Hk by (intros [= ?]; done). done.
    + intros Hv'. split.
      * apply lookup_insert_Some. right. split; [congruence|done].
      * destruct (Hown _ _ Hv') as (c' & Hc' & Hk).
        change (heap s1) with (heap s ++ [alias_cell m var b false 0]).
        rewrite (lookup_app_l_Some _ _ _ _ Hc').
        destruct Hk as [->| ->]; [by rewrite bool_decide_eq_true_2|by rewrite orb_true_r].
Qed.

(** ** Deprecation warnings *)



(** ** New modules *)

Lemma jl_set_const_absent s m mo var x :
  modules s !! m = Some mo -> bindings mo !! var = None ->
  jl_set_const m var x s
  = Ok tt (put (length (heap s)) (const_cell m var (length (heap s)) x)
               (with_new_cell m mo var s)).
Proof.
  intros Hm Hv. set (b := length (heap s)).
  pose proof (with_new_cell_heap s m mo var) as Hb0. fold b in Hb0.
  unfold jl_set_const.
  rewrite (bind_Ok _ _ _ _ _ (jl_get_binding_wr_absent _ _ _ _ true Hm Hv)). fold b.
  jl_fwd. cbn [value fresh_cell].
  rewrite ?bind_assoc, (bind_Ok _ _ _ _ _ (cmpswap_ty_run _ _ _ Hb0)).
  assert (Hb1 : heap (put b (promoted (fresh_cell m var b)) (with_new_cell m mo var s)) !! b
                = Some (promoted (fresh_cell m var b))) by by eapply lookup_put_eq.
  jl_run. rewrite !put_put in *. cbn [constp fresh_cell promoted set_ty ty].
  match goal with
  | H : heap ?s1 !! b = Some (set_constp true ?c) |- _ =>
      rewrite ?bind_assoc, (bind_Ok _ _ _ _ _ (cmpswap_value_run _ _ _ x H))
  end.
  cbn [value set_constp set_ty promoted fresh_cell ty]. by rewrite bind_ret, put_put.
Qed.

Lemma for_each_conflict_check_empty fuel to from mto (l : list (string * nat)) s :
  modules s !! to = Some mto -> bindings mto = ∅ ->
  Forall (fun slot => is_Some (heap s !! slot.2)) l ->
  for_each (using_conflict_check fuel to from) l s = Ok tt s.
Proof.
  intros Hto Hemp. induction l as [|[var b] l IH]; intros Hl; [done|].
  inversion Hl as [|? ? [cb Hb] Hl']; subst. simpl in Hb. cbn [for_each].
  rewrite (bind_Ok _ _ _ tt s); [by apply IH|].
  unfold using_conflict_check. jl_fwd. destruct (_ && _); [|done].
  jl_fwd. by rewrite Hemp, lookup_empty.
Qed.

(** [jl_new_module] makes a module with the name and the parent given,
    using the core module if there is one, in whose table the name of the
    module is bound to the module itself, as a constant that is exported;
    nothing is printed.  The new module is a sub-module of its parent. *)
Theorem jl_new_module_names_itself fuel s nm parent_m :
  (forall core, jl_core_module s = Some core ->
     exists mcore, modules s !! core = Some mcore /\
                   map_Forall (fun _ b => is_Some (heap s !! b)) (bindings mcore)) ->
  let m := length (modules s) in
  let b := length (heap s) in
  exists s1,
    jl_new_module fuel nm parent_m s = Ok m s1 /\
    modules s1 = modules s ++ [mk_module nm parent_m (<[nm := b]> ∅)
                                         (option_list (jl_core_module s))] /\
    heap s1 = heap s ++ [module_name_cell m nm b] /\
    stderr s1 = stderr s /\
    jl_module_name m s1 = Ok nm s1 /\
    jl_module_parent m s1 = Ok parent_m s1 /\
    jl_module_exports_p m nm s1 = Ok true s1 /\
    (forall fuel',
       jl_get_global (S fuel') m nm s1 = Ok (Some (jl_module_value m)) s1 /\
       jl_is_const (S fuel') m nm s1 = Ok true s1) /\
    (forall p, parent_m = Some p ->
               jl_is_submodule 2 (Some m) (Some p) s1 = Ok true s1).
Proof.
  intros Hcore m b.
  set (mo0 := mk_module nm parent_m ∅ []).
  set (s0 := set_modules (modules s ++ [mo0]) s).
  assert (Hm0 : modules s0 !! m = Some mo0).
  { simpl. rewrite lookup_app_r by done. by rewrite Nat.sub_diag. }
  set (mo1 := mk_module nm parent_m ∅ (option_list (jl_core_module s))).
  set (s0' := set_modules (modules s ++ [mo1]) s).
  assert (Husing : match jl_core_module s0 with
                   | Some core => jl_module_using fuel m core
                   | None => ret tt
                   end s0 = Ok tt s0').
  { change (jl_core_module s0) with (jl_core_module s).
    unfold s0', mo1. destruct (jl_core_module s) as [core|] eqn:Hc; [|done].
    destruct (Hcore _ eq_refl) as (mcore & Hmcore & Hall).
    assert (Hne : m <> core) by (apply lookup_lt_Some in Hmcore; unfold m; lia).
    assert (Hc0 : modules s0 !! core = Some mcore) by (simpl; by apply lookup_app_l_Some).
    unfold jl_module_using. rewrite decide_False by done. jl_fwd.
    rewrite bool_decide_eq_false_2 by (simpl; by intros ?%elem_of_nil). jl_fwd.
    rewrite (bind_Ok _ _ _ tt s0).
    2:{ eapply for_each_conflict_check_empty; [done|done|].
        apply Forall_forall. intros [var b'] Hin%elem_of_map_to_list. by eapply Hall. }
    unfold assign_module. rewrite Hm0. unfold s0, set_modules. simpl. do 2 f_equal.
    rewrite insert_app_r_alt by done. unfold m. by rewrite Nat.sub_diag. }
  assert (Hm0' : modules s0' !! m = Some mo1).
  { simpl. rewrite lookup_app_r by done. by rewrite Nat.sub_diag. }
  set (s1 := put b (const_cell m nm b (jl_module_value m)) (with_new_cell m mo1 nm s0')).
  assert (Hconst : jl_set_const m nm (jl_module_value m) s0' = Ok tt s1)
    by by apply jl_set_const_absent.
  destruct (lookup_with_new_cell_value s0' m mo1 nm (const_cell m nm b (jl_module_value m)) Hm0')
    as (Hm1 & Hv1 & Hb1). fold s1 in Hm1, Hb1. change (length (heap s0')) with b in *.
  set (mo2 := set_bindings (<[nm := b]> (bindings mo1)) mo1) in *.
  set (s2 := put b (set_exportp true (const_cell m nm b (jl_module_value m))) s1).
  assert (Hexp : jl_module_export m nm s1 = Ok tt s2)
    by by apply (jl_module_export_present _ _ mo2).
  assert (Hm2 : modules s2 !! m = Some mo2) by done.
  assert (Hb2 : heap s2 !! b = Some (module_name_cell m nm b)) by by eapply lookup_put_eq.
  exists s2. split; [|split; [|split; [|split; [done|]]]].
  - unfold jl_new_module, jl_new_module_. fold m s0.
    rewrite bind_global. rewrite (bind_Ok _ _ _ _ _ Husing).
    rewrite (bind_Ok _ _ _ _ _ Hconst). by rewrite (bind_Ok _ _ _ _ _ Hexp).
  - simpl. rewrite insert_app_r_alt by done. unfold m. by rewrite Nat.sub_diag.
  - simpl. rewrite !list_insert_insert_eq. rewrite insert_app_r_alt by done.
    unfold b. by rewrite Nat.sub_diag.
  - destruct (queries_resolved 0 s2 m mo2 nm b _ b _ Hm2 Hv1 Hb2 eq_refl Hb2)
      as (_ & _ & _ & _ & _ & _ & _ & _ & _ & Hexported & _).
    split; [unfold jl_module_name; by jl_fwd|].
    split; [unfold jl_module_parent; by jl_fwd|].
    split; [done|]. split.
    + intros fuel'.
      destruct (queries_resolved fuel' s2 m mo2 nm b _ b _ Hm2 Hv1 Hb2 eq_refl Hb2)
        as (_ & _ & _ & _ & Hc & _ & _ & _ & _ & _ & _ & _ & Hval).
      split; [by apply Hval|done].
    + intros p ->. change 2 with (S 1). rewrite jl_is_submodule_S.
      destruct (decide (Some p = Some m)) as [|Hne]; [done|]. jl_fwd.
      cbn [parent mo2 set_bindings mo1]. rewrite decide_False by congruence.
      rewrite jl_is_submodule_S. by rewrite decide_True.
Qed.

(** ** What no entry point does *)

Lemma cell_le_refl c : cell_le c c.
Proof. by repeat split. Qed.

Lemma cell_le_trans c1 c2 c3 : cell_le c1 c2 -> cell_le c2 c3 -> cell_le c1 c3.
Proof.
  intros (Hg1 & He1 & Hc1 & Hv1 & Ht1) (Hg2 & He2 & Hc2 & Hv2 & Ht2).
  repeat split; try (by auto); try congruence.
  intros Ht. rewrite Ht2; [by apply Ht1|]. by rewrite Ht1.
Qed.

Lemma module_le_refl mo : module_le mo mo.
Proof. by repeat split. Qed.

Lemma module_le_trans mo1 mo2 mo3 : module_le mo1 mo2 -> module_le mo2 mo3 -> module_le mo1 mo3.
Proof.
  intros (Hn1 & Hp1 & Hu1) (Hn2 & Hp2 & Hu2).
  repeat split; try congruence. by etrans.
Qed.

Lemma preserved_refl s : preserved s s.
Proof.
  repeat split; try done.
  - intros b c Hb. exists c. split; [done|apply cell_le_refl].
  - intros m mo Hm. exists mo. split; [done|apply module_le_refl].
Qed.

Lemma preserved_trans s1 s2 s3 : preserved s1 s2 -> preserved s2 s3 -> preserved s1 s3.
Proof.
  intros (Hh1 & Hm1 & Hs1 & ? & ? & ? & ? & ?) (Hh2 & Hm2 & Hs2 & ? & ? & ? & ? & ?).
  repeat split; try congruence.
  - intros b c Hb. destruct (Hh1 _ _ Hb) as (c2 & Hb2 & Hle1).
    destruct (Hh2 _ _ Hb2) as (c3 & Hb3 & Hle2). exists c3. split; [done|].
    by eapply cell_le_trans.
  - intros m mo Hm. destruct (Hm1 _ _ Hm) as (mo2 & Hmo2 & Hle1).
    destruct (Hm2 _ _ Hmo2) as (mo3 & Hmo3 & Hle2). exists mo3. split; [done|].
    by eapply module_le_trans.
  - by etrans.
Qed.

Lemma preserved_put s b c c' :
  heap s !! b = Some c -> cell_le c c' -> preserved s (put b c' s).
Proof.
  intros Hb Hle. repeat split; try done.
  - intros b1 c1 Hb1. destruct (decide (b1 = b)) as [->|Hne].
    + simplify_eq. exists c'. split; [by eapply lookup_put_eq|done].
    + exists c1. split; [by rewrite lookup_put_ne|apply cell_le_refl].
  - intros m mo Hm. exists mo. split; [done|apply module_le_refl].
Qed.

Lemma preserved_alloc s c : preserved s (set_heap (heap s ++ [c]) s).
Proof.
  repeat split; try done.
  - intros b1 c1 Hb1. exists c1. split; [by apply lookup_app_l_Some|apply cell_le_refl].
  - intros m mo Hm. exists mo. split; [done|apply module_le_refl].
Qed.

Lemma preserved_printed s evs : preserved s (printed evs s).
Proof.
  repeat split; try done.
  - intros b c Hb. exists c. split; [done|apply cell_le_refl].
  - intros m mo Hm. exists mo. split; [done|apply module_le_refl].
  - simpl. by apply prefix_app_r.
Qed.

Lemma preserved_module s m mo mo' :
  modules s !! m = Some mo -> module_le mo mo' ->
  preserved s (set_modules (<[m := mo']> (modules s)) s).
Proof.
  intros Hm Hle. repeat split; try done.
  - intros b c Hb. exists c. split; [done|apply cell_le_refl].
  - intros m1 mo1 Hm1. simpl. destruct (decide (m1 = m)) as [->|Hne].
    + simplify_eq. exists mo'. split; [|done].
      apply list_lookup_insert_eq. by eapply lookup_lt_Some.
    + exists mo1. split; [by rewrite list_lookup_insert_ne|apply module_le_refl].
Qed.

Lemma preserved_new_module s mo : preserved s (set_modules (modules s ++ [mo]) s).
Proof.
  repeat split; try done.
  - intros b c Hb. exists c. split; [done|apply cell_le_refl].
  - intros m1 mo1 Hm1. exists mo1. split; [by apply lookup_app_l_Some|apply module_le_refl].
Qed.

Lemma keeps_ends {A} (c0 : Jl A) s s' : keeps c0 -> ends (c0 s) s' -> preserved s s'.
Proof. intros H He. specialize (H s). by destruct (c0 s); simpl in He; subst. Qed.

Lemma keeps_same {A} (c0 : Jl A) :
  (forall s, match c0 s with
             | Ok _ s' => s' = s
             | Raise _ s' => s' = s
             | _ => True
             end) -> keeps c0.
Proof.
  intros H s. specialize (H s). destruct (c0 s); try done; subst; apply preserved_refl.
Qed.

Lemma keeps_ret {A} (a : A) : keeps (ret a).
Proof. by apply keeps_same. Qed.

Lemma keeps_bind {A B} (c0 : Jl A) (k : A -> Jl B) :
  keeps c0 -> (forall a, keeps (k a)) -> keeps (bind c0 k).
Proof.
  intros Hc Hk s. unfold bind. specialize (Hc s). destruct (c0 s) as [a s1|e s1| |]; try done.
  specialize (Hk a s1). destruct (k a s1); try done; by eapply preserved_trans.
Qed.

Lemma keeps_stuck {A} : keeps (@stuck _ A).
Proof. by intros s. Qed.

Lemma keeps_out_of_fuel {A} : keeps (@out_of_fuel _ A).
Proof. by intros s. Qed.

Lemma keeps_errorf {A} e : keeps (@jl_errorf _ A e).
Proof. by apply keeps_same. Qed.

Lemma keeps_global {A} (f : jl_state -> A) : keeps (global f).
Proof. by apply keeps_same. Qed.

Lemma keeps_deref b : keeps (deref b).
Proof. apply keeps_same. intros s. unfold deref. by destruct (heap s !! b). Qed.

Lemma keeps_deref_module m : keeps (deref_module m).
Proof. apply keeps_same. intros s. unfold deref_module. by destruct (modules s !! m). Qed.

Lemma keeps_printf ev : keeps (jl_printf ev).
Proof. intros s. unfold jl_printf. apply (preserved_printed s [ev]). Qed.

Lemma keeps_new_binding md nm : keeps (new_binding md nm).
Proof. intros s. apply preserved_alloc. Qed.

Lemma keeps_assign b (f : jl_binding_t -> jl_binding_t) :
  (forall c, cell_le c (f c)) -> keeps (assign b f).
Proof.
  intros Hf s. unfold assign. destruct (heap s !! b) as [c|] eqn:Hb; [|done].
  by apply (preserved_put _ _ c).
Qed.

Lemma keeps_assign_module m (f : jl_module_t -> jl_module_t) :
  (forall mo, module_le mo (f mo)) -> keeps (assign_module m f).
Proof.
  intros Hf s. unfold assign_module. destruct (modules s !! m) as [mo|] eqn:Hm; [|done].
  by apply (preserved_module _ _ mo).
Qed.

Lemma keeps_cmpswap_ty b : keeps (cmpswap_ty b).
Proof.
  intros s. unfold cmpswap_ty, bind, deref. destruct (heap s !! b) as [c|] eqn:Hb; [|done].
  destruct (ty c) eqn:Ht; [apply preserved_refl|].
  unfold assign. rewrite Hb. unfold ret. apply (preserved_put _ _ c); [done|].
  repeat split; try done. rewrite Ht. by intros [? ?].
Qed.

(** One step through the code, for [keeps] *)
Ltac keeps_step :=
  match goal with
  | |- keeps (bind _ _) => apply keeps_bind; [|intros ?]
  | |- keeps (ret _) => apply keeps_ret
  | |- keeps stuck => apply keeps_stuck
  | |- keeps out_of_fuel => apply keeps_out_of_fuel
  | |- keeps (jl_errorf _) => apply keeps_errorf
  | |- keeps (global _) => apply keeps_global
  | |- keeps (deref _) => apply keeps_deref
  | |- keeps (deref_module _) => apply keeps_deref_module
  | |- keeps (jl_printf _) => apply keeps_printf
  | |- keeps (new_binding _ _) => apply keeps_new_binding
  | |- keeps (cmpswap_ty _) => apply keeps_cmpswap_ty
  | |- keeps (assign _ _) => apply keeps_assign; intros ?; by repeat split
  | |- keeps (assign_module _ (fun mo => set_bindings _ mo)) =>
      apply keeps_assign_module; intros ?; by repeat split
  | |- keeps (assign_module _ (fun mo => set_usings (usings mo ++ _) mo)) =>
      apply keeps_assign_module; intros ?; repeat split; by apply prefix_app_r
  | H : forall x, keeps (?f x) |- keeps (?f _) => apply H
  | H : forall x y, keeps (?f x y) |- keeps (?f _ _) => apply H
  | H : forall x y z, keeps (?f x y z) |- keeps (?f _ _ _) => apply H
  | |- keeps (if ?x then _ else _) => destruct x
  | |- keeps (match ?x with _ => _ end) => destruct x
  | |- keeps (let '(_, _) := ?x in _) => destruct x
  end.
Ltac keeps_auto := repeat keeps_step.

Lemma keeps_module_name m : keeps (module_name m).
Proof. unfold module_name. keeps_auto. Qed.

Lemma keeps_module_name_of (m : option nat) : keeps (module_name_of m).
Proof. unfold module_name_of. destruct m; [apply keeps_module_name|apply keeps_stuck]. Qed.

Lemma keeps_jl_get_module_binding m var : keeps (jl_get_module_binding m var).
Proof. unfold jl_get_module_binding. keeps_auto. Qed.

Lemma keeps_eq_bindings a b : keeps (eq_bindings a b).
Proof. unfold eq_bindings. keeps_auto. Qed.

Lemma keeps_cmpswap_value b val : keeps (cmpswap_value b val).
Proof. unfold cmpswap_value. keeps_auto. Qed.

Lemma keeps_jl_get_binding_wr m var alloc : keeps (jl_get_binding_wr m var alloc).
Proof. unfold jl_get_binding_wr. keeps_auto. Qed.

Lemma keeps_jl_get_binding_for_method_def m var :
  keeps (jl_get_binding_for_method_def m var).
Proof. unfold jl_get_binding_for_method_def. keeps_auto. Qed.

Lemma keeps_jl_binding_dep_message get m nm b :
  (forall m' v', keeps (get m' v')) -> keeps (jl_binding_dep_message get m nm b).
Proof. intros Hget. unfold jl_binding_dep_message. keeps_auto. Qed.

Lemma keeps_jl_binding_deprecation_warning get m nm b :
  (forall m' v', keeps (get m' v')) -> keeps (jl_binding_deprecation_warning get m nm b).
Proof.
  intros Hget. unfold jl_binding_deprecation_warning.
  keeps_auto; try apply keeps_module_name; by apply keeps_jl_binding_dep_message.
Qed.

Lemma keeps_module_import_ get to from (ob : option nat) asname nm explici :
  (forall m' v', keeps (get m' v')) -> keeps (module_import_ get to from ob asname nm explici).
Proof.
  intros Hget. unfold module_import_.
  keeps_auto; try apply keeps_module_name; try apply keeps_module_name_of;
    try apply keeps_eq_bindings; by apply keeps_jl_binding_dep_message.
Qed.

Lemma keeps_using_body resolve m var st warn i (ob : option nat) owner_m :
  (forall m' v' st', keeps (resolve m' v' st')) ->
  keeps (using_body resolve m var st warn i ob owner_m).
Proof.
  intros Hres. unfold using_body.
  keeps_auto; try apply keeps_module_name; try apply keeps_module_name_of;
    try apply keeps_eq_bindings; try apply keeps_jl_get_module_binding;
    apply keeps_jl_get_binding_wr.
Qed.

Lemma keeps_using_loop resolve m var st warn idx (ob : option nat) owner_m :
  (forall m' v' st', keeps (resolve m' v' st')) ->
  keeps (using_loop resolve m var st warn idx ob owner_m).
Proof.
  intros Hres. revert ob owner_m. induction idx as [|i idx IH]; intros ob owner_m; simpl.
  - apply keeps_ret.
  - apply keeps_bind; [by apply keeps_using_body|]. intros [ob' owner'|]; [apply IH|].
    apply keeps_ret.
Qed.

Lemma keeps_using_resolve_binding resolve m var from st warn :
  (forall m' v' st', keeps (resolve m' v' st')) ->
  keeps (using_resolve_binding resolve m var from st warn).
Proof.
  intros Hres. unfold using_resolve_binding.
  apply keeps_bind; [apply keeps_deref_module|]. intros mo.
  apply keeps_bind; [by apply keeps_using_loop|]. intros [? ?|]; apply keeps_ret.
Qed.

Lemma keeps_jl_resolve_owner fuel (ob : option nat) m var st :
  keeps (jl_resolve_owner fuel ob m var st).
Proof.
  revert ob m var st. induction fuel as [|fuel IH]; intros ob m var st.
  { apply keeps_out_of_fuel. }
  rewrite jl_resolve_owner_S.
  apply keeps_bind.
  { destruct ob; keeps_auto; apply keeps_jl_get_module_binding. }
  intros [o|]; [apply keeps_ret|].
  destruct (on_stack m var st); [apply keeps_ret|].
  apply keeps_bind.
  { apply keeps_using_resolve_binding. intros. apply IH. }
  intros [r1 r2]. cbn [fst snd]. destruct r1 as [b|]; [|apply keeps_ret].
  apply keeps_bind; [|intros; apply keeps_ret].
  apply keeps_module_import_. intros. apply IH.
Qed.

Lemma keeps_jl_get_binding fuel m var : keeps (jl_get_binding fuel m var).
Proof. apply keeps_jl_resolve_owner. Qed.

Lemma keeps_for_each {A} (f : A -> Jl unit) (l : list A) :
  (forall x, keeps (f x)) -> keeps (for_each f l).
Proof.
  intros Hf. induction l as [|x l IH]; simpl; [apply keeps_ret|].
  apply keeps_bind; [apply Hf|by intros].
Qed.

Lemma keeps_using_conflict_check fuel to from slot :
  keeps (using_conflict_check fuel to from slot).
Proof.
  destruct slot as [var b]. unfold using_conflict_check.
  keeps_auto; try apply keeps_module_name; try apply keeps_eq_bindings;
    apply keeps_jl_get_binding.
Qed.

Lemma keeps_jl_clear_implicit_imports m : keeps (jl_clear_implicit_imports m).
Proof.
  intros s. unfold jl_clear_implicit_imports.
  destruct (modules s !! m) as [mo|] eqn:Hm; [|done].
  destruct (bool_decide _); [|done].
  by apply (preserved_module _ _ mo).
Qed.

Lemma keeps_jl_checked_assignment b md var rhs : keeps (jl_checked_assignment b md var rhs).
Proof.
  unfold jl_checked_assignment.
  keeps_auto; try apply keeps_module_name; apply keeps_cmpswap_value.
Qed.

Lemma keeps_jl_set_const m var val : keeps (jl_set_const m var val).
Proof.
  unfold jl_set_const.
  keeps_auto; try apply keeps_jl_get_binding_wr; apply keeps_cmpswap_value.
Qed.

Lemma keeps_jl_module_using fuel to from : keeps (jl_module_using fuel to from).
Proof.
  unfold jl_module_using. keeps_auto.
  apply keeps_for_each. intros. apply keeps_using_conflict_check.
Qed.

Lemma keeps_jl_module_export from nm : keeps (jl_module_export from nm).
Proof. unfold jl_module_export. keeps_auto; apply keeps_jl_get_module_binding. Qed.

Lemma keeps_jl_new_module_ fuel nm (parent_m : option nat) default_names :
  keeps (jl_new_module_ fuel nm parent_m default_names).
Proof.
  intros s. unfold jl_new_module_.
  set (s0 := set_modules (modules s ++ [mk_module nm parent_m ∅ []]) s).
  assert (H0 : preserved s s0) by apply preserved_new_module.
  match goal with
  | |- match ?c s0 with _ => _ end =>
      assert (Hk : keeps c);
      [|specialize (Hk s0); destruct (c s0); try done; by eapply preserved_trans]
  end.
  keeps_auto; try apply keeps_jl_module_using; try apply keeps_jl_set_const;
    apply keeps_jl_module_export.
Qed.

(** Every entry point goes, however it ends, to a state later on. *)
Lemma keeps_run_api fuel call : keeps (run_api fuel call).
Proof.
  destruct call; simpl;
    unfold jl_get_binding_or_error, jl_binding_owner, jl_module_globalref,
      jl_module_import, jl_module_import_as, jl_module_use, jl_module_use_as,
      jl_boundp, jl_is_const, jl_get_global, jl_set_global, jl_declare_constant,
      jl_deprecate_binding, jl_is_binding_deprecated, jl_binding_resolved_p;
    repeat first
      [ apply keeps_jl_new_module_ | apply keeps_jl_get_binding_wr
      | apply keeps_jl_get_binding_for_method_def | apply keeps_jl_get_binding
      | apply keeps_jl_module_using | apply keeps_jl_module_export
      | apply keeps_jl_checked_assignment | apply keeps_jl_set_const
      | apply keeps_jl_clear_implicit_imports
      | apply keeps_jl_get_module_binding | apply keeps_module_name
      | apply keeps_module_import_; intros
      | apply keeps_jl_binding_deprecation_warning; intros
      | apply keeps_using_resolve_binding; intros
      | apply keeps_jl_resolve_owner
      | keeps_step ].
Qed.

(** No entry point, however it ends, frees a binding or moves it, or
    changes its global reference; a binding that is exported stays
    exported, a constant stays a constant, a binding that has a value keeps
    having one, and a declared type that is set is never changed. *)
Theorem run_api_bindings_stay fuel call s s' :
  ends (run_api fuel call s) s' ->
  forall b c, heap s !! b = Some c ->
    exists c', heap s' !! b = Some c' /\
      globalref c' = globalref c /\
      (exportp c = true -> exportp c' = true) /\
      (constp c = true -> constp c' = true) /\
      (is_Some (value c) -> is_Some (value c')) /\
      (is_Some (ty c) -> ty c' = ty c).
Proof.
  intros He. by destruct (keeps_ends _ _ _ (keeps_run_api fuel call) He) as [H _].
Qed.

(** No entry point, however it ends, removes a module or changes its
    name or its parent; the list of the modules that a module is using
    only grows, at its end; what is printed is only added to; and the
    handles of the main, base and core modules and the options are not
    written. *)
Theorem run_api_modules_stay fuel call s s' :
  ends (run_api fuel call s) s' ->
  (forall m mo, modules s !! m = Some mo ->
     exists mo', modules s' !! m = Some mo' /\
       name mo' = name mo /\ parent mo' = parent mo /\
       usings mo `prefix_of` usings mo') /\
  stderr s `prefix_of` stderr s' /\
  jl_main_module s' = jl_main_module s /\ jl_base_module s' = jl_base_module s /\
  jl_core_module s' = jl_core_module s /\
  depwarn s' = depwarn s /\ jl_lineno s' = jl_lineno s.
Proof.
  intros He. by destruct (keeps_ends _ _ _ (keeps_run_api fuel call) He) as [_ H].
Qed.

(** ** No dangling pointers *)

Lemma known_lookup L M s :
  known L M s <->
  (forall m mo var b, modules s !! m = Some mo -> bindings mo !! var = Some b ->
                      b < length (heap s)) /\
  (forall m mo imp, modules s !! m = Some mo -> imp ∈ usings mo ->
                    imp < length (modules s)) /\
  (forall b c, heap s !! b = Some c -> (globalref c).1 < length (modules s)) /\
  (forall b, b ∈ L -> b < length (heap s)) /\
  (forall m, m ∈ M -> m < length (modules s)).
Proof.
  unfold known, valid_tables, valid_usings, valid_globalrefs.
  rewrite !Forall_lookup. split.
  - intros (Ht & Hu & Hg & HL & HM). repeat split.
    + intros m mo var b Hm Hb. apply lookup_lt_is_Some. by apply (Ht _ _ Hm var b).
    + intros m mo imp Hm Hi. apply lookup_lt_is_Some.
      specialize (Hu _ _ Hm). rewrite Forall_forall in Hu. by apply Hu.
    + intros b c Hb. apply lookup_lt_is_Some. by apply (Hg _ _ Hb).
    + intros b Hb. apply lookup_lt_is_Some.
      apply list_elem_of_lookup in Hb as [i Hi]. by apply (HL _ _ Hi).
    + intros m Hm. apply lookup_lt_is_Some.
      apply list_elem_of_lookup in Hm as [i Hi]. by apply (HM _ _ Hi).
  - intros (Ht & Hu & Hg & HL & HM). repeat split.
    + intros m mo Hm var b Hb. apply lookup_lt_is_Some. by eapply Ht.
    + intros m mo Hm. apply Forall_forall. intros imp Hi.
      apply lookup_lt_is_Some. by eapply Hu.
    + intros b c Hb. apply lookup_lt_is_Some. by eapply Hg.
    + intros i b Hi. apply lookup_lt_is_Some. apply HL. by eapply list_elem_of_lookup_2.
    + intros i m Hi. apply lookup_lt_is_Some. apply HM. by eapply list_elem_of_lookup_2.
Qed.

Lemma known_more_binding L M s b :
  known L M s -> is_Some (heap s !! b) -> known (b :: L) M s.
Proof.
  rewrite !known_lookup. intros (Ht & Hu & Hg & HL & HM) Hb. repeat split; try done.
  intros b' [->|Hin]%elem_of_cons; [by apply lookup_lt_is_Some|by apply HL].
Qed.

Lemma known_less_binding L M s b : known (b :: L) M s -> known L M s.
Proof.
  rewrite !known_lookup. intros (Ht & Hu & Hg & HL & HM). repeat split; try done.
  intros b' Hin. apply HL. by apply elem_of_cons; right.
Qed.

Lemma known_more_module L M s m :
  known L M s -> is_Some (modules s !! m) -> known L (m :: M) s.
Proof.
  rewrite !known_lookup. intros (Ht & Hu & Hg & HL & HM) Hb. repeat split; try done.
  intros b' [->|Hin]%elem_of_cons; [by apply lookup_lt_is_Some|by apply HM].
Qed.

Lemma known_less_module L M s m : known L (m :: M) s -> known L M s.
Proof.
  rewrite !known_lookup. intros (Ht & Hu & Hg & HL & HM). repeat split; try done.
  intros b' Hin. apply HM. by apply elem_of_cons; right.
Qed.

Lemma known_binding L M s b : known L M s -> b ∈ L -> is_Some (heap s !! b).
Proof.
  rewrite known_lookup. intros (_ & _ & _ & HL & _) Hb.
  apply lookup_lt_is_Some. by apply HL.
Qed.

Lemma known_module L M s m : known L M s -> m ∈ M -> is_Some (modules s !! m).
Proof.
  rewrite known_lookup. intros (_ & _ & _ & _ & HM) Hm.
  apply lookup_lt_is_Some. by apply HM.
Qed.

Lemma known_table L M s m mo var b :
  known L M s -> modules s !! m = Some mo -> bindings mo !! var = Some b ->
  is_Some (heap s !! b).
Proof.
  rewrite known_lookup. intros (Ht & _) Hm Hb. apply lookup_lt_is_Some. by eapply Ht.
Qed.

Lemma known_put L M s b c c' :
  known L M s -> heap s !! b = Some c -> globalref c' = globalref c ->
  known L M (set_heap (<[b := c']> (heap s)) s).
Proof.
  rewrite !known_lookup. intros (Ht & Hu & Hg & HL & HM) Hb Hc. simpl.
  rewrite length_insert. repeat split; try done.
  intros b1 c1 [(-> & -> & _)|[_ H1]]%list_lookup_insert_Some; [|by eapply Hg].
  rewrite Hc. by eapply Hg.
Qed.

Lemma known_alloc L M s md nm :
  known L M s -> is_Some (modules s !! md) ->
  known (length (heap s) :: L) M
        (set_heap (heap s ++ [mk_binding None (md, nm) None None false false false 0%Z]) s).
Proof.
  rewrite !known_lookup. intros (Ht & Hu & Hg & HL & HM) Hmd. simpl.
  rewrite length_app. simpl. repeat split; try done.
  - intros m mo var b Hm Hb. specialize (Ht _ _ _ _ Hm Hb). lia.
  - intros b1 c1 [H1|[_ H1]]%lookup_app_Some; [by eapply Hg|].
    apply list_lookup_singleton_Some in H1 as [_ <-]. simpl.
    by apply lookup_lt_is_Some.
  - intros b [->|Hin]%elem_of_cons; [lia|]. specialize (HL _ Hin). lia.
Qed.

Lemma known_printed L M s o : known L M s -> known L M (set_stderr o s).
Proof. done. Qed.

Lemma known_set_binding L M s m mo var b :
  known L M s -> modules s !! m = Some mo -> is_Some (heap s !! b) ->
  known L M (set_modules (<[m := set_bindings (<[var := b]> (bindings mo)) mo]> (modules s)) s).
Proof.
  rewrite !known_lookup. intros (Ht & Hu & Hg & HL & HM) Hm Hb. simpl.
  rewrite length_insert. repeat split; try done.
  - intros m1 mo1 var1 b1 [(-> & <- & _)|[_ H1]]%list_lookup_insert_Some; [|by eapply Ht].
    simpl. intros [[-> ->]|[_ H2]]%lookup_insert_Some; [by apply lookup_lt_is_Some|].
    by eapply Ht.
  - intros m1 mo1 imp [(-> & <- & _)|[_ H1]]%list_lookup_insert_Some; [|by eapply Hu].
    simpl. by eapply Hu.
Qed.

Lemma known_add_using L M s to mo from :
  known L M s -> modules s !! to = Some mo -> is_Some (modules s !! from) ->
  known L M (set_modules (<[to := set_usings (usings mo ++ [from]) mo]> (modules s)) s).
Proof.
  rewrite !known_lookup. intros (Ht & Hu & Hg & HL & HM) Hm Hf. simpl.
  rewrite length_insert. repeat split; try done.
  - intros m1 mo1 var1 b1 [(-> & <- & _)|[_ H1]]%list_lookup_insert_Some; [|by eapply Ht].
    simpl. by eapply Ht.
  - intros m1 mo1 imp [(-> & <- & _)|[_ H1]]%list_lookup_insert_Some; [|by eapply Hu].
    simpl. intros [Hin|Hin]%elem_of_app; [by eapply Hu|].
    apply list_elem_of_singleton in Hin as ->. by apply lookup_lt_is_Some.
Qed.

Lemma known_filter_table L M s m mo (P : string * nat -> Prop) `{!forall x, Decision (P x)} :
  known L M s -> modules s !! m = Some mo ->
  known L M (set_modules (<[m := set_bindings (filter P (bindings mo)) mo]> (modules s)) s).
Proof.
  rewrite !known_lookup. intros (Ht & Hu & Hg & HL & HM) Hm. simpl.
  rewrite length_insert. repeat split; try done.
  - intros m1 mo1 var1 b1 [(-> & <- & _)|[_ H1]]%list_lookup_insert_Some; [|by eapply Ht].
    simpl. intros [H2 _]%map_lookup_filter_Some. by eapply Ht.
  - intros m1 mo1 imp [(-> & <- & _)|[_ H1]]%list_lookup_insert_Some; [|by eapply Hu].
    simpl. by eapply Hu.
Qed.

Lemma known_new_module L M s nm (parent_m : option nat) :
  known L M s ->
  known L (length (modules s) :: M)
        (set_modules (modules s ++ [mk_module nm parent_m ∅ []]) s).
Proof.
  rewrite !known_lookup. intros (Ht & Hu & Hg & HL & HM). simpl.
  rewrite length_app. simpl. repeat split; try done.
  - intros m1 mo1 var1 b1 [H1|[_ H1]]%lookup_app_Some; [by eapply Ht|].
    by apply list_lookup_singleton_Some in H1 as [_ <-].
  - intros m1 mo1 imp [H1|[_ H1]]%lookup_app_Some.
    + intros Hin. specialize (Hu _ _ _ H1 Hin). lia.
    + apply list_lookup_singleton_Some in H1 as [_ <-]. simpl. by intros ?%elem_of_nil.
  - intros b c Hb. specialize (Hg _ _ Hb). lia.
  - intros m [->|Hin]%elem_of_cons; [lia|]. specialize (HM _ Hin). lia.
Qed.

Lemma sound_same {A} L M (c0 : Jl A) :
  (forall s, match c0 s with
             | Ok _ s' => s' = s
             | Raise _ s' => s' = s
             | _ => True
             end) -> sound L M c0.
Proof. intros H s Hk. specialize (H s). by destruct (c0 s); subst. Qed.

Lemma sound_ret {A} L M (a : A) : sound L M (ret a).
Proof. by apply sound_same. Qed.

Lemma sound_stuck {A} L M : sound L M (@stuck _ A).
Proof. by intros s. Qed.

Lemma sound_out_of_fuel {A} L M : sound L M (@out_of_fuel _ A).
Proof. by intros s. Qed.

Lemma sound_errorf {A} L M e : sound L M (@jl_errorf _ A e).
Proof. by apply sound_same. Qed.

Lemma sound_global {A} L M (f : jl_state -> A) : sound L M (global f).
Proof. by apply sound_same. Qed.

Lemma sound_printf L M ev : sound L M (jl_printf ev).
Proof. by intros s Hk. Qed.

Lemma sound_bind {A B} L M (c0 : Jl A) (k : A -> Jl B) :
  sound L M c0 -> (forall a, sound L M (k a)) -> sound L M (bind c0 k).
Proof.
  intros Hc Hk s Hs. unfold bind. specialize (Hc s Hs).
  destruct (c0 s) as [a s1|e s1| |]; try done. by apply Hk.
Qed.

(** What the code has read through is allocated from then on. *)
Lemma sound_deref_bind {B} L M b (k : jl_binding_t -> Jl B) :
  (forall c, sound (b :: L) M (k c)) -> sound L M (bind (deref b) k).
Proof.
  intros Hk s Hs. unfold bind, deref. destruct (heap s !! b) as [c|] eqn:Hb; [|done].
  specialize (Hk c s (known_more_binding _ _ _ _ Hs (mk_is_Some _ _ Hb))).
  destruct (k c s); try done; by eapply known_less_binding.
Qed.

Lemma sound_deref L M b : sound L M (deref b).
Proof. apply sound_same. intros s. unfold deref. by destruct (heap s !! b). Qed.

Lemma sound_deref_module_bind {B} L M m (k : jl_module_t -> Jl B) :
  (forall mo, sound L (m :: M) (k mo)) -> sound L M (bind (deref_module m) k).
Proof.
  intros Hk s Hs. unfold bind, deref_module.
  destruct (modules s !! m) as [mo|] eqn:Hm; [|done].
  specialize (Hk mo s (known_more_module _ _ _ _ Hs (mk_is_Some _ _ Hm))).
  destruct (k mo s); try done; by eapply known_less_module.
Qed.

Lemma sound_deref_module L M m : sound L M (deref_module m).
Proof. apply sound_same. intros s. unfold deref_module. by destruct (modules s !! m). Qed.

Lemma sound_assign L M b (f : jl_binding_t -> jl_binding_t) :
  (forall c, globalref (f c) = globalref c) -> sound L M (assign b f).
Proof.
  intros Hf s Hs. unfold assign. destruct (heap s !! b) as [c|] eqn:Hb; [|done].
  by eapply known_put.
Qed.

Lemma sound_assign_bind {B} L M b (f : jl_binding_t -> jl_binding_t) (k : unit -> Jl B) :
  (forall c, globalref (f c) = globalref c) ->
  (forall u, sound (b :: L) M (k u)) -> sound L M (bind (assign b f) k).
Proof.
  intros Hf Hk s Hs. unfold bind, assign. destruct (heap s !! b) as [c|] eqn:Hb; [|done].
  assert (Hs1 : known (b :: L) M (set_heap (<[b := f c]> (heap s)) s)).
  { eapply known_put; [|done|done]. apply known_more_binding; [done|by eexists]. }
  specialize (Hk tt _ Hs1).
  destruct (k tt _); try done; by eapply known_less_binding.
Qed.

(** So is the binding that the code has made. *)
Lemma sound_new_binding_bind {B} L M md nm (k : bptr -> Jl B) :
  md ∈ M -> (forall b, sound (b :: L) M (k b)) -> sound L M (bind (new_binding md nm) k).
Proof.
  intros Hmd Hk s Hs. unfold bind, new_binding.
  assert (Hs1 := known_alloc _ _ _ md nm Hs (known_module _ _ _ _ Hs Hmd)).
  specialize (Hk _ _ Hs1).
  destruct (k _ _); try done; by eapply known_less_binding.
Qed.

Lemma sound_set_binding L M m var b :
  b ∈ L ->
  sound L M (assign_module m (fun mo => set_bindings (<[var := b]> (bindings mo)) mo)).
Proof.
  intros Hb s Hs. unfold assign_module. destruct (modules s !! m) as [mo|] eqn:Hm; [|done].
  apply known_set_binding; [done|done|]. by eapply known_binding.
Qed.

Lemma sound_add_using L M to from :
  from ∈ M ->
  sound L M (assign_module to (fun mo => set_usings (usings mo ++ [from]) mo)).
Proof.
  intros Hf s Hs. unfold assign_module. destruct (modules s !! to) as [mo|] eqn:Hm; [|done].
  apply known_add_using; [done|done|]. by eapply known_module.
Qed.

Lemma sound_get_module_binding_bind {B} L M m var (k : option bptr -> Jl B) :
  (forall b, sound (b :: L) (m :: M) (k (Some b))) ->
  sound L (m :: M) (k None) ->
  sound L M (bind (jl_get_module_binding m var) k).
Proof.
  intros Hk1 Hk2 s Hs. unfold jl_get_module_binding, bind, deref_module, ret.
  destruct (modules s !! m) as [mo|] eqn:Hm; [|done].
  assert (Hs1 := known_more_module _ _ _ _ Hs (mk_is_Some _ _ Hm)).
  destruct (bindings mo !! var) as [b|] eqn:Hb.
  - assert (Hs2 := known_more_binding _ _ _ b Hs1 (known_table _ _ _ _ _ _ _ Hs1 Hm Hb)).
    specialize (Hk1 b s Hs2).
    destruct (k (Some b) s); try done; eapply known_less_module, known_less_binding; done.
  - specialize (Hk2 s Hs1). destruct (k None s); try done; by eapply known_less_module.
Qed.

(** One step through the code, for [sound] *)
Ltac sound_mem := by set_solver.
Ltac sound_step :=
  match goal with
  | |- sound _ _ (bind (deref _) _) => apply sound_deref_bind; intros ?
  | |- sound _ _ (bind (deref_module _) _) => apply sound_deref_module_bind; intros ?
  | |- sound _ _ (bind (assign _ _) _) => apply sound_assign_bind; [by intros ?|intros ?]
  | |- sound _ _ (bind (new_binding _ _) _) =>
      apply sound_new_binding_bind; [sound_mem|intros ?]
  | |- sound _ _ (bind (jl_get_module_binding _ _) _) =>
      apply sound_get_module_binding_bind; [intros ?|]
  | |- sound _ _ (bind _ _) => apply sound_bind; [|intros ?]
  | |- sound _ _ (ret _) => apply sound_ret
  | |- sound _ _ stuck => apply sound_stuck
  | |- sound _ _ out_of_fuel => apply sound_out_of_fuel
  | |- sound _ _ (jl_errorf _) => apply sound_errorf
  | |- sound _ _ (global _) => apply sound_global
  | |- sound _ _ (deref _) => apply sound_deref
  | |- sound _ _ (deref_module _) => apply sound_deref_module
  | |- sound _ _ (jl_printf _) => apply sound_printf
  | |- sound _ _ (assign _ _) => apply sound_assign; by intros ?
  | |- sound _ _ (assign_module _ (fun mo => set_bindings _ mo)) =>
      apply sound_set_binding; sound_mem
  | |- sound _ _ (assign_module _ (fun mo => set_usings (usings mo ++ _) mo)) =>
      apply sound_add_using; sound_mem
  | H : forall L M x, sound L M (?f x) |- sound _ _ (?f _) => apply H
  | H : forall L M x y, sound L M (?f x y) |- sound _ _ (?f _ _) => apply H
  | H : forall L M x y z, sound L M (?f x y z) |- sound _ _ (?f _ _ _) => apply H
  | |- sound _ _ (if ?x then _ else _) => destruct x
  | |- sound _ _ (match ?x with _ => _ end) => destruct x
  | |- sound _ _ (let '(_, _) := ?x in _) => destruct x
  end.
Ltac sound_auto := repeat sound_step.

Lemma sound_module_name L M m : sound L M (module_name m).
Proof. unfold module_name. sound_auto. Qed.

Lemma sound_module_name_of L M (m : option nat) : sound L M (module_name_of m).
Proof. unfold module_name_of. destruct m; [apply sound_module_name|apply sound_stuck]. Qed.

Lemma sound_jl_get_module_binding L M m var : sound L M (jl_get_module_binding m var).
Proof. unfold jl_get_module_binding. sound_auto. Qed.

Lemma sound_eq_bindings L M a b : sound L M (eq_bindings a b).
Proof. unfold eq_bindings. sound_auto. Qed.

Lemma sound_cmpswap_ty L M b : sound L M (cmpswap_ty b).
Proof. unfold cmpswap_ty. sound_auto. Qed.

Lemma sound_cmpswap_value L M b val : sound L M (cmpswap_value b val).
Proof. unfold cmpswap_value. sound_auto. Qed.

Lemma sound_jl_get_binding_wr L M m var alloc : sound L M (jl_get_binding_wr m var alloc).
Proof. unfold jl_get_binding_wr. sound_auto. Qed.

Lemma sound_jl_get_binding_for_method_def L M m var :
  sound L M (jl_get_binding_for_method_def m var).
Proof. unfold jl_get_binding_for_method_def. sound_auto. Qed.

Lemma sound_jl_binding_dep_message L M get m nm b :
  (forall L M m' v', sound L M (get m' v')) ->
  sound L M (jl_binding_dep_message get m nm b).
Proof. intros Hget. unfold jl_binding_dep_message. sound_auto. Qed.

Lemma sound_jl_binding_deprecation_warning L M get m nm b :
  (forall L M m' v', sound L M (get m' v')) ->
  sound L M (jl_binding_deprecation_warning get m nm b).
Proof.
  intros Hget. unfold jl_binding_deprecation_warning.
  sound_auto; try apply sound_module_name; by apply sound_jl_binding_dep_message.
Qed.

Lemma sound_module_import_ L M get to from (ob : option nat) asname nm explici :
  (forall L M m' v', sound L M (get m' v')) ->
  sound L M (module_import_ get to from ob asname nm explici).
Proof.
  intros Hget. unfold module_import_.
  sound_auto; try apply sound_module_name; try apply sound_module_name_of;
    try apply sound_eq_bindings; by apply sound_jl_binding_dep_message.
Qed.

Lemma sound_using_body L M resolve m var st warn i (ob : option nat) owner_m :
  (forall L M m' v' st', sound L M (resolve m' v' st')) ->
  sound L M (using_body resolve m var st warn i ob owner_m).
Proof.
  intros Hres. unfold using_body.
  sound_auto; try apply sound_module_name; try apply sound_module_name_of;
    try apply sound_eq_bindings; try apply sound_jl_get_module_binding;
    apply sound_jl_get_binding_wr.
Qed.

Lemma sound_using_loop L M resolve m var st warn idx (ob : option nat) owner_m :
  (forall L M m' v' st', sound L M (resolve m' v' st')) ->
  sound L M (using_loop resolve m var st warn idx ob owner_m).
Proof.
  intros Hres. revert ob owner_m. induction idx as [|i idx IH]; intros ob owner_m; simpl.
  - apply sound_ret.
  - apply sound_bind; [by apply sound_using_body|]. intros [ob' owner'|]; [apply IH|].
    apply sound_ret.
Qed.

Lemma sound_using_resolve_binding L M resolve m var from st warn :
  (forall L M m' v' st', sound L M (resolve m' v' st')) ->
  sound L M (using_resolve_binding resolve m var from st warn).
Proof.
  intros Hres. unfold using_resolve_binding.
  apply sound_bind; [apply sound_deref_module|]. intros mo.
  apply sound_bind; [by apply sound_using_loop|]. intros [? ?|]; apply sound_ret.
Qed.

Lemma sound_jl_resolve_owner L M fuel (ob : option nat) m var st :
  sound L M (jl_resolve_owner fuel ob m var st).
Proof.
  revert L M ob m var st. induction fuel as [|fuel IH]; intros L M ob m var st.
  { apply sound_out_of_fuel. }
  rewrite jl_resolve_owner_S.
  apply sound_bind.
  { destruct ob; sound_auto; apply sound_jl_get_module_binding. }
  intros [o|]; [apply sound_ret|].
  destruct (on_stack m var st); [apply sound_ret|].
  apply sound_bind.
  { apply sound_using_resolve_binding. intros. apply IH. }
  intros [r1 r2]. cbn [fst snd]. destruct r1 as [b|]; [|apply sound_ret].
  apply sound_bind; [|intros; apply sound_ret].
  apply sound_module_import_. intros. apply IH.
Qed.

Lemma sound_jl_get_binding L M fuel m var : sound L M (jl_get_binding fuel m var).
Proof. apply sound_jl_resolve_owner. Qed.

Lemma sound_for_each {A} L M (f : A -> Jl unit) (l : list A) :
  (forall x, sound L M (f x)) -> sound L M (for_each f l).
Proof.
  intros Hf. induction l as [|x l IH]; simpl; [apply sound_ret|].
  apply sound_bind; [apply Hf|by intros].
Qed.

Lemma sound_using_conflict_check L M fuel to from slot :
  sound L M (using_conflict_check fuel to from slot).
Proof.
  destruct slot as [var b]. unfold using_conflict_check.
  sound_auto; try apply sound_module_name; try apply sound_eq_bindings;
    apply sound_jl_get_binding.
Qed.

Lemma sound_jl_clear_implicit_imports L M m : sound L M (jl_clear_implicit_imports m).
Proof.
  intros s Hs. unfold jl_clear_implicit_imports.
  destruct (modules s !! m) as [mo|] eqn:Hm; [|done].
  destruct (bool_decide _); [|done].
  by apply known_filter_table.
Qed.

Lemma sound_jl_checked_assignment L M b md var rhs :
  sound L M (jl_checked_assignment b md var rhs).
Proof.
  unfold jl_checked_assignment.
  sound_auto; try apply sound_module_name; try apply sound_cmpswap_ty;
    apply sound_cmpswap_value.
Qed.

Lemma sound_jl_set_const L M m var val : sound L M (jl_set_const m var val).
Proof.
  unfold jl_set_const.
  sound_auto; try apply sound_jl_get_binding_wr; try apply sound_cmpswap_ty;
    apply sound_cmpswap_value.
Qed.

Lemma sound_jl_module_using L M fuel to from : sound L M (jl_module_using fuel to from).
Proof.
  unfold jl_module_using. sound_auto.
  apply sound_for_each. intros. apply sound_using_conflict_check.
Qed.

Lemma sound_jl_module_export L M from nm : sound L M (jl_module_export from nm).
Proof. unfold jl_module_export. sound_auto. Qed.

Lemma sound_jl_module_globalref L M m var : sound L M (jl_module_globalref m var).
Proof. unfold jl_module_globalref. sound_auto. Qed.

Lemma sound_jl_new_module_ L M fuel nm (parent_m : option nat) default_names :
  sound L M (jl_new_module_ fuel nm parent_m default_names).
Proof.
  intros s Hs. unfold jl_new_module_.
  set (s0 := set_modules (modules s ++ [mk_module nm parent_m ∅ []]) s).
  assert (H0 : known L (length (modules s) :: M) s0) by by apply known_new_module.
  match goal with
  | |- match ?c s0 with _ => _ end =>
      assert (Hk : sound L (length (modules s) :: M) c);
      [|specialize (Hk s0 H0); destruct (c s0); try done; by eapply known_less_module]
  end.
  sound_auto; try apply sound_jl_module_using; try apply sound_jl_set_const;
    apply sound_jl_module_export.
Qed.

(** Every entry point goes, however it ends, from a state without dangling
    pointers to a state without. *)
Lemma sound_run_api fuel call : sound [] [] (run_api fuel call).
Proof.
  destruct call; simpl;
    unfold jl_get_binding_or_error, jl_binding_owner,
      jl_module_import, jl_module_import_as, jl_module_use, jl_module_use_as,
      jl_boundp, jl_is_const, jl_get_global, jl_set_global, jl_declare_constant,
      jl_deprecate_binding, jl_is_binding_deprecated, jl_binding_resolved_p;
    repeat first
      [ apply sound_jl_new_module_ | apply sound_jl_get_binding_wr
      | apply sound_jl_get_binding_for_method_def | apply sound_jl_get_binding
      | apply sound_jl_module_using | apply sound_jl_module_export
      | apply sound_jl_module_globalref
      | apply sound_jl_checked_assignment | apply sound_jl_set_const
      | apply sound_jl_clear_implicit_imports
      | apply sound_jl_get_module_binding | apply sound_module_name
      | apply sound_module_import_; intros
      | apply sound_jl_binding_deprecation_warning; intros
      | apply sound_using_resolve_binding; intros
      | apply sound_jl_resolve_owner
      | sound_step ].
Qed.

Lemma reachable_known s : reachable s -> known [] [] s /\ owners_canonical s.
Proof.
  induction 1 as [dw ln|s fuel call s' _ [IHk IHc] Hrun|s main base core _ IH].
  - split; [|by apply Forall_nil]. by repeat split; apply Forall_nil.
  - split; [|by apply (run_api_inv _ _ _ _ IHc Hrun)].
    assert (Hs := sound_run_api fuel call s IHk).
    by destruct (run_api fuel call s); simpl in Hrun; subst.
  - exact IH.
Qed.

(** In every state of the process no pointer dangles: the bindings in the
    tables, the owners, the modules in the lists of used modules and the
    modules of the global references are all allocated.  So the functions
    that go through a whole table, [jl_module_names] and
    [jl_clear_implicit_imports], return for every module; and what
    [jl_module_usings] lists are modules. *)
Theorem reachable_pointers_valid s :
  reachable s ->
  valid_tables s /\ valid_owners s /\ valid_usings s /\ valid_globalrefs s /\
  (forall m, is_Some (modules s !! m) ->
     (forall all imported_p, exists r, jl_module_names m all imported_p s = Ok r s) /\
     (exists s1, jl_clear_implicit_imports m s = Ok tt s1) /\
     (exists l, jl_module_usings m s = Ok l s /\
                Forall (fun imp => is_Some (modules s !! imp)) l)).
Proof.
  intros [(Ht & Hu & Hg & _) Hc]%reachable_known.
  split; [done|]. split; [|split; [done|split; [done|]]].
  { eapply Forall_impl; [exact Hc|]. intros c. simpl.
    destruct (owner c) as [o|]; [|done].
    unfold canonical. destruct (heap s !! o); [by eexists|done]. }
  intros m [mo Hm].
  assert (Hall : map_Forall (fun _ b => is_Some (heap s !! b)) (bindings mo)).
  { unfold valid_tables in Ht. rewrite Forall_lookup in Ht. by apply (Ht _ _ Hm). }
  split; [|split].
  - intros all imported_p. unfold jl_module_names.
    rewrite (bind_Ok _ _ _ _ _ (deref_module_Ok _ _ _ Hm)).
    apply names_loop_returns. apply Forall_forall.
    intros [nm b] Hin%elem_of_map_to_list. by eapply Hall.
  - eexists. by apply jl_clear_implicit_imports_run.
  - exists (rev (usings mo)). split; [by apply jl_module_usings_rev|].
    apply Forall_rev. unfold valid_usings in Hu. rewrite Forall_lookup in Hu.
    by apply (Hu _ _ Hm).
Qed.

End Properties.

(** * The properties on the scenarios *)

(** C3 in an empty module: the cell is new, owns itself and is returned. *)
Lemma jl_get_binding_wr_alloc_witness :
  modules empty_module !! 0 = Some (toy_module "M" [] []) /\
  jl_get_binding_wr 0 "x" true empty_module
    = Ok (Some 0) (with_new_cell 0 (toy_module "M" [] []) "x" empty_module).
Proof.
  split; [reflexivity|].
  destruct (jl_get_binding_wr_alloc empty_module 0 (toy_module "M" [] []) "x" eq_refl)
    as (_ & _ & H).
  destruct (H eq_refl) as (_ & Hrun & _). exact Hrun.
Defined.

(** C3 where [M.f] is an alias of [F.f]: the assignment is refused. *)
Example jl_get_binding_wr_alias :
  jl_get_binding_wr 0 "f" true with_aliases
    = Raise (CannotAssignImported "M" "f") with_aliases.
Proof. vm_compute. reflexivity. Qed.

(** C3 where [M.p] is reserved only: [M] takes the ownership. *)
Example jl_get_binding_wr_placeholder :
  exists s', jl_get_binding_wr 0 "p" true with_aliases = Ok (Some 5) s' /\
             heap s' !! 5 = Some (set_owner (Some 5) (toy_placeholder 0 "p" false)).
Proof. eexists. split; vm_compute; reflexivity. Qed.


(** C6 for [M.f], an alias that was not imported, of a function: refused;
    and for [M.T], an alias that was not imported, of a constant type. *)
Example jl_get_binding_for_method_def_not_imported :
  jl_get_binding_for_method_def 0 "f" with_aliases
    = Raise (MustExplicitlyImport "M" "f") with_aliases /\
  jl_get_binding_for_method_def 0 "T" with_aliases = Ok 1 with_aliases.
Proof. split; vm_compute; reflexivity. Qed.

(** C4: a constant whose declared type is [Int] and which has no value
    yet is assigned a string: the call raises TypeMismatch, the value is
    not stored. *)
Lemma jl_checked_assignment_constant_counterexample :
  (exists c, heap with_constants !! 1 = Some c /\ constp c = true /\ value c = None) /\
  jl_checked_assignment 1 0 "t" (VStr "s") with_constants
    = Raise (TypeMismatch "M" "t") with_constants /\
  ~ (exists s', jl_checked_assignment 1 0 "t" (VStr "s") with_constants = Ok tt s').
Proof.
  split; [eexists; repeat split; reflexivity|].
  assert (H : jl_checked_assignment 1 0 "t" (VStr "s") with_constants
              = Raise (TypeMismatch "M" "t") with_constants)
    by (vm_compute; reflexivity).
  split; [exact H|]. intros [s' Hs']. rewrite H in Hs'. discriminate Hs'.
Qed.

(** C4, as amended, on the constant [c = 1] assigned 2: the warning and
    the new value. *)
Lemma jl_checked_assignment_constant_witness :
  let c := mk_binding (Some (VInt 1)) (0, "c") (Some 0) (Some (VType TAny))
                      true false false 0%Z in
  heap with_constants !! 0 = Some c /\ constp c = true /\
  modules with_constants !! 0 = Some (toy_module "M" [("c", 0); ("t", 1)] []) /\
  jl_checked_assignment 0 0 "c" (VInt 2) with_constants
    = Ok tt (put 0 (set_value (Some (VInt 2)) c)
               (print (WARNING_redefinition_of_constant "M" "c") with_constants)).
Proof.
  intros c. repeat (split; [reflexivity|]).
  exact (jl_checked_assignment_constant with_constants 0 c 0
           (toy_module "M" [("c", 0); ("t", 1)] []) "c" (VInt 2) eq_refl eq_refl eq_refl).
Defined.

(** C4 on the same constant: the same value again, a string, a type. *)
Example jl_checked_assignment_constant_cases :
  jl_checked_assignment 0 0 "c" (VInt 1) with_constants = Ok tt with_constants /\
  jl_checked_assignment 0 0 "c" (VStr "s") with_constants
    = Raise (ConstantRedefinition (Some "M") "c") with_constants /\
  jl_checked_assignment 0 0 "c" (VType TInt) with_constants
    = Raise (ConstantRedefinition (Some "M") "c") with_constants.
Proof. repeat split; vm_compute; reflexivity. Qed.

(** C5: the second [jl_set_const] of the same value does not succeed, and
    one of another value of the same type does not warn: both raise. *)
Lemma jl_set_const_twice_counterexample :
  let s1 := state_after (jl_set_const 0 "c" (VInt 1) empty_module) empty_module in
  jl_set_const 0 "c" (VInt 1) empty_module = Ok tt s1 /\
  jl_set_const 0 "c" (VInt 1) s1 = Raise (ConstantRedefinition None "c") s1 /\
  jl_set_const 0 "c" (VInt 2) s1 = Raise (ConstantRedefinition None "c") s1 /\
  stderr (state_after (jl_set_const 0 "c" (VInt 2) s1) s1) = [].
Proof. repeat split; vm_compute; reflexivity. Qed.

(** C5, as amended, in the empty module. *)
Lemma jl_set_const_then_again_witness :
  let mo := toy_module "M" [] [] in
  let s1 := put 0 (const_cell 0 "c" 0 (VInt 1)) (with_new_cell 0 mo "c" empty_module) in
  modules empty_module !! 0 = Some mo /\ bindings mo !! "c" = None /\
  jl_set_const 0 "c" (VInt 1) empty_module = Ok tt s1 /\
  jl_get_global 1 0 "c" s1 = Ok (Some (VInt 1)) s1 /\
  jl_set_const 0 "c" (VType TInt) s1 = Raise (ConstantRedefinition None "c") s1.
Proof.
  intros mo s1. do 2 (split; [reflexivity|]).
  destruct (jl_set_const_then_again empty_module 0 mo "c" (VInt 1) eq_refl eq_refl)
    as (Hset & _ & Hget & Hagain).
  split; [exact Hset|]. split; [exact (Hget 0)|exact (Hagain (VType TInt))].
Defined.

(** C7 for [F1] using [F2]: the first call warns about [x] and adds the
    edge, the second one changes nothing. *)
Lemma jl_module_using_idempotent_witness :
  let s1 := state_after (jl_module_using 1 1 2 two_exports) two_exports in
  valid_tables two_exports /\ valid_owners two_exports /\
  jl_module_using 1 1 2 two_exports = Ok tt s1 /\
  jl_module_using 1 1 2 s1 = Ok tt s1 /\
  stderr s1 = [WARNING_using_conflicts "F2" "x" "F1"].
Proof.
  intros s1.
  split; [apply (bool_decide_unpack _); vm_compute; exact I|].
  split; [apply (bool_decide_unpack _); vm_compute; exact I|].
  assert (H1 : jl_module_using 1 1 2 two_exports = Ok tt s1) by (vm_compute; reflexivity).
  split; [exact H1|].
  split; [|vm_compute; reflexivity].
  destruct (jl_module_using_idempotent 1 two_exports 1 2) as (_ & H & _).
  exact (proj1 (H s1 H1)).
Defined.


(** Two frames are not enough for that lookup. *)
Example jl_get_binding_cyclic_using_fuel :
  jl_get_binding 2 0 "v" mutual_using = OutOfFuel.
Proof. vm_compute. reflexivity. Qed.

(** The search of [U] in [two_exports]: it holds [F2.x] (binding 1) when it
    comes to [F1], whose [x] is binding 0. *)
Lemma two_exports_finds_two_candidates :
  finds_two_candidates 1 0 "x" two_exports 1 1 0 two_exports.
Proof.
  exists (toy_module "U" [] [1; 2]), [1], 0, [], (Some 2), two_exports,
         (toy_module "F1" [("x", 0)] []), 0,
         (toy_own 1 "x" 0 (Some (VInt 1)) false true),
         (toy_own 1 "x" 0 (Some (VInt 1)) false true),
         (toy_own 2 "x" 1 (Some (VInt 2)) false true).
  repeat split; vm_compute; reflexivity.
Defined.

(** C1 for [U.x] in [two_exports]. *)
Lemma jl_get_binding_ambiguous_warns_once_witness :
  let mo := toy_module "U" [] [1; 2] in
  modules two_exports !! 0 = Some mo /\ bindings mo !! "x" = None /\
  finds_two_candidates 1 0 "x" two_exports 1 1 0 two_exports /\
  exists s3 b3,
    jl_get_binding 2 0 "x" two_exports = Ok None s3 /\
    stderr s3 = [WARNING_must_be_qualified "F2" "F1" "x" "U"] /\
    jl_get_binding 2 0 "x" s3 = Ok (Some b3) s3.
Proof.
  intros mo. do 2 (split; [reflexivity|]).
  split; [exact two_exports_finds_two_candidates|].
  destruct (jl_get_binding_ambiguous_warns_once 1 two_exports 0 mo "x" 1 1 0 two_exports
              eq_refl eq_refl two_exports_finds_two_candidates)
    as (s3 & owner_name & mi2 & b3 & Hrun & Hmi2 & Hout & _ & Hagain).
  exists s3, b3. split; [exact Hrun|]. split; [|exact (Hagain 1)].
  assert (Hs3 : s3 = state_after (jl_get_binding 2 0 "x" two_exports) two_exports)
    by (rewrite Hrun; reflexivity).
  rewrite Hs3. vm_compute. reflexivity.
Defined.

(** C9 for [U.x] in [two_exports]. *)
Lemma jl_get_binding_ambiguous_marks_owned_witness :
  let mo := toy_module "U" [] [1; 2] in
  modules two_exports !! 0 = Some mo /\ bindings mo !! "x" = None /\
  finds_two_candidates 1 0 "x" two_exports 1 1 0 two_exports /\
  exists s3 b3 c3,
    jl_get_binding 2 0 "x" two_exports = Ok None s3 /\
    heap s3 !! b3 = Some c3 /\ owner c3 = Some b3 /\ value c3 = None /\
    jl_get_binding 2 0 "x" s3 = Ok (Some b3) s3 /\
    jl_boundp 2 0 "x" s3 = Ok false s3.
Proof.
  intros mo. do 2 (split; [reflexivity|]).
  split; [exact two_exports_finds_two_candidates|].
  destruct (jl_get_binding_ambiguous_marks_owned 1 two_exports 0 mo "x" 1 1 0 two_exports
              eq_refl eq_refl two_exports_finds_two_candidates)
    as (s3 & b3 & c3 & Hrun & _ & Hb3 & Ho & Hv & Hagain).
  exists s3, b3, c3. repeat split; try assumption; apply (Hagain 1).
Defined.

(** C2 for [U.x] in [one_export], found through the [using]: the binding
    returned is [F.x], which owns itself, and [U] has got an alias of it. *)
Lemma jl_get_binding_canonical_witness :
  let s' := state_after (jl_get_binding 2 0 "x" one_export) one_export in
  owners_canonical one_export /\
  jl_get_binding 2 0 "x" one_export = Ok (Some 0) s' /\
  (exists c, heap s' !! 0 = Some c /\ owner c = Some 0) /\
  owners_canonical s' /\
  heap s' !! 1 = Some (toy_alias 0 "x" 0 false).
Proof.
  intros s'.
  assert (Hoc : owners_canonical one_export)
    by (apply (bool_decide_unpack _); vm_compute; exact I).
  assert (Hrun : jl_get_binding 2 0 "x" one_export = Ok (Some 0) s')
    by (vm_compute; reflexivity).
  split; [exact Hoc|]. split; [exact Hrun|].
  destruct (jl_get_binding_canonical 2 one_export 0 "x" 0 s' Hoc Hrun) as [Hc Hoc'].
  split; [exact Hc|]. split; [exact Hoc'|]. vm_compute. reflexivity.
Defined.

(** C10 for [M.f] in [with_aliases], an alias of [F.f]: the flag goes to
    the binding of [F], the cell of [M] is as it was, and [M.g], the other
    alias of [F.f], is deprecated too. *)
Lemma jl_deprecate_binding_owner_witness :
  let cb := toy_own 1 "f" 0 (Some (VFunction 1 "f")) false true in
  let s2 := put 0 (set_deprecated 1 cb) with_aliases in
  (0 <= 1 <= 2)%Z /\
  jl_get_binding 1 0 "f" with_aliases = Ok (Some 0) with_aliases /\
  heap with_aliases !! 0 = Some cb /\
  jl_deprecate_binding 1 0 "f" 1 with_aliases = Ok tt s2 /\
  heap s2 !! 2 = Some (toy_alias 0 "f" 0 false) /\
  jl_is_binding_deprecated 1 0 "g" s2 = Ok true s2 /\
  jl_is_binding_deprecated 1 1 "f" s2 = Ok true s2.
Proof.
  intros cb s2.
  assert (Hflag : (0 <= 1 <= 2)%Z) by (split; discriminate).
  assert (Hget : jl_get_binding 1 0 "f" with_aliases = Ok (Some 0) with_aliases)
    by (vm_compute; reflexivity).
  destruct (jl_deprecate_binding_owner 1 with_aliases 0 "f" 1 0 with_aliases cb
              Hflag Hget eq_refl) as (Hrun & _ & Hother & _ & Hvis).
  split; [exact Hflag|]. split; [exact Hget|]. split; [reflexivity|].
  split; [exact Hrun|]. split; [rewrite Hother; [reflexivity|discriminate]|].
  split.
  - refine (proj2 (Hvis 0 0 _ "g" 3 _ eq_refl eq_refl eq_refl eq_refl)).
  - refine (proj2 (Hvis 0 1 _ "f" 0 _ eq_refl eq_refl eq_refl eq_refl)).
Defined.

(** The two modules that [U] is using in [two_exports] have nothing left to
    resolve for [x], and their two bindings differ: the search finds two
    candidates. *)
Example two_exports_resolved_exports :
  exists b0 imp tempb, finds_two_candidates 1 0 "x" two_exports b0 imp tempb two_exports.
Proof.
  eapply (resolved_exports_find_two_candidates 0 two_exports 0
            (toy_module "U" [] [1; 2]) "x" 0 1 1 2 0 1); try reflexivity.
  - intros [|[|i]] imp Hi; vm_compute in Hi; simplify_eq;
      (eexists; split; [reflexivity|]);
      intros tb Htb; vm_compute in Htb; simplify_eq;
      (eexists; split; [reflexivity|]); intros _; eexists; (split; [reflexivity|]);
      vm_compute; reflexivity.
  - eexists. repeat split; reflexivity.
  - eexists. repeat split; reflexivity.
Qed.

(** * The further properties on the scenarios *)

(** [Leaf] is below [Mid], [Mid] below [Root]: [Leaf] is found below
    [Root]. *)
Lemma jl_is_submodule_preorder_witness :
  jl_is_submodule 2 (Some 2) (Some 1) family = Ok true family /\
  jl_is_submodule 2 (Some 1) (Some 0) family = Ok true family /\
  jl_is_submodule 4 (Some 2) (Some 0) family = Ok true family.
Proof.
  assert (H1 : jl_is_submodule 2 (Some 2) (Some 1) family = Ok true family) by reflexivity.
  assert (H2 : jl_is_submodule 2 (Some 1) (Some 0) family = Ok true family) by reflexivity.
  split; [exact H1|]. split; [exact H2|].
  exact (proj2 (proj2 (jl_is_submodule_preorder 2 2 _ _ _ family)) H1 H2).
Defined.

(** [U] starts using [F]: [F] is the first of the modules listed. *)
Lemma jl_module_usings_latest_first_witness :
  let s1 := state_after (jl_module_using 1 0 1 before_using) before_using in
  modules before_using !! 0 = Some (toy_module "U" [] []) /\
  jl_module_using 1 0 1 before_using = Ok tt s1 /\
  jl_module_usings 0 s1 = Ok [1] s1.
Proof.
  intros s1.
  assert (Hrun : jl_module_using 1 0 1 before_using = Ok tt s1) by (vm_compute; reflexivity).
  split; [reflexivity|]. split; [exact Hrun|].
  refine (proj2 (jl_module_usings_latest_first 1 before_using 0 1 (toy_module "U" [] []) s1
                   eq_refl) Hrun _ _).
  - discriminate.
  - intros H. vm_compute in H. inversion H.
Defined.

(** The names of [M] in [with_aliases], imports asked for: [g], the
    explicit import, is one of them. *)
Lemma jl_module_names_spec_witness :
  let mo := toy_module "M" [("f", 2); ("g", 3); ("T", 4); ("p", 5)] [1] in
  modules with_aliases !! 0 = Some mo /\
  exists r, jl_module_names 0 false true with_aliases = Ok r with_aliases /\
            NoDup r /\ "g" ∈ r.
Proof.
  intros mo. split; [reflexivity|].
  destruct (jl_module_names_spec with_aliases 0 mo false true eq_refl) as [Hinv Hret].
  destruct Hret as [r Hr]; [apply (bool_decide_unpack _); vm_compute; exact I|].
  destruct (Hinv r _ Hr) as (_ & Hnd & Hin).
  exists r. split; [exact Hr|]. split; [exact Hnd|].
  apply Hin. exists 3, (toy_alias 0 "g" 0 true). repeat split; reflexivity.
Defined.


(** [x] is exported from the empty module: [x] is listed. *)
Lemma jl_module_export_listed_witness :
  let s1 := state_after (jl_module_export 0 "x" empty_module) empty_module in
  let r := value_after [] (jl_module_names 0 false false s1) in
  jl_module_export 0 "x" empty_module = Ok tt s1 /\
  jl_module_names 0 false false s1 = Ok r s1 /\
  exists mo1 b c,
    modules s1 !! 0 = Some mo1 /\ bindings mo1 !! "x" = Some b /\ heap s1 !! b = Some c /\
    ("x" ∈ r <-> false = true \/ (deprecated c = 0%Z /\ hidden_name "x" = false)).
Proof.
  intros s1 r.
  assert (H1 : jl_module_export 0 "x" empty_module = Ok tt s1) by (vm_compute; reflexivity).
  assert (H2 : jl_module_names 0 false false s1 = Ok r s1) by (vm_compute; reflexivity).
  split; [exact H1|]. split; [exact H2|].
  exact (jl_module_export_listed empty_module 0 "x" s1 false false r H1 H2).
Defined.

(** The global reference of the cell [g] of [M] in [with_aliases]: the
    name is bound, as [jl_boundp] says. *)
Lemma jl_globalref_by_name_witness :
  let mo := toy_module "M" [("f", 2); ("g", 3); ("T", 4); ("p", 5)] [1] in
  modules with_aliases !! 0 = Some mo /\ bindings mo !! "g" = Some 3 /\
  jl_globalref_boundp 1 (jl_new_globalref 0 "g" 3) with_aliases
    = jl_boundp 1 0 "g" with_aliases /\
  jl_boundp 1 0 "g" with_aliases = Ok true with_aliases.
Proof.
  intros mo. split; [reflexivity|]. split; [reflexivity|].
  split; [|vm_compute; reflexivity].
  exact (proj1 (jl_globalref_by_name 1 with_aliases 0 mo "g" 3 eq_refl eq_refl)).
Defined.

(** [Leaf] and [Mid] have no optimization level: the level of [Leaf] is
    that of [Root]. *)
Lemma get_setting_nearest_witness :
  unset_chain optlevel family_opts family 2 [1; 0] 0 /\
  setting_stops optlevel family_opts family 0 2 /\
  jl_get_module_optlevel family_opts 3 2 family = Ok 2%Z family.
Proof.
  assert (Hc : unset_chain optlevel family_opts family 2 [1; 0] 0).
  { split; [|split; [|reflexivity]].
    - eexists _, _. repeat split; try reflexivity; discriminate.
    - eexists _, _. repeat split; try reflexivity; discriminate. }
  assert (Hs : setting_stops optlevel family_opts family 0 2).
  { eexists. split; [reflexivity|]. split; [reflexivity|]. left. discriminate. }
  split; [exact Hc|]. split; [exact Hs|].
  exact (get_setting_nearest optlevel family_opts family 2 [1; 0] 0 2 0 Hc Hs).
Defined.

(** The level 3 is set for [Mid]: that is its level then. *)
Lemma jl_set_module_setting_get_witness :
  module_opts family_opts !! 1 = Some new_module_opts /\
  (-128 <= 3 <= 127)%Z /\
  exists os',
    jl_set_module_optlevel 1 3 family_opts = Some os' /\
    jl_get_module_optlevel os' 1 1 family = Ok 3%Z family.
Proof.
  assert (Hr : (-128 <= 3 <= 127)%Z) by (split; discriminate).
  split; [reflexivity|]. split; [exact Hr|].
  destruct (jl_set_module_setting_get family_opts 1 new_module_opts 3 eq_refl Hr)
    as [(os' & Hset & _ & Hget) _].
  exists os'. split; [exact Hset|]. apply Hget. discriminate.
Defined.

(** The counter of [Root], which is 1, is returned and becomes 2. *)
Lemma jl_module_next_counter_wraps_witness :
  let o := set_optlevel 2 new_module_opts in
  module_opts family_opts !! 0 = Some o /\
  (0 <= counter o < 2 ^ 32)%Z /\
  exists os' o',
    jl_module_next_counter 0 family_opts = Some (1%Z, os') /\
    module_opts os' !! 0 = Some o' /\ counter o' = 2%Z.
Proof.
  intros o.
  assert (Hr : (0 <= counter o < 2 ^ 32)%Z) by (split; [discriminate|reflexivity]).
  split; [reflexivity|]. split; [exact Hr|].
  destruct (jl_module_next_counter_wraps family_opts 0 o eq_refl Hr)
    as (os' & o' & Hrun & Ho' & Hc & _).
  exists os', o'. split; [exact Hrun|]. split; [exact Ho'|]. exact Hc.
Defined.

(** [M.v], a variable of no declared type, is assigned 2. *)
Lemma jl_checked_assignment_variable_witness :
  let c := toy_own 0 "v" 0 (Some (VInt 1)) false false in
  heap with_variable !! 0 = Some c /\ constp c = false /\
  modules with_variable !! 0 = Some (toy_module "M" [("v", 0)] []) /\
  jl_checked_assignment 0 0 "v" (VInt 2) with_variable
    = Ok tt (put 0 (set_value (Some (VInt 2)) (promoted c)) with_variable).
Proof.
  intros c. do 3 (split; [reflexivity|]).
  exact (proj1 (jl_checked_assignment_variable with_variable 0 c 0
                  (toy_module "M" [("v", 0)] []) "v" (VInt 2) eq_refl eq_refl eq_refl)).
Defined.

(** [x] is set to 1 in the empty module and read back. *)
Lemma jl_set_global_then_get_witness :
  let mo := toy_module "M" [] [] in
  let s1 := state_after (jl_set_global 0 "x" (VInt 1) empty_module) empty_module in
  modules empty_module !! 0 = Some mo /\ bindings mo !! "x" = None /\
  jl_set_global 0 "x" (VInt 1) empty_module = Ok tt s1 /\
  jl_get_global 1 0 "x" s1 = Ok (Some (VInt 1)) s1.
Proof.
  intros mo s1. split; [reflexivity|]. split; [reflexivity|].
  destruct (jl_set_global_then_get empty_module 0 mo "x" (VInt 1) eq_refl eq_refl)
    as (Hrun & _ & Hq & _).
  split; [exact Hrun|]. exact (proj1 (Hq 0)).
Defined.

(** A name that the empty module does not have is undefined. *)
Lemma jl_get_binding_or_error_undefined_witness :
  let mo := toy_module "M" [] [] in
  modules empty_module !! 0 = Some mo /\ unresolved empty_module mo "x" /\
  usings mo = [] /\ 1 <> 0 /\
  jl_get_binding_or_error 1 0 "x" empty_module = Raise (UndefinedVarError "x") empty_module.
Proof.
  intros mo. split; [reflexivity|]. split; [exact I|]. split; [reflexivity|].
  split; [discriminate|].
  refine (proj2 (proj2 (jl_get_binding_or_error_undefined 1 empty_module 0 mo "x" eq_refl))
            I eq_refl _).
  discriminate.
Defined.

(** [x] is exported from the empty module: it is exported and not
    resolved, and the lookup finds nothing. *)
Lemma jl_module_export_placeholder_witness :
  let mo := toy_module "M" [] [] in
  let s1 := with_placeholder 0 mo "x" empty_module in
  modules empty_module !! 0 = Some mo /\ bindings mo !! "x" = None /\
  jl_module_export 0 "x" empty_module = Ok tt s1 /\
  jl_module_exports_p 0 "x" s1 = Ok true s1 /\
  jl_binding_resolved_p 0 "x" s1 = Ok false s1 /\
  jl_get_binding 1 0 "x" s1 = Ok None s1.
Proof.
  intros mo s1. split; [reflexivity|]. split; [reflexivity|].
  destruct (proj2 (jl_module_export_placeholder empty_module 0 mo "x" eq_refl) eq_refl)
    as (Hrun & Hexp & _ & Hres & _ & _ & Hget).
  split; [exact Hrun|]. split; [exact Hexp|]. split; [exact Hres|].
  exact (proj1 (Hget eq_refl 0)).
Defined.

(** Without allocation, the cell of [M.f] in [with_aliases], an alias of
    [F.f], is returned as it is. *)
Lemma jl_get_binding_wr_no_alloc_witness :
  let mo := toy_module "M" [("f", 2); ("g", 3); ("T", 4); ("p", 5)] [1] in
  modules with_aliases !! 0 = Some mo /\
  bindings mo !! "f" = Some 2 /\ heap with_aliases !! 2 = Some (toy_alias 0 "f" 0 false) /\
  jl_get_binding_wr 0 "f" false with_aliases = Ok (Some 2) with_aliases.
Proof.
  intros mo. do 3 (split; [reflexivity|]).
  exact (proj2 (proj2 (jl_get_binding_wr_no_alloc with_aliases 0 mo "f" eq_refl))
           2 (toy_alias 0 "f" 0 false) eq_refl eq_refl).
Defined.

(** [U.x] in [one_export] is not resolved yet: the query is false and
    takes no turn of the resolver. *)
Lemma jl_is_binding_deprecated_unresolved_witness :
  let mo := toy_module "U" [] [1] in
  modules one_export !! 0 = Some mo /\ unresolved one_export mo "x" /\
  jl_is_binding_deprecated 0 0 "x" one_export = Ok false one_export.
Proof.
  intros mo. split; [reflexivity|]. split; [exact I|].
  exact (proj1 (jl_is_binding_deprecated_unresolved 0 one_export 0 mo "x" eq_refl) I).
Defined.


(** [U] starts using [F]: the bindings and the tables are as before. *)
Lemma jl_module_using_frame_witness :
  let s1 := state_after (jl_module_using 1 0 1 before_using) before_using in
  jl_module_using 1 0 1 before_using = Ok tt s1 /\
  heap s1 = heap before_using /\
  length (modules s1) = length (modules before_using).
Proof.
  intros s1.
  assert (Hrun : jl_module_using 1 0 1 before_using = Ok tt s1) by (vm_compute; reflexivity).
  split; [exact Hrun|].
  destruct (jl_module_using_frame 1 before_using 0 1 s1 Hrun) as (Hh & Hl & _).
  split; [exact Hh|exact Hl].
Defined.

(** The implicit imports of [M] in [with_aliases] are cleared: [g], the
    explicit import, stays; [f], [T] and the reserved [p] go. *)
Lemma jl_clear_implicit_imports_spec_witness :
  let mo := toy_module "M" [("f", 2); ("g", 3); ("T", 4); ("p", 5)] [1] in
  modules with_aliases !! 0 = Some mo /\
  map_Forall (fun _ b => is_Some (heap with_aliases !! b)) (bindings mo) /\
  exists s1 mo1,
    jl_clear_implicit_imports 0 with_aliases = Ok tt s1 /\
    modules s1 = <[0 := mo1]> (modules with_aliases) /\
    bindings mo1 !! "g" = Some 3 /\ bindings mo1 !! "f" = None /\
    bindings mo1 !! "p" = None.
Proof.
  intros mo.
  assert (Hall : map_Forall (fun _ b => is_Some (heap with_aliases !! b)) (bindings mo))
    by (apply (bool_decide_unpack _); vm_compute; exact I).
  split; [reflexivity|]. split; [exact Hall|].
  destruct (jl_clear_implicit_imports_spec with_aliases 0 mo eq_refl Hall)
    as (s1 & mo1 & Hrun & _ & _ & Hms & _ & _ & _ & Hlook & _).
  exists s1, mo1. split; [exact Hrun|]. split; [exact Hms|]. split; [|split].
  - apply Hlook. split; [reflexivity|]. exists (toy_alias 0 "g" 0 true).
    split; [reflexivity|]. right. reflexivity.
  - destruct (bindings mo1 !! "f") as [b|] eqn:Hb; [|reflexivity].
    apply Hlook in Hb as (Hv & c & Hc & Hk). vm_compute in Hv. injection Hv as <-.
    vm_compute in Hc. injection Hc as <-. destruct Hk as [Hk|Hk]; discriminate Hk.
  - destruct (bindings mo1 !! "p") as [b|] eqn:Hb; [|reflexivity].
    apply Hlook in Hb as (Hv & c & Hc & Hk). vm_compute in Hv. injection Hv as <-.
    vm_compute in Hc. injection Hc as <-. destruct Hk as [Hk|Hk]; discriminate Hk.
Defined.

(** [M.v] has a value and is not a constant: it cannot be declared one. *)
Lemma jl_declare_constant_cases_witness :
  let c := toy_own 0 "v" 0 (Some (VInt 1)) false false in
  let mdo := toy_module "M" [("v", 0)] [] in
  heap with_variable !! 0 = Some c /\ modules with_variable !! 0 = Some mdo /\
  (value c <> None /\ constp c = false) /\
  jl_declare_constant 0 0 "v" with_variable
    = Raise (ConstantRedeclaration "M" "v") with_variable.
Proof.
  intros c mdo.
  assert (Hv : value c <> None /\ constp c = false) by (split; [discriminate|reflexivity]).
  split; [reflexivity|]. split; [reflexivity|]. split; [exact Hv|].
  exact (proj1 (proj2 (jl_declare_constant_cases with_variable 0 c 0 mdo "v" eq_refl eq_refl))
           (or_intror Hv)).
Defined.

(** [U] imports [x] from [F]: [U.x] is [F.x], an explicit import, and it
    cannot be assigned through [U]. *)
Lemma jl_module_import_then_witness :
  let mto := toy_module "U" [] [] in
  let mfrom := toy_module "F" [("x", 0)] [] in
  let cb := toy_own 1 "x" 0 (Some (VInt 1)) false true in
  let s1 := with_alias 0 mto "x" 0 true 0 before_using in
  modules before_using !! 0 = Some mto /\ bindings mto !! "x" = None /\
  modules before_using !! 1 = Some mfrom /\ bindings mfrom !! "x" = Some 0 /\
  heap before_using !! 0 = Some cb /\ owner cb = Some 0 /\ deprecated cb = 0%Z /\
  jl_module_import 1 0 1 "x" before_using = Ok tt s1 /\
  jl_get_binding 1 0 "x" s1 = Ok (Some 0) s1 /\
  jl_is_imported 0 "x" s1 = Ok true s1 /\
  jl_set_global 0 "x" (VInt 2) s1 = Raise (CannotAssignImported "U" "x") s1.
Proof.
  intros mto mfrom cb s1. do 7 (split; [reflexivity|]).
  destruct (jl_module_import_then 0 before_using 0 mto 1 mfrom "x" 0 cb
              eq_refl eq_refl eq_refl eq_refl eq_refl eq_refl eq_refl)
    as (Hrun & _ & Hget & _ & Himp & _ & Hset & _).
  split; [exact Hrun|]. split; [exact Hget|]. split; [exact Himp|]. exact (Hset (VInt 2)).
Defined.

(** [U] imports [y], which [F] does not have: the warning, and no more. *)
Lemma jl_module_import_unknown_witness :
  let mto := toy_module "U" [] [] in
  let mfrom := toy_module "F" [("x", 0)] [] in
  modules before_using !! 0 = Some mto /\ modules before_using !! 1 = Some mfrom /\
  unresolved before_using mfrom "y" /\ usings mfrom = [] /\
  jl_module_import 1 0 1 "y" before_using
    = Ok tt (print (WARNING_could_not_import "F" "y" "U") before_using).
Proof.
  intros mto mfrom. split; [reflexivity|]. split; [reflexivity|]. split; [exact I|].
  split; [reflexivity|].
  exact (proj1 (jl_module_import_unknown 0 before_using 0 mto 1 mfrom "y" "y"
                  eq_refl eq_refl I eq_refl)).
Defined.

(** [U] imports [x] from [F] in [conflicting], where [U] has an [x] of
    its own: the import is ignored, with the warning for an import that is
    in conflict with another. *)
Lemma jl_module_import_conflict_witness :
  let mto := toy_module "U" [("x", 1)] [] in
  let mfrom := toy_module "F" [("x", 0)] [] in
  let cb := toy_own 1 "x" 0 (Some (VInt 1)) false true in
  let cbto := toy_own 0 "x" 1 (Some (VInt 3)) false false in
  modules conflicting !! 0 = Some mto /\ bindings mto !! "x" = Some 1 /\
  heap conflicting !! 1 = Some cbto /\
  modules conflicting !! 1 = Some mfrom /\ bindings mfrom !! "x" = Some 0 /\
  heap conflicting !! 0 = Some cb /\ owner cb = Some 0 /\ deprecated cb = 0%Z /\
  1 <> 0 /\ eq_bindings 1 0 conflicting = Ok false conflicting /\
  jl_module_import 1 0 1 "x" conflicting
    = Ok tt (print (WARNING_ignoring_conflicting_import "F" "x" "U") conflicting).
Proof.
  intros mto mfrom cb cbto. do 8 (split; [reflexivity|]).
  split; [discriminate|]. split; [reflexivity|].
  refine (jl_module_import_conflict 0 conflicting 0 mto 1 mfrom "x" 0 cb 1 cbto
            eq_refl eq_refl eq_refl eq_refl eq_refl eq_refl eq_refl eq_refl _ eq_refl).
  discriminate.
Defined.

Lemma two_exports_resolved : resolved_exports two_exports (toy_module "U" [] [1; 2]) "x".
Proof.
  intros [|[|i]] imp Hi; vm_compute in Hi; try discriminate Hi; injection Hi as <-;
    (eexists; split; [reflexivity|]);
    intros tb Htb; vm_compute in Htb; injection Htb as <-;
    (eexists; split; [reflexivity|]); intros _; eexists; (split; [reflexivity|]);
    reflexivity.
Defined.

(** [U.x] in [two_exports]: the lookup is ambiguous. *)
Lemma jl_get_binding_two_exports_witness :
  let mo := toy_module "U" [] [1; 2] in
  modules two_exports !! 0 = Some mo /\ bindings mo !! "x" = None /\
  resolved_exports two_exports mo "x" /\
  candidate_at two_exports mo "x" 0 = Some (1, 0) /\
  candidate_at two_exports mo "x" 1 = Some (2, 1) /\
  live two_exports 0 /\ live two_exports 1 /\
  eq_bindings 0 1 two_exports = Ok false two_exports /\
  exists n1 n2 s3,
    jl_get_binding 2 0 "x" two_exports = Ok None s3 /\
    stderr s3 = [WARNING_must_be_qualified n1 n2 "x" "U"] /\
    jl_get_binding 1 0 "x" s3 = Ok (Some 2) s3.
Proof.
  intros mo.
  assert (Hl0 : live two_exports 0) by (eexists; repeat split; reflexivity).
  assert (Hl1 : live two_exports 1) by (eexists; repeat split; reflexivity).
  split; [reflexivity|]. split; [reflexivity|]. split; [exact two_exports_resolved|].
  split; [reflexivity|]. split; [reflexivity|]. split; [exact Hl0|]. split; [exact Hl1|].
  split; [reflexivity|].
  destruct (jl_get_binding_two_exports 0 two_exports 0 mo "x" 0 1 1 2 0 1
              eq_refl eq_refl two_exports_resolved eq_refl eq_refl Hl0 Hl1 eq_refl)
    as (n1 & n2 & s3 & Hrun & Herr & _ & Hagain).
  exists n1, n2, s3. split; [exact Hrun|]. split; [exact Herr|]. exact (Hagain 0).
Defined.

Lemma one_export_resolved : resolved_exports one_export (toy_module "U" [] [1]) "x".
Proof.
  intros [|i] imp Hi; vm_compute in Hi; try discriminate Hi; injection Hi as <-;
    (eexists; split; [reflexivity|]);
    intros tb Htb; vm_compute in Htb; injection Htb as <-;
    (eexists; split; [reflexivity|]); intros _; eexists; (split; [reflexivity|]);
    reflexivity.
Defined.

(** [U.x] in [one_export]: the lookup finds [F.x] and leaves an alias,
    as [jl_module_use] would. *)
Lemma jl_get_binding_through_using_witness :
  let mo := toy_module "U" [] [1] in
  let cb := toy_own 1 "x" 0 (Some (VInt 1)) false true in
  let s1 := with_alias 0 mo "x" 0 false 0 one_export in
  modules one_export !! 0 = Some mo /\ bindings mo !! "x" = None /\
  resolved_exports one_export mo "x" /\
  candidate_at one_export mo "x" 0 = Some (1, 0) /\
  (forall k, k <> 0 -> candidate_at one_export mo "x" k = None) /\
  heap one_export !! 0 = Some cb /\ deprecated cb = 0%Z /\
  jl_get_binding 2 0 "x" one_export = Ok (Some 0) s1 /\
  jl_module_use 1 0 1 "x" one_export = Ok tt s1 /\
  jl_is_imported 0 "x" s1 = Ok false s1.
Proof.
  intros mo cb s1.
  assert (Hother : forall k, k <> 0 -> candidate_at one_export mo "x" k = None).
  { intros [|k] Hk; [destruct (Hk eq_refl)|reflexivity]. }
  split; [reflexivity|]. split; [reflexivity|]. split; [exact one_export_resolved|].
  split; [reflexivity|]. split; [exact Hother|]. split; [reflexivity|].
  split; [reflexivity|].
  destruct (jl_get_binding_through_using 0 one_export 0 mo "x" 0 1 0 cb
              eq_refl eq_refl one_export_resolved eq_refl Hother eq_refl eq_refl)
    as (Hget & Huse & _ & Himp & _).
  split; [exact Hget|]. split; [exact Huse|exact Himp].
Defined.


(** A module [Foo] is made beside the core module. *)
Lemma jl_new_module_names_itself_witness :
  (forall core, jl_core_module with_core = Some core ->
     exists mcore, modules with_core !! core = Some mcore /\
                   map_Forall (fun _ b => is_Some (heap with_core !! b)) (bindings mcore)) /\
  exists s1,
    jl_new_module 0 "Foo" (Some 0) with_core = Ok 1 s1 /\
    jl_get_global 1 1 "Foo" s1 = Ok (Some (VModule 1)) s1 /\
    jl_is_submodule 2 (Some 1) (Some 0) s1 = Ok true s1.
Proof.
  assert (Hcore : forall core, jl_core_module with_core = Some core ->
     exists mcore, modules with_core !! core = Some mcore /\
                   map_Forall (fun _ b => is_Some (heap with_core !! b)) (bindings mcore)).
  { intros core Hc. injection Hc as <-. eexists. split; [reflexivity|].
    apply (bool_decide_unpack _). vm_compute. exact I. }
  split; [exact Hcore|].
  destruct (jl_new_module_names_itself 0 with_core "Foo" (Some 0) Hcore)
    as (s1 & Hrun & _ & _ & _ & _ & _ & _ & Hq & Hsub).
  exists s1. split; [exact Hrun|]. split; [exact (proj1 (Hq 0))|]. exact (Hsub 0 eq_refl).
Defined.

(** [M.v] is assigned 5 through [jl_set_global]: the binding is where it
    was, and it still has a value. *)
Lemma run_api_bindings_stay_witness :
  let call := call_set_global 0 "v" (VInt 5) in
  let s' := state_after (run_api 1 call with_variable) with_variable in
  let c := toy_own 0 "v" 0 (Some (VInt 1)) false false in
  ends (run_api 1 call with_variable) s' /\ heap with_variable !! 0 = Some c /\
  exists c', heap s' !! 0 = Some c' /\ globalref c' = (0, "v") /\ is_Some (value c').
Proof.
  intros call s' c.
  assert (He : ends (run_api 1 call with_variable) s') by reflexivity.
  split; [exact He|]. split; [reflexivity|].
  destruct (run_api_bindings_stay 1 call with_variable s' He 0 c eq_refl)
    as (c' & Hc' & Hg & _ & _ & Hv & _).
  exists c'. split; [exact Hc'|]. split; [exact Hg|]. apply Hv. eexists. reflexivity.
Defined.

(** [U] starts using [F] through the entry point: the modules keep their
    names. *)
Lemma run_api_modules_stay_witness :
  let call := call_module_using 0 1 in
  let s' := state_after (run_api 1 call before_using) before_using in
  ends (run_api 1 call before_using) s' /\
  exists mo', modules s' !! 1 = Some mo' /\ name mo' = "F" /\
              stderr before_using `prefix_of` stderr s'.
Proof.
  intros call s'.
  assert (He : ends (run_api 1 call before_using) s') by reflexivity.
  split; [exact He|].
  destruct (run_api_modules_stay 1 call before_using s' He) as (Hm & Hs & _).
  destruct (Hm 1 (toy_module "F" [("x", 0)] []) eq_refl) as (mo' & Hmo' & Hn & _).
  exists mo'. split; [exact Hmo'|]. split; [exact Hn|exact Hs].
Defined.

(** The state after a first module has been made is a state of the
    process: its owner chains are one hop. *)
Lemma reachable_owners_canonical_witness :
  let s1 := state_after (run_api 1 (call_new_module_ "Main" None true) at_start) at_start in
  reachable s1 /\ owners_canonical s1.
Proof.
  intros s1.
  assert (Hr : reachable s1).
  { apply (reachable_call at_start 1 (call_new_module_ "Main" None true)).
    - apply reachable_init.
    - reflexivity. }
  split; [exact Hr|]. exact (reachable_owners_canonical s1 Hr).
Defined.

(** The state after a first module has been made and a variable set in it
    is a state of the process: its table holds allocated bindings, and
    the names of the module can be listed. *)
Lemma reachable_pointers_valid_witness :
  let s1 := state_after (run_api 1 (call_new_module_ "Main" None true) at_start) at_start in
  let s2 := state_after (run_api 1 (call_set_global 0 "x" (VInt 1)) s1) s1 in
  reachable s2 /\ is_Some (modules s2 !! 0) /\
  valid_tables s2 /\
  exists r, jl_module_names 0 true false s2 = Ok r s2.
Proof.
  intros s1 s2.
  assert (Hr : reachable s2).
  { apply (reachable_call s1 1 (@call_set_global toy_values 0 "x" (VInt 1))).
    - apply (reachable_call at_start 1 (call_new_module_ "Main" None true)).
      + apply reachable_init.
      + reflexivity.
    - reflexivity. }
  assert (Hm : is_Some (modules s2 !! 0)) by (eexists; reflexivity).
  split; [exact Hr|]. split; [exact Hm|].
  destruct (reachable_pointers_valid s2 Hr) as (Ht & _ & _ & _ & Hq).
  split; [exact Ht|]. exact (proj1 (Hq 0 Hm) true false).
Defined.
